(** * Deliverability verification engine: a shallow embedding

    The development follows the server sources of the e-mail validator:
    - [server/validators/email.js]: [validateEmailFormat], [verifyMailbox],
      [validateEmail];
    - the provider module that [email.js] imports as [./providers.js]
      (the file [unnamed/part_000] of the sources): [PROVIDER_CONFIGS],
      [getProviderConfig], [verifyProviderMailbox];
    - the validation routes, kept in [server/index.js] from its line 33 on:
      [processChunk] and the bulk loop of [router.post('/validate/bulk')].
    Line numbers are those of these three files.

    JavaScript strings are modelled by [string] (one [ascii] per code unit, so
    the alphabet is restricted to 8-bit characters), plain objects used as
    dictionaries by [gmap string _], promises by their eventual state, the
    numbers that the bulk route computes by IEEE 754 binary64 values, and
    the network (resolver answers, socket behaviour) by an explicit [World]
    that every network-facing function reads. *)

From Stdlib Require Import String Ascii ZArith SpecFloat Lia.
From stdpp Require Import gmap strings list fin_maps.
From Equations Require Import Equations.

Close Scope Z_scope.
Open Scope string_scope.
Open Scope list_scope.
Open Scope nat_scope.

(** ** JavaScript values handed to the validator *)

Module Js.

Inductive value :=
| VUndefined
| VNull
| VBool (b : bool)
| VNum (n : Z)
| VStr (s : string)
| VObject.

(** [!v] is [negb (truthy v)]. *)
Definition truthy (v : value) : bool :=
  match v with
  | VUndefined | VNull => false
  | VBool b => b
  | VNum n => negb (Z.eqb n 0)
  | VStr s => negb (String.eqb s "")
  | VObject => true
  end.

Definition is_string (v : value) : bool :=
  match v with VStr _ => true | _ => false end.

(** Outcome of awaiting a promise: it fulfils, it rejects, or it never
    settles. *)
Inductive promise (A : Type) :=
| Fulfilled (a : A)
| Rejected
| Pending.
Arguments Fulfilled {A} a.
Arguments Rejected {A}.
Arguments Pending {A}.

End Js.
Import Js.

(** ** Character classes of the address pattern *)

Module Chars.

Definition code (c : ascii) : nat := nat_of_ascii c.

Definition in_range (lo hi : nat) (c : ascii) : bool :=
  (lo <=? code c) && (code c <=? hi).

Definition is_lower : ascii -> bool := in_range 97 122.
Definition is_upper : ascii -> bool := in_range 65 90.
Definition is_digit : ascii -> bool := in_range 48 57.

(** [[a-zA-Z]] *)
Definition is_alpha (c : ascii) : bool := is_lower c || is_upper c.

(** [[a-zA-Z0-9]] *)
Definition is_alnum (c : ascii) : bool := is_alpha c || is_digit c.

Definition is_char (x c : ascii) : bool := Ascii.eqb x c.

(** [[a-zA-Z0-9._%+-]] *)
Definition is_local_char (c : ascii) : bool :=
  is_alnum c || is_char "." c || is_char "_" c || is_char "%" c
  || is_char "+" c || is_char "-" c.

(** [[a-zA-Z0-9-]] *)
Definition is_label_char (c : ascii) : bool := is_alnum c || is_char "-" c.

End Chars.
Import Chars.

(** ** Regular expressions

    The pattern of [validateEmailFormat] uses character classes, literal
    characters, sequencing, [?], [+], [{0,61}] and [{2,}]; it is anchored at
    both ends and [RegExp.prototype.test] answers whether some parse exists,
    so its meaning is membership of the whole string in a regular language. *)

Module Regex.

Inductive regex :=
| RNone
| REps
| RClass (p : ascii -> bool)
| RSeq (r1 r2 : regex)
| RAlt (r1 r2 : regex)
| RStar (r : regex).

(** Derived forms, named after the pattern syntax. *)
Definition RChr (c : ascii) : regex := RClass (is_char c).
Definition ROpt (r : regex) : regex := RAlt r REps.
Definition RPlus (r : regex) : regex := RSeq r (RStar r).

(** [r{0,n}] *)
Fixpoint RUpto (n : nat) (r : regex) : regex :=
  match n with
  | 0 => REps
  | S k => ROpt (RSeq r (RUpto k r))
  end.

(** [r{n,}] *)
Fixpoint RAtLeast (n : nat) (r : regex) : regex :=
  match n with
  | 0 => RStar r
  | S k => RSeq r (RAtLeast k r)
  end.

(** The language of a pattern. *)
Inductive Matches : regex -> list ascii -> Prop :=
| MEps : Matches REps []
| MClass p c : p c = true -> Matches (RClass p) [c]
| MSeq r1 r2 s1 s2 :
    Matches r1 s1 -> Matches r2 s2 -> Matches (RSeq r1 r2) (s1 ++ s2)
| MAltL r1 r2 s : Matches r1 s -> Matches (RAlt r1 r2) s
| MAltR r1 r2 s : Matches r2 s -> Matches (RAlt r1 r2) s
| MStarNil r : Matches (RStar r) []
| MStarApp r s1 s2 :
    Matches r s1 -> Matches (RStar r) s2 -> Matches (RStar r) (s1 ++ s2).

(** The matcher: Brzozowski derivatives with the two unit
    simplifications. *)
Fixpoint nullable (r : regex) : bool :=
  match r with
  | RNone => false
  | REps => true
  | RClass _ => false
  | RSeq r1 r2 => nullable r1 && nullable r2
  | RAlt r1 r2 => nullable r1 || nullable r2
  | RStar _ => true
  end.

Definition mkSeq (r1 r2 : regex) : regex :=
  match r1 with
  | RNone => RNone
  | REps => r2
  | _ => RSeq r1 r2
  end.

Definition mkAlt (r1 r2 : regex) : regex :=
  match r1, r2 with
  | RNone, _ => r2
  | _, RNone => r1
  | _, _ => RAlt r1 r2
  end.

Fixpoint deriv (c : ascii) (r : regex) : regex :=
  match r with
  | RNone => RNone
  | REps => RNone
  | RClass p => if p c then REps else RNone
  | RSeq r1 r2 =>
      mkAlt (mkSeq (deriv c r1) r2) (if nullable r1 then deriv c r2 else RNone)
  | RAlt r1 r2 => mkAlt (deriv c r1) (deriv c r2)
  | RStar r1 => mkSeq (deriv c r1) (RStar r1)
  end.

Fixpoint matches (r : regex) (s : list ascii) : bool :=
  match s with
  | [] => nullable r
  | c :: s' => matches (deriv c r) s'
  end.

(** [/^r$/.test(s)] *)
Definition test (r : regex) (s : string) : bool :=
  matches r (list_ascii_of_string s).

End Regex.
Import Regex.

(** ** [validateEmailFormat] (email.js, lines 9-15) *)

(** [[a-zA-Z0-9](?:[a-zA-Z0-9._%+-]{0,61}[a-zA-Z0-9])?] *)
Definition localRegex : regex :=
  RSeq (RClass is_alnum)
       (ROpt (RSeq (RUpto 61 (RClass is_local_char)) (RClass is_alnum))).

(** [[a-zA-Z0-9](?:[a-zA-Z0-9-]{0,61}[a-zA-Z0-9])?] *)
Definition labelRegex : regex :=
  RSeq (RClass is_alnum)
       (ROpt (RSeq (RUpto 61 (RClass is_label_char)) (RClass is_alnum))).

(** [(?:\.[a-zA-Z]{2,})+] *)
Definition groupRegex : regex :=
  RSeq (RChr ".") (RAtLeast 2 (RClass is_alpha)).

Definition emailRegex : regex :=
  RSeq localRegex (RSeq (RChr "@") (RSeq labelRegex (RPlus groupRegex))).

Definition validateEmailFormat (email : value) : bool :=
  if negb (truthy email) || negb (is_string email) then false
  else match email with
       | VStr s => test emailRegex s
       | _ => false
       end.


(** A second reading of the address grammar, following the words of the
    specification (section 4.1) and not the pattern: a local part of 1-63
    characters from the local alphabet that neither starts nor ends with a
    dot, then [@], then one or more dot-separated labels of 1-63
    alphanumeric/hyphen characters that neither start nor end with a hyphen,
    then a final label of at least two letters. *)
Module SpecWords.

Definition local_part (l : list ascii) : Prop :=
  1 <= length l <= 63 /\ forallb is_local_char l = true /\
  head l <> Some "."%char /\ last l <> Some "."%char.

Definition label (l : list ascii) : Prop :=
  1 <= length l <= 63 /\ forallb is_label_char l = true /\
  head l <> Some "-"%char /\ last l <> Some "-"%char.

Definition top_level (l : list ascii) : Prop :=
  2 <= length l /\ forallb is_alpha l = true.

Fixpoint dotted (labels : list (list ascii)) : list ascii :=
  match labels with
  | [] => []
  | [l] => l
  | l :: rest => l ++ "."%char :: dotted rest
  end.

Definition address_grammar (s : string) : Prop :=
  exists loc labels tld,
    list_ascii_of_string s = loc ++ "@"%char :: dotted (labels ++ [tld]) /\
    local_part loc /\ labels <> [] /\ Forall label labels /\ top_level tld.

End SpecWords.

(** ** String primitives of the runtime used by the sources *)

Module Str.

Definition CR : ascii := ascii_of_nat 13.
Definition LF : ascii := ascii_of_nat 10.
Definition CRLF : string := String CR (String LF EmptyString).

Fixpoint starts_with (p s : list ascii) : bool :=
  match p, s with
  | [], _ => true
  | _ :: _, [] => false
  | a :: p', b :: s' => Ascii.eqb a b && starts_with p' s'
  end.

(** [s.includes(sub)] *)
Fixpoint includes_list (sub s : list ascii) : bool :=
  starts_with sub s ||
  match s with
  | [] => false
  | _ :: s' => includes_list sub s'
  end.

Definition includes (s sub : string) : bool :=
  includes_list (list_ascii_of_string sub) (list_ascii_of_string s).

(** [s.split(sep)] for a non-empty separator: [skip] counts the characters
    of a separator occurrence still to be dropped, [cur] is the current
    piece in reverse. *)
Fixpoint split_go (sep : list ascii) (skip : nat) (cur s : list ascii)
  : list (list ascii) :=
  match s with
  | [] => [rev cur]
  | c :: s' =>
      match skip with
      | S k => split_go sep k cur s'
      | 0 =>
          if starts_with sep s
          then rev cur :: split_go sep (length sep - 1) [] s'
          else split_go sep 0 (c :: cur) s'
      end
  end.

Definition split (s sep : string) : list string :=
  map string_of_list_ascii
      (split_go (list_ascii_of_string sep) 0 [] (list_ascii_of_string s)).

(** [s.substring(0, n)] *)
Definition substring0 (n : nat) (s : string) : string := String.substring 0 n s.

(** [s.toLowerCase()] on the 8-bit alphabet restricted to its ASCII
    letters; the registry holds ASCII names only, and no other 8-bit
    character lower-cases into ASCII. *)
Definition lower_char (c : ascii) : ascii :=
  if is_upper c then ascii_of_nat (code c + 32) else c.

Definition toLowerCase (s : string) : string :=
  string_of_list_ascii (map lower_char (list_ascii_of_string s)).

(** [parseInt(s)] without radix: leading white space, an optional sign, an
    optional [0x] prefix, then the longest run of digits; [None] is NaN. *)
Definition is_space (c : ascii) : bool :=
  existsb (Nat.eqb (code c)) [9; 10; 11; 12; 13; 32; 160].

Fixpoint skip_spaces (s : list ascii) : list ascii :=
  match s with
  | c :: s' => if is_space c then skip_spaces s' else s
  | [] => []
  end.

Definition digit_val (radix : nat) (c : ascii) : option nat :=
  let v :=
    if is_digit c then Some (code c - 48)
    else if is_lower c then Some (code c - 97 + 10)
    else if is_upper c then Some (code c - 65 + 10)
    else None in
  match v with
  | Some d => if d <? radix then Some d else None
  | None => None
  end.

Fixpoint digits (radix : nat) (s : list ascii) (acc : option Z) : option Z :=
  match s with
  | c :: s' =>
      match digit_val radix c with
      | Some d =>
          digits radix s'
                 (Some (Z.of_nat radix * default 0%Z acc + Z.of_nat d)%Z)
      | None => acc
      end
  | [] => acc
  end.

Definition parseInt (s : string) : option Z :=
  let s1 := skip_spaces (list_ascii_of_string s) in
  let '(sign, s2) :=
    match s1 with
    | "-"%char :: t => ((-1)%Z, t)
    | "+"%char :: t => (1%Z, t)
    | _ => (1%Z, s1)
    end in
  let '(radix, s3) :=
    match s2 with
    | "0"%char :: "x"%char :: t => (16, t)
    | "0"%char :: "X"%char :: t => (16, t)
    | _ => (10, s2)
    end in
  Z.mul sign <$> digits radix s3 None.

(** Comparisons of a possibly-NaN number with a literal: all false on
    NaN. *)
Definition num_eq (c : option Z) (k : Z) : bool :=
  match c with Some n => Z.eqb n k | None => false end.
Definition num_ge (c : option Z) (k : Z) : bool :=
  match c with Some n => Z.leb k n | None => false end.
Definition num_lt (c : option Z) (k : Z) : bool :=
  match c with Some n => Z.ltb n k | None => false end.
(** [!code] *)
Definition num_falsy (c : option Z) : bool :=
  match c with Some n => Z.eqb n 0 | None => true end.

End Str.
Import Str.


(** ** Sockets as seen by the probes

    A probe owns one socket.  What the network does to it is a script: the
    events the runtime delivers, in order, and which calls of [socket.write]
    throw.  The model records what was written on the wire. *)

Module Net.

Inductive sock_event :=
| EvConnect
| EvData (data : string)
| EvTimeout
| EvError
| EvClose
| EvTimer.

Record script := {
  connect_throws : bool;
  write_throws : nat -> bool;
  events : list sock_event
}.

Record socket := {
  writable : bool;
  destroyed : bool;
  wire : list string;
  writes : nat
}.

Definition fresh : socket :=
  {| writable := false; destroyed := false; wire := []; writes := 0 |}.

Definition connected (k : socket) : socket :=
  {| writable := negb (destroyed k); destroyed := destroyed k;
     wire := wire k; writes := writes k |}.

(** [socket.write(chunk)]: the flag tells whether the call returned
    normally; writing [undefined] (a command index out of range) throws. *)
Definition write (throws : nat -> bool) (chunk : option string) (k : socket)
  : socket * bool :=
  let failed :=
    {| writable := writable k; destroyed := destroyed k; wire := wire k;
       writes := S (writes k) |} in
  match chunk with
  | Some c =>
      if throws (writes k) then (failed, false)
      else ({| writable := writable k; destroyed := destroyed k;
               wire := wire k ++ [c]; writes := S (writes k) |}, true)
  | None => (failed, false)
  end.

(** [socket.destroy()] *)
Definition destroy (k : socket) : socket :=
  {| writable := false; destroyed := true; wire := wire k;
     writes := writes k |}.

(** First settlement wins: [resolve] on a settled promise does nothing. *)
Definition resolve (b : bool) (p : option bool) : option bool :=
  match p with
  | None => Some b
  | Some _ => p
  end.

End Net.
Import Net.

(** ** Provider registry (providers module, lines 3-28) *)

Record providerEntry := {
  domains : list string;
  helo : string;
  timeout : Z
}.

(** The value returned by [getProviderConfig]: [{ ...config, provider }]. *)
Record providerConfig := {
  config : providerEntry;
  provider : string
}.

Definition PROVIDER_CONFIGS : list (string * providerEntry) :=
  [ ("outlook.com",
     {| domains := ["outlook.com"; "hotmail.com"; "live.com"];
        helo := "outlook-com.olc.protection.outlook.com";
        timeout := 15000%Z |});
    ("yahoo.com",
     {| domains := ["yahoo.com"; "ymail.com"; "yahoo.co.uk"];
        helo := "yahoo-smtp-in.l.yahoo.com";
        timeout := 12000%Z |});
    ("icloud.com",
     {| domains := ["icloud.com"; "me.com"; "mac.com"];
        helo := "icloud-com.mail.protection.outlook.com";
        timeout := 10000%Z |}) ].

Fixpoint getProviderConfig_in (entries : list (string * providerEntry))
  (domain : string) : option providerConfig :=
  match entries with
  | [] => None
  | (name, cfg) :: rest =>
      if existsb (String.eqb (toLowerCase domain)) (domains cfg)
      then Some {| config := cfg; provider := name |}
      else getProviderConfig_in rest domain
  end.

Definition getProviderConfig (domain : string) : option providerConfig :=
  getProviderConfig_in PROVIDER_CONFIGS domain.

(** The second component of [email.split('@')]. A string accepted by
    [validateEmailFormat] has exactly one [@], so the component exists
    whenever the probes and [validateEmail] reach this point; the default
    stands for [undefined] elsewhere. *)
Definition domain_of (email : string) : string :=
  match split email "@" with
  | _ :: d :: _ => d
  | _ => "undefined"
  end.

(** ** Generic probe: [verifyMailbox] (email.js, lines 17-123) *)

Module Generic.

Record session := {
  response : string;
  isValid : bool;
  currentCommand : nat;
  receivedRcptResponse : bool;
  sock : socket;
  settled : option bool;
  connect_cb : bool
}.

Definition commands (email : string) : list string :=
  let domain := domain_of email in
  let verifyFrom := "verify@" +:+ domain in
  [ "HELO " +:+ domain +:+ CRLF;
    "MAIL FROM:<" +:+ verifyFrom +:+ ">" +:+ CRLF;
    "RCPT TO:<" +:+ email +:+ ">" +:+ CRLF;
    "QUIT" +:+ CRLF ].

Definition init : session :=
  {| response := ""; isValid := false; currentCommand := 0;
     receivedRcptResponse := false; sock := fresh; settled := None;
     connect_cb := true |}.

Definition with_sock (k : socket) (s : session) : session :=
  {| response := response s; isValid := isValid s;
     currentCommand := currentCommand s;
     receivedRcptResponse := receivedRcptResponse s;
     sock := k; settled := settled s; connect_cb := connect_cb s |}.

Definition do_resolve (b : bool) (s : session) : session :=
  {| response := response s; isValid := isValid s;
     currentCommand := currentCommand s;
     receivedRcptResponse := receivedRcptResponse s;
     sock := sock s; settled := resolve b (settled s);
     connect_cb := connect_cb s |}.

Section Handlers.
Variable throws : nat -> bool.
Variable email : string.

(** Lines 36-45: a best-effort [QUIT], then the socket is destroyed. *)
Definition cleanup (s : session) : session :=
  let k := if writable (sock s)
           then fst (write throws (Some ("QUIT" +:+ CRLF)) (sock s))
           else sock s in
  with_sock (destroy k) s.

(** Lines 49-54. *)
Definition on_timeout (s : session) : session :=
  let s := cleanup s in
  do_resolve (1 <? currentCommand s) s.

(** Lines 65-79: the RCPT response is interpreted once. *)
Definition rcpt_verdict (code : option Z) (s : session) : session :=
  if (currentCommand s =? 2) && negb (receivedRcptResponse s) then
    let v :=
      if num_eq code 250 || num_eq code 251 || num_eq code 252 then true
      else if num_eq code 450 || num_eq code 451 || num_eq code 452 then true
      else if num_ge code 500 || num_eq code 550 || num_eq code 553 then false
      else isValid s in
    {| response := response s; isValid := v;
       currentCommand := currentCommand s;
       receivedRcptResponse := true;
       sock := sock s; settled := settled s; connect_cb := connect_cb s |}
  else s.

(** One iteration of the loop over lines (lines 60-100); the flag is
    [true] when the handler returned from inside the loop. *)
Definition on_line (line : string) (s : session) : session * bool :=
  let code := parseInt (substring0 3 line) in
  if num_falsy code then (s, false)
  else
    let s := rcpt_verdict code s in
    if (num_ge code 200 && num_lt code 300) || num_eq code 451
       || num_eq code 452 then
      if currentCommand s <? length (commands email) then
        match write throws (commands email !! currentCommand s) (sock s) with
        | (k, true) =>
            ({| response := response s; isValid := isValid s;
                currentCommand := S (currentCommand s);
                receivedRcptResponse := receivedRcptResponse s;
                sock := k; settled := settled s;
                connect_cb := connect_cb s |}, false)
        | (k, false) =>
            (do_resolve false (cleanup (with_sock k s)), true)
        end
      else (s, false)
    else if num_ge code 500 then (do_resolve false (cleanup s), true)
    else (s, false).

Fixpoint on_lines (lines : list string) (s : session) : session * bool :=
  match lines with
  | [] => (s, false)
  | line :: rest =>
      match on_line line s with
      | (s', true) => (s', true)
      | (s', false) => on_lines rest s'
      end
  end.

Definition set_response (r : string) (s : session) : session :=
  {| response := r; isValid := isValid s;
     currentCommand := currentCommand s;
     receivedRcptResponse := receivedRcptResponse s;
     sock := sock s; settled := settled s; connect_cb := connect_cb s |}.

(** Lines 56-103. *)
Definition on_data (data : string) (s : session) : session :=
  let s := set_response (response s +:+ data) s in
  if includes (response s) CRLF then
    let lines := split (response s) CRLF in
    match on_lines lines s with
    | (s', true) => s'
    | (s', false) => set_response (default "" (last lines)) s'
    end
  else s.

(** Lines 105-110. *)
Definition on_error (s : session) : session :=
  let s := cleanup s in
  do_resolve (0 <? currentCommand s) s.

(** Lines 112-116; the socket is gone when [close] is emitted. *)
Definition on_close (s : session) : session :=
  let s := with_sock (destroy (sock s)) s in
  do_resolve (isValid s || ((1 <? currentCommand s)
                            && negb (receivedRcptResponse s))) s.

(** Lines 118-121: the connect callback runs once; an exception thrown
    by its [write] escapes the callback and leaves the promise alone. *)
Definition on_connect (s : session) : session :=
  if connect_cb s then
    let s := {| response := response s; isValid := isValid s;
                currentCommand := currentCommand s;
                receivedRcptResponse := receivedRcptResponse s;
                sock := connected (sock s); settled := settled s;
                connect_cb := false |} in
    match write throws (commands email !! currentCommand s) (sock s) with
    | (k, true) =>
        {| response := response s; isValid := isValid s;
           currentCommand := S (currentCommand s);
           receivedRcptResponse := receivedRcptResponse s;
           sock := k; settled := settled s; connect_cb := connect_cb s |}
    | (k, false) => with_sock k s
    end
  else s.

(** The only timer of this mode is the socket's idle timeout, so
    [EvTimer] has no listener. *)
Definition step (s : session) (e : sock_event) : session :=
  match e with
  | EvConnect => on_connect s
  | EvData d => on_data d s
  | EvTimeout => on_timeout s
  | EvError => on_error s
  | EvClose => on_close s
  | EvTimer => s
  end.

Definition run (evs : list sock_event) : session := fold_left step evs init.

End Handlers.

(** The invariant of a session: while the promise is pending, what went
    out on the wire is exactly the first [currentCommand] commands. *)
Definition wire_ok (email : string) (s : session) : Prop :=
  currentCommand s <= 4 /\
  (settled s = None ->
   wire (sock s) = take (currentCommand s) (commands email)).

End Generic.

(** [verifyMailbox(mxServer, email)] against a socket script: the promise
    rejects when [socket.connect] throws inside the executor, and stays
    pending when the script ends before any handler resolved it. *)
Definition verifyMailbox (sc : script) (email : string) : promise bool :=
  if connect_throws sc then Rejected
  else match Generic.settled
               (Generic.run (write_throws sc) email (events sc)) with
       | Some b => Fulfilled b
       | None => Pending
       end.


(** ** Provider probe: [verifyProviderMailbox] (providers module,
    lines 30-115) *)

Module Provider.

(** The listeners the source attaches, named by their place. Node calls
    the listeners of an event in the order they were attached. *)
Inductive listener :=
| OnData          (* line 95: [handleResponse] *)
| OnErrorInner    (* lines 97-99: [resolve(isValid)] *)
| OnClose         (* lines 101-103: [resolve(isValid)] *)
| OnErrorOuter.   (* lines 106-108: [resolve(false)] *)

Record session := {
  response : string;
  isValid : bool;
  currentCommand : nat;
  sock : socket;
  settled : option bool;
  listeners : list listener;
  connect_cb : bool
}.

Definition commands (cfg : providerConfig) (email : string) : list string :=
  [ "HELO " +:+ helo (config cfg) +:+ CRLF;
    "MAIL FROM:<verify@" +:+ helo (config cfg) +:+ ">" +:+ CRLF;
    "RCPT TO:<" +:+ email +:+ ">" +:+ CRLF;
    "QUIT" +:+ CRLF ].

(** The executor body, lines 31-114: [socket.connect] only schedules its
    callback (line 92), then the outer error listener is attached (line
    106) and the timer armed (line 110). *)
Definition init : session :=
  {| response := ""; isValid := false; currentCommand := 0;
     sock := fresh; settled := None;
     listeners := [OnErrorOuter]; connect_cb := true |}.

Definition with_sock (k : socket) (s : session) : session :=
  {| response := response s; isValid := isValid s;
     currentCommand := currentCommand s; sock := k; settled := settled s;
     listeners := listeners s; connect_cb := connect_cb s |}.

Definition do_resolve (b : bool) (s : session) : session :=
  {| response := response s; isValid := isValid s;
     currentCommand := currentCommand s; sock := sock s;
     settled := resolve b (settled s);
     listeners := listeners s; connect_cb := connect_cb s |}.

Definition set_isValid (b : bool) (s : session) : session :=
  {| response := response s; isValid := b;
     currentCommand := currentCommand s; sock := sock s;
     settled := settled s;
     listeners := listeners s; connect_cb := connect_cb s |}.

Definition set_response (r : string) (s : session) : session :=
  {| response := r; isValid := isValid s;
     currentCommand := currentCommand s; sock := sock s;
     settled := settled s;
     listeners := listeners s; connect_cb := connect_cb s |}.

Section Handlers.
Variable throws : nat -> bool.
Variable cfg : providerConfig.
Variable email : string.

(** The [switch] of lines 50-76. *)
Definition success_code (code : option Z) : bool :=
  if String.eqb (provider cfg) "outlook.com" then
    num_eq code 250 || num_eq code 251
  else if String.eqb (provider cfg) "yahoo.com" then
    num_eq code 250 || num_eq code 235
  else if String.eqb (provider cfg) "icloud.com" then
    num_eq code 250 || num_eq code 220
  else num_ge code 200 && num_lt code 300.

(** [handleResponse], lines 45-90. An exception thrown by [write] on
    line 81 escapes the listener before the buffer is cleared. *)
Definition handleResponse (data : string) (s : session) : session :=
  let s := set_response (response s +:+ data) s in
  if includes (response s) CRLF then
    let code := parseInt (substring0 3 (response s)) in
    let s := if success_code code then set_isValid true s else s in
    if (num_ge code 200 && num_lt code 300) || num_eq code 451
       || num_eq code 452 then
      let s := {| response := response s; isValid := isValid s;
                  currentCommand := S (currentCommand s); sock := sock s;
                  settled := settled s; listeners := listeners s;
                  connect_cb := connect_cb s |} in
      if currentCommand s <? length (commands cfg email) then
        match write throws (commands cfg email !! currentCommand s)
                    (sock s) with
        | (k, true) => set_response "" (with_sock k s)
        | (k, false) => with_sock k s
        end
      else set_response "" s
    else if num_ge code 500 || num_eq code 450 then
      set_response "" (do_resolve false (with_sock (destroy (sock s)) s))
    else set_response "" s
  else s.

(** The connect callback, lines 92-104. *)
Definition on_connect (s : session) : session :=
  if connect_cb s then
    let s := {| response := response s; isValid := isValid s;
                currentCommand := currentCommand s;
                sock := connected (sock s); settled := settled s;
                listeners := listeners s; connect_cb := false |} in
    match write throws (commands cfg email !! currentCommand s) (sock s) with
    | (k, true) =>
        {| response := response s; isValid := isValid s;
           currentCommand := currentCommand s; sock := k;
           settled := settled s;
           listeners := listeners s ++ [OnData; OnErrorInner; OnClose];
           connect_cb := connect_cb s |}
    | (k, false) => with_sock k s
    end
  else s.

(** Lines 110-113. *)
Definition on_timer (s : session) : session :=
  do_resolve (isValid s) (with_sock (destroy (sock s)) s).

Definition listens (e : sock_event) (l : listener) : bool :=
  match e, l with
  | EvData _, OnData => true
  | EvError, OnErrorInner => true
  | EvError, OnErrorOuter => true
  | EvClose, OnClose => true
  | _, _ => false
  end.

Definition call (e : sock_event) (l : listener) (s : session) : session :=
  match l, e with
  | OnData, EvData d => handleResponse d s
  | OnErrorInner, _ => do_resolve (isValid s) s
  | OnClose, _ => do_resolve (isValid s) s
  | OnErrorOuter, _ => do_resolve false s
  | OnData, _ => s
  end.

(** [emit]: the listeners attached when the event is emitted are called
    in attachment order. *)
Definition emit (e : sock_event) (s : session) : session :=
  fold_left (fun acc l => call e l acc)
            (filter (fun l => listens e l = true) (listeners s)) s.

(** This mode sets no socket timeout, so [EvTimeout] has no listener;
    the socket is gone when [close] or [error] is emitted. *)
Definition step (s : session) (e : sock_event) : session :=
  match e with
  | EvConnect => on_connect s
  | EvTimer => on_timer s
  | EvTimeout => s
  | EvData _ => emit e s
  | EvError | EvClose => emit e (with_sock (destroy (sock s)) s)
  end.

Definition run (evs : list sock_event) : session := fold_left step evs init.

End Handlers.

End Provider.

Definition verifyProviderMailbox (sc : script) (email : string)
  (cfg : providerConfig) : promise bool :=
  if connect_throws sc then Rejected
  else match Provider.settled
               (Provider.run (write_throws sc) cfg email (events sc)) with
       | Some b => Fulfilled b
       | None => Pending
       end.


(** ** The network as seen by [validateEmail] *)

Record MxRecord := {
  exchange : string;
  priority : nat
}.

(** Resolver answers ([None]: the lookup rejects) and, for the [n]-th
    connection attempt of a validation, the script of the socket opened to
    an exchanger for a candidate address. *)
Record World := {
  lookup_ok : string -> bool;
  resolveMx : string -> option (list MxRecord);
  resolveTxt : string -> option (list (list string));
  socket_of : nat -> string -> string -> script
}.

(** Calls that reach the network, in the order they are made. *)
Inductive NetOp :=
| NLookup (domain : string)
| NResolveMx (domain : string)
| NResolveTxt (domain : string)
| NConnect (port : nat) (host : string).

(** ** [validateEmail] (email.js, lines 125-265) *)

(** [result.checks], fields in the order the object literal lists them. *)
Record Checks := {
  mx : bool;
  dns : bool;
  spf : bool;
  mailbox : bool;
  smtp : bool
}.

Record VerificationResult := {
  email : value;
  valid : bool;
  checks : Checks;
  reason : string
}.

(** [Object.values(checks)] *)
Definition checks_values (c : Checks) : list bool :=
  [mx c; dns c; spf c; mailbox c; smtp c].

Definition no_checks : Checks :=
  {| mx := false; dns := false; spf := false; mailbox := false;
     smtp := false |}.

Definition map_checks (f : Checks -> Checks) (r : VerificationResult)
  : VerificationResult :=
  {| email := email r; valid := valid r; checks := f (checks r);
     reason := reason r |}.

Definition set_mx (b : bool) : VerificationResult -> VerificationResult :=
  map_checks (fun c => {| mx := b; dns := dns c; spf := spf c;
                          mailbox := mailbox c; smtp := smtp c |}).
Definition set_dns (b : bool) : VerificationResult -> VerificationResult :=
  map_checks (fun c => {| mx := mx c; dns := b; spf := spf c;
                          mailbox := mailbox c; smtp := smtp c |}).
Definition set_spf (b : bool) : VerificationResult -> VerificationResult :=
  map_checks (fun c => {| mx := mx c; dns := dns c; spf := b;
                          mailbox := mailbox c; smtp := smtp c |}).
Definition set_mailbox (b : bool) : VerificationResult -> VerificationResult :=
  map_checks (fun c => {| mx := mx c; dns := dns c; spf := spf c;
                          mailbox := b; smtp := smtp c |}).
Definition set_smtp (b : bool) : VerificationResult -> VerificationResult :=
  map_checks (fun c => {| mx := mx c; dns := dns c; spf := spf c;
                          mailbox := mailbox c; smtp := b |}).
Definition set_valid (b : bool) (r : VerificationResult) : VerificationResult :=
  {| email := email r; valid := b; checks := checks r; reason := reason r |}.
Definition set_reason (s : string) (r : VerificationResult)
  : VerificationResult :=
  {| email := email r; valid := valid r; checks := checks r; reason := s |}.

(** A stage of the function either executes [return result] or falls
    through to the next stage with the mutated [result]. *)
Inductive flow :=
| Return (r : VerificationResult)
| Next (r : VerificationResult).

Section Composer.
Variable w : World.

(** Lines 156-163. *)
Definition dnsCheck (domain : string) (result : VerificationResult) : flow :=
  if lookup_ok w domain then Next (set_dns true result)
  else Return (set_reason "Domain does not exist" result).

(** Lines 165-177; the records are kept for the probe. *)
Definition mxCheck (domain : string) (result : VerificationResult)
  : flow * list MxRecord :=
  match resolveMx w domain with
  | Some mxRecords =>
      let result := set_mx (0 <? length mxRecords) result in
      if negb (mx (checks result))
      then (Return (set_reason "No mail server found for domain" result),
            mxRecords)
      else (Next result, mxRecords)
  | None => (Return (set_reason "Failed to verify mail server" result), [])
  end.

(** Lines 179-197. *)
Definition spfCheck (domain : string) (result : VerificationResult) : flow :=
  match resolveTxt w domain with
  | Some txtRecords =>
      let result :=
        set_spf (existsb (fun records =>
                   existsb (fun record => includes record "v=spf1") records)
                   txtRecords) result in
      if negb (spf (checks result))
         && bool_decide (is_Some (getProviderConfig domain))
      then Return (set_reason "Domain lacks SPF record" result)
      else Next result
  | None =>
      if bool_decide (is_Some (getProviderConfig domain))
      then Return (set_reason "Failed to verify SPF record" result)
      else Next (set_spf true result)
  end.

(** The two [for (const mx of mxRecords)] loops of lines 207-218 and
    221-232 differ only in the probe they await, here [verify]. The
    [option] is [None] when an awaited probe never settles. *)
Fixpoint probeLoop (verify : nat -> string -> promise bool) (attempt : nat)
  (mxRecords : list MxRecord) (mailboxExists : bool)
  (result : VerificationResult)
  : list NetOp * option (bool * VerificationResult) :=
  match mxRecords with
  | [] => ([], Some (mailboxExists, result))
  | m :: rest =>
      let op := NConnect 25 (exchange m) in
      match verify attempt (exchange m) with
      | Fulfilled true =>
          ([op], Some (true, set_mailbox true (set_smtp true result)))
      | Fulfilled false =>
          let '(ops, out) := probeLoop verify (S attempt) rest false result in
          (op :: ops, out)
      | Rejected =>
          let '(ops, out) :=
            probeLoop verify (S attempt) rest mailboxExists result in
          (op :: ops, out)
      | Pending => ([op], None)
      end
  end.

(** Lines 199-248. Nothing inside this [try] throws past the inner
    [catch] clauses, so the clause of line 245 is never entered. *)
Definition smtpCheck (domain address : string) (mxRecords : list MxRecord)
  (result : VerificationResult) : list NetOp * option flow :=
  let result := set_smtp false result in
  let providerConfig := getProviderConfig domain in
  let verify :=
    match providerConfig with
    | Some cfg => fun n host =>
        verifyProviderMailbox (socket_of w n host address) address cfg
    | None => fun n host => verifyMailbox (socket_of w n host address) address
    end in
  match probeLoop verify 0 mxRecords false result with
  | (ops, Some (mailboxExists, result)) =>
      if negb mailboxExists then
        let result := set_reason "Mailbox verification failed" result in
        let result :=
          if negb (bool_decide (is_Some providerConfig))
             && dns (checks result) && mx (checks result)
          then set_reason "Email appears valid but could not fully verify"
                 (set_mailbox true (set_smtp true result))
          else result in
        (ops, Some (Return result))
      else (ops, Some (Next result))
  | (ops, None) => (ops, None)
  end.

(** Lines 250-259. *)
Definition finalize (result : VerificationResult) : VerificationResult :=
  let result := set_valid (forallb id (checks_values (checks result))) result in
  if valid result then set_reason "Email verified successfully" result
  else if String.eqb (reason result) ""
       then set_reason "Failed to verify email" result
       else result.

(** The whole function. The outer [catch] of line 260 is never entered
    either: every rejection is handled by the stage that awaits it. *)
Definition validateEmail (email : value)
  : list NetOp * promise VerificationResult :=
  if negb (validateEmailFormat email) then
    ([], Fulfilled {| email := email; valid := false; checks := no_checks;
                      reason := "Invalid email format" |})
  else
    let address := match email with VStr s => s | _ => "" end in
    let domain := domain_of address in
    let result := {| email := email; valid := false; checks := no_checks;
                     reason := "" |} in
    match dnsCheck domain result with
    | Return r => ([NLookup domain], Fulfilled r)
    | Next result =>
        match mxCheck domain result with
        | (Return r, _) => ([NLookup domain; NResolveMx domain], Fulfilled r)
        | (Next result, mxRecords) =>
            let ops := [NLookup domain; NResolveMx domain;
                        NResolveTxt domain] in
            match spfCheck domain result with
            | Return r => (ops, Fulfilled r)
            | Next result =>
                match smtpCheck domain address mxRecords result with
                | (ops', Some (Return r)) => (ops ++ ops', Fulfilled r)
                | (ops', Some (Next r)) =>
                    (ops ++ ops', Fulfilled (finalize r))
                | (ops', None) => (ops ++ ops', Pending)
                end
            end
        end
    end.

End Composer.

(** The runtime's guarantee that no socket lives forever: a generic
    session sees its idle timeout, an error or its end; a provider session
    sees its timer or an error. *)
Definition generic_over (sc : script) : Prop :=
  connect_throws sc = true \/
  exists e, e ∈ events sc /\ (e = EvTimeout \/ e = EvError \/ e = EvClose).

Definition provider_over (sc : script) : Prop :=
  connect_throws sc = true \/
  exists e, e ∈ events sc /\ (e = EvTimer \/ e = EvError).

Definition sockets_end (w : World) : Prop :=
  forall n host address,
    match getProviderConfig (domain_of address) with
    | Some _ => provider_over (socket_of w n host address)
    | None => generic_over (socket_of w n host address)
    end.

(** ** Bulk route (server/index.js, lines 75-162) *)

(** A parsed CSV row, and the row sent back. *)
Abbreviation record := (gmap string value).

(** [chunk.key]: a missing property reads [undefined]. *)
Definition get (chunk : record) (key : string) : value :=
  default VUndefined (chunk !! key).

(** [a || b] *)
Definition js_or (a b : value) : value := if truthy a then a else b.

(** [chunk.email || chunk.Email || chunk.EMAIL], line 90. *)
Definition email_field (chunk : record) : value :=
  js_or (js_or (get chunk "email") (get chunk "Email")) (get chunk "EMAIL").

(** The properties that [processChunk] adds to a validated row. *)
Definition validation_keys : list string :=
  ["validation_result"; "validation_reason"; "mx_check"; "dns_check";
   "spf_check"; "mailbox_check"; "smtp_check"].

(** [processChunk], lines 89-105. *)
Definition processChunk (w : World) (chunk : record)
  : list NetOp * promise record :=
  let email := email_field chunk in
  if truthy email then
    match validateEmail w email with
    | (ops, Fulfilled validationResult) =>
        (ops,
         Fulfilled
           (<["smtp_check" := VBool (smtp (checks validationResult))]>
            (<["mailbox_check" := VBool (mailbox (checks validationResult))]>
            (<["spf_check" := VBool (spf (checks validationResult))]>
            (<["dns_check" := VBool (dns (checks validationResult))]>
            (<["mx_check" := VBool (mx (checks validationResult))]>
            (<["validation_reason" := VStr (reason validationResult)]>
            (<["validation_result" :=
                 VStr (if valid validationResult then "Valid" else "Invalid")]>
             chunk))))))))
    | (ops, Rejected) => (ops, Rejected)
    | (ops, Pending) => (ops, Pending)
    end
  else ([], Fulfilled chunk).

(** The row [chunk] is validated with the value [v]: the calls that reach
    the network are those of [validateEmail w v]; when that validation
    settles with [r], the row returned carries the seven validation
    properties read from [r] and every other property of [chunk]; while it
    does not settle, neither does the row; and it does not reject. *)
Definition validated_with (w : World) (chunk : record) (v : value) : Prop :=
  fst (processChunk w chunk) = fst (validateEmail w v) /\
  match snd (validateEmail w v) with
  | Fulfilled r =>
      exists out,
        snd (processChunk w chunk) = Fulfilled out /\
        out !! "validation_result"
        = Some (VStr (if valid r then "Valid" else "Invalid")) /\
        out !! "validation_reason" = Some (VStr (reason r)) /\
        out !! "mx_check" = Some (VBool (mx (checks r))) /\
        out !! "dns_check" = Some (VBool (dns (checks r))) /\
        out !! "spf_check" = Some (VBool (spf (checks r))) /\
        out !! "mailbox_check" = Some (VBool (mailbox (checks r))) /\
        out !! "smtp_check" = Some (VBool (smtp (checks r))) /\
        forall key, key ∉ validation_keys -> out !! key = chunk !! key
  | Pending => snd (processChunk w chunk) = Pending
  | Rejected => False
  end.

(** ** Numbers of the runtime

    JavaScript numbers are IEEE 754 binary64 values. Their arithmetic is
    that of the Standard Library's specification of floating-point
    operations, [SpecFloat], at precision 53 and maximal exponent 1024:
    every operation rounds its exact result to the nearest value, ties to
    even. *)

Module Double.

Definition prec : Z := 53.
Definition emax : Z := 1024.

(** The number that a non-negative integer converts to. Array lengths and
    indices are below [2^32] and convert exactly. *)
Definition of_nat (k : nat) : spec_float :=
  binary_normalize prec emax (Z.of_nat k) 0 false.

(** [x / y] and [x * y] *)
Definition div : spec_float -> spec_float -> spec_float := SFdiv prec emax.
Definition mul : spec_float -> spec_float -> spec_float := SFmul prec emax.

(** [Math.min(x, y)]: [NaN] if either argument is, and [-0] is below
    [+0]. *)
Definition min (x y : spec_float) : spec_float :=
  match SFcompare x y with
  | None => S754_nan
  | Some Lt => x
  | Some Gt => y
  | Some Eq => match x with S754_zero true => x | _ => y end
  end.

(** [x < y] and [x <= y] *)
Definition ltb : spec_float -> spec_float -> bool := SFltb.
Definition leb : spec_float -> spec_float -> bool := SFleb.

(** A positive normal number: 53 significant digits. *)
Definition normal (m : positive) : Prop := (2 ^ 52 <= Zpos m < 2 ^ 53)%Z.

(** The value of [m * 2^e] in units of [2^-E]. *)
Definition scaled (E : Z) (m : positive) (e : Z) : Z :=
  (Zpos m * 2 ^ (e + E))%Z.

(** The values, in a unit that makes them integers, of the numbers of at
    most 53 significant digits. *)
Definition representable (T : Z) : Prop :=
  exists k j, (0 <= j /\ 0 <= k < 2 ^ 53 /\ T = k * 2 ^ j)%Z.

(** [m * 2^e] is the quotient [N / D], taken in units of [2^-E], rounded
    to 53 digits, downwards or upwards, and it is the quotient itself when
    that has 53 digits. *)
Definition faithful (E N D : Z) (m : positive) (e : Z) : Prop :=
  exists f g,
    (2 ^ 52 <= f < 2 ^ 53 /\ 0 <= g /\
     f * 2 ^ g * D <= N < (f + 1) * 2 ^ g * D /\
     (scaled E m e = f * 2 ^ g \/ scaled E m e = (f + 1) * 2 ^ g) /\
     (N = f * 2 ^ g * D -> scaled E m e = f * 2 ^ g))%Z.

End Double.

(** The lines written to the response; [JSON.stringify] writes a number
    so that reading it back gives the same binary64 value. *)
Inductive event :=
| Progress (progress : spec_float) (partialResults : list record)
| Complete (results : list record)
| Failure (error : string).

Definition chunkSize : nat := 10.

(** [records.slice(i, j)] for [i <= j] *)
Definition slice {A} (i j : nat) (l : list A) : list A :=
  take (j - i) (drop i l).

(** [Promise.all]: rejects if some member rejects, otherwise waits for
    all. *)
Fixpoint promise_all {A} (ps : list (promise A)) : promise (list A) :=
  match ps with
  | [] => Fulfilled []
  | p :: rest =>
      match p, promise_all rest with
      | Rejected, _ => Rejected
      | _, Rejected => Rejected
      | Pending, _ => Pending
      | _, Pending => Pending
      | Fulfilled a, Fulfilled l => Fulfilled (a :: l)
      end
  end.

(** [Math.min(((i + chunkSize) / records.length) * 100, 100)] *)
Definition progress_at (i n : nat) : spec_float :=
  Double.min
    (Double.mul (Double.div (Double.of_nat (i + chunkSize)) (Double.of_nat n))
                (Double.of_nat 100))
    (Double.of_nat 100).

(** The handler of the parser's [end] event, lines 119-147, for the rows
    collected in [records]: the written lines in order, and whether
    [res.end()] was reached. The validation of the row at position [k] runs
    against the network [ws k]. *)
Equations? bulkLoop (ws : nat -> World) (records : list record) (i : nat)
  (results : list record) : list event * bool
  by wf (length records - i) lt :=
  bulkLoop ws records i results with lt_dec i (length records) := {
    | right _ => ([Complete results], true)
    | left _ with promise_all
                    (imap (fun j chunk => snd (processChunk (ws (i + j)) chunk))
                          (slice i (i + chunkSize) records)) := {
        | Fulfilled processedChunk =>
            let '(out, ended) :=
              bulkLoop ws records (i + chunkSize) (results ++ processedChunk) in
            (Progress (progress_at i (length records)) processedChunk :: out,
             ended)
        | Rejected => ([Failure "Failed to process records"], true)
        | Pending => ([], false) } }.
Proof. unfold chunkSize. lia. Qed.

Definition bulk (ws : nat -> World) (records : list record)
  : list event * bool :=
  bulkLoop ws records 0 [].

(** The rows that the validations of [records] settle into, in input
    order; a row whose validation does not settle is kept as it is. *)
Definition processed (ws : nat -> World) (records : list record)
  : list record :=
  imap (fun k chunk =>
          match snd (processChunk (ws k) chunk) with
          | Fulfilled out => out
          | _ => chunk
          end) records.

(** [ceil(n / chunkSize)], the number of batches of [n] rows. *)
Definition batches (n : nat) : nat := (n + (chunkSize - 1)) / chunkSize.


(** The progress line of batch [b] when the processed rows are [outs]. *)
Definition progress_line (outs : list record) (b : nat) : event :=
  Progress (progress_at (b * chunkSize) (length outs))
           (slice (b * chunkSize) (b * chunkSize + chunkSize) outs).


(** ** The shape of accepted addresses, read off the pattern *)

Module Shape.

Definition opt_is (p : ascii -> bool) (o : option ascii) : bool :=
  match o with Some c => p c | None => false end.

(** Between one and 63 characters of the class [inner], the first and the
    last one alphanumeric. *)
Definition bounded (inner : ascii -> bool) (l : list ascii) : bool :=
  (1 <=? length l) && (length l <=? 63) && forallb inner l
  && opt_is is_alnum (head l) && opt_is is_alnum (last l).

Definition local_ok : list ascii -> bool := bounded is_local_char.
Definition label_ok : list ascii -> bool := bounded is_label_char.

(** Two or more letters. *)
Definition group_ok (g : list ascii) : bool :=
  (2 <=? length g) && forallb is_alpha g.

(** [.g1.g2...] *)
Definition dot_groups (groups : list (list ascii)) : list ascii :=
  concat (map (cons "."%char) groups).

Definition accepted (s : list ascii) : Prop :=
  exists loc lab groups,
    s = loc ++ "@"%char :: lab ++ dot_groups groups /\
    local_ok loc = true /\ label_ok lab = true /\
    groups <> [] /\ forallb group_ok groups = true.

End Shape.

(** ** Concrete networks used by the examples *)

Module Examples.

Definition plain (evs : list sock_event) : script :=
  {| connect_throws := false; write_throws := fun _ => false; events := evs |}.

Definition line (s : string) : sock_event := EvData (s +:+ CRLF).

Definition one_mx : option (list MxRecord) :=
  Some [ {| exchange := "mx.example.org"; priority := 10 |} ].

(** An unregistered domain that resolves and has one exchanger; the TXT
    lookup fails and the exchanger refuses the greeting. *)
Definition w_refused : World :=
  {| lookup_ok := fun _ => true;
     resolveMx := fun _ => one_mx;
     resolveTxt := fun _ => None;
     socket_of := fun _ _ _ => plain [EvConnect; line "554 no service"] |}.

(** A complete dialogue accepted by the exchanger. *)
Definition accepted_dialogue : list sock_event :=
  [EvConnect; line "220 mx.example.org ESMTP"; line "250 hello";
   line "250 sender ok"; line "250 recipient ok"; line "221 bye"; EvClose].

(** The same domain with TXT records that carry no SPF policy, and with
    one that does. *)
Definition w_no_spf : World :=
  {| lookup_ok := fun _ => true;
     resolveMx := fun _ => one_mx;
     resolveTxt := fun _ => Some [["site-verification=abc"]];
     socket_of := fun _ _ _ => plain accepted_dialogue |}.

Definition w_spf : World :=
  {| lookup_ok := fun _ => true;
     resolveMx := fun _ => one_mx;
     resolveTxt := fun _ => Some [["site-verification=abc"]; ["v=spf1 -all"]];
     socket_of := fun _ _ _ => plain accepted_dialogue |}.

(** The exchanger greets, accepts HELO, then falls silent until the idle
    timeout. *)
Definition silent_after_two : list sock_event :=
  [EvConnect; line "220 mx.example.org ESMTP"].

Definition w_silent : World :=
  {| lookup_ok := fun _ => true;
     resolveMx := fun _ => one_mx;
     resolveTxt := fun _ => None;
     socket_of := fun _ _ _ => plain (silent_after_two ++ [EvTimeout]) |}.

Definition icloud : providerConfig :=
  {| config := {| domains := ["icloud.com"; "me.com"; "mac.com"];
                  helo := "icloud-com.mail.protection.outlook.com";
                  timeout := 10000%Z |};
     provider := "icloud.com" |}.

(** The greeting [220] is one of the success codes of this dialect. *)
Definition greeted : list sock_event :=
  [EvConnect; line "220 mx01.mail.icloud.com ESMTP"].

(** A bulk row with an address, and the row [processChunk] makes of it
    on the network [w_spf]. *)
Definition row_in : record :=
  {[ "Email" := VStr "user@example.org"; "name" := VStr "Ann" ]}.

Definition row_out : record :=
  match snd (processChunk w_spf row_in) with
  | Fulfilled out => out
  | _ => row_in
  end.

End Examples.

(** ** Notions used to state what [validateEmail] does *)

(** The probe that the loops of lines 207-232 await for the [n]-th
    exchanger of [address]: the provider dialect when the domain is
    registered, the generic one otherwise. *)
Definition probe (w : World) (address : string) (n : nat) (host : string)
  : promise bool :=
  match getProviderConfig (domain_of address) with
  | Some cfg => verifyProviderMailbox (socket_of w n host address) address cfg
  | None => verifyMailbox (socket_of w n host address) address
  end.

(** The value of [checks.spf] after lines 179-197 when they do not
    return: an SPF record was found, or the lookup failed for an
    unregistered domain. *)
Definition spf_passes (w : World) (domain : string) : bool :=
  match resolveTxt w domain with
  | Some txtRecords =>
      existsb (fun records =>
                 existsb (fun record => includes record "v=spf1") records)
              txtRecords
  | None => negb (bool_decide (is_Some (getProviderConfig domain)))
  end.

(** Exchanger [k] is the first whose probe answers [true]: the earlier
    ones answered [false] or rejected. *)
Definition first_accepting (verify : nat -> string -> promise bool)
  (mxRecords : list MxRecord) (k : nat) : Prop :=
  (exists m, mxRecords !! k = Some m /\
             verify k (exchange m) = Fulfilled true) /\
  forall j m, j < k -> mxRecords !! j = Some m ->
              verify j (exchange m) = Fulfilled false \/
              verify j (exchange m) = Rejected.

(** No exchanger's probe answers [true] and none is left pending. *)
Definition none_accepting (verify : nat -> string -> promise bool)
  (mxRecords : list MxRecord) : Prop :=
  forall j m, mxRecords !! j = Some m ->
              verify j (exchange m) = Fulfilled false \/
              verify j (exchange m) = Rejected.

(** The string that [validateEmail] splits: its argument once the format
    check has passed. *)
Definition address_of (email : value) : string :=
  match email with VStr s => s | _ => "" end.

Definition verdict (email : value) (valid mx dns spf mailbox smtp : bool)
  (reason : string) : VerificationResult :=
  {| email := email; valid := valid;
     checks := {| mx := mx; dns := dns; spf := spf; mailbox := mailbox;
                  smtp := smtp |};
     reason := reason |}.

(** The return statements of [validateEmail], each with the conditions
    under which it is reached and the result it returns. *)
Inductive outcome (w : World) (email : value) : VerificationResult -> Prop :=
| out_format :
    validateEmailFormat email = false ->
    outcome w email
      (verdict email false false false false false false
               "Invalid email format")
| out_dns :
    validateEmailFormat email = true ->
    lookup_ok w (domain_of (address_of email)) = false ->
    outcome w email
      (verdict email false false false false false false
               "Domain does not exist")
| out_mx_error :
    validateEmailFormat email = true ->
    lookup_ok w (domain_of (address_of email)) = true ->
    resolveMx w (domain_of (address_of email)) = None ->
    outcome w email
      (verdict email false false true false false false
               "Failed to verify mail server")
| out_mx_empty :
    validateEmailFormat email = true ->
    lookup_ok w (domain_of (address_of email)) = true ->
    resolveMx w (domain_of (address_of email)) = Some [] ->
    outcome w email
      (verdict email false false true false false false
               "No mail server found for domain")
| out_spf_error mxRecords :
    validateEmailFormat email = true ->
    lookup_ok w (domain_of (address_of email)) = true ->
    resolveMx w (domain_of (address_of email)) = Some mxRecords ->
    mxRecords <> [] ->
    is_Some (getProviderConfig (domain_of (address_of email))) ->
    resolveTxt w (domain_of (address_of email)) = None ->
    outcome w email
      (verdict email false true true false false false
               "Failed to verify SPF record")
| out_spf_missing mxRecords txtRecords :
    validateEmailFormat email = true ->
    lookup_ok w (domain_of (address_of email)) = true ->
    resolveMx w (domain_of (address_of email)) = Some mxRecords ->
    mxRecords <> [] ->
    is_Some (getProviderConfig (domain_of (address_of email))) ->
    resolveTxt w (domain_of (address_of email)) = Some txtRecords ->
    spf_passes w (domain_of (address_of email)) = false ->
    outcome w email
      (verdict email false true true false false false
               "Domain lacks SPF record")
| out_mailbox_failed mxRecords :
    validateEmailFormat email = true ->
    lookup_ok w (domain_of (address_of email)) = true ->
    resolveMx w (domain_of (address_of email)) = Some mxRecords ->
    mxRecords <> [] ->
    is_Some (getProviderConfig (domain_of (address_of email))) ->
    spf_passes w (domain_of (address_of email)) = true ->
    none_accepting (probe w (address_of email)) mxRecords ->
    outcome w email
      (verdict email false true true true false false
               "Mailbox verification failed")
| out_fallback mxRecords :
    validateEmailFormat email = true ->
    lookup_ok w (domain_of (address_of email)) = true ->
    resolveMx w (domain_of (address_of email)) = Some mxRecords ->
    mxRecords <> [] ->
    getProviderConfig (domain_of (address_of email)) = None ->
    none_accepting (probe w (address_of email)) mxRecords ->
    outcome w email
      (verdict email false true true
               (spf_passes w (domain_of (address_of email))) true true
               "Email appears valid but could not fully verify")
| out_accepted mxRecords k :
    validateEmailFormat email = true ->
    lookup_ok w (domain_of (address_of email)) = true ->
    resolveMx w (domain_of (address_of email)) = Some mxRecords ->
    (getProviderConfig (domain_of (address_of email)) = None \/
     spf_passes w (domain_of (address_of email)) = true) ->
    first_accepting (probe w (address_of email)) mxRecords k ->
    outcome w email
      (verdict email (spf_passes w (domain_of (address_of email)))
               true true (spf_passes w (domain_of (address_of email)))
               true true
               (if spf_passes w (domain_of (address_of email))
                then "Email verified successfully"
                else "Failed to verify email")).

(** The calls that precede the probes. *)
Definition gate_ops (domain : string) : list NetOp :=
  [NLookup domain; NResolveMx domain; NResolveTxt domain].

Definition connect_op (m : MxRecord) : NetOp := NConnect 25 (exchange m).

(** ** Single-address route (server/index.js, lines 53-73) *)

Inductive http_body :=
| BodyResult (result : VerificationResult)
| BodyError (valid : bool) (reason : string).

Record http_response := {
  status : nat;
  body : http_body
}.

(** [router.post('/validate')] on a request whose JSON body is the object
    [reqBody]; [res.json] without [res.status] answers 200. *)
Definition validateRoute (w : World) (reqBody : record)
  : list NetOp * promise http_response :=
  let email := get reqBody "email" in
  if negb (truthy email) then
    ([], Fulfilled {| status := 400;
                      body := BodyError false "Email is required" |})
  else
    match validateEmail w email with
    | (ops, Fulfilled result) =>
        (ops, Fulfilled {| status := 200; body := BodyResult result |})
    | (ops, Rejected) =>
        (ops, Fulfilled {| status := 500;
                           body := BodyError false "Server error occurred" |})
    | (ops, Pending) => (ops, Pending)
    end.

(** ** The form that calls both routes (components/ValidationForm.tsx) *)

Module Client.

(** [transformedResult], lines 35-44: the row shown for a single
    address. *)
Definition transformedResult (result : VerificationResult) : record :=
  <["smtp_check" := VBool (smtp (checks result))]>
  (<["mailbox_check" := VBool (mailbox (checks result))]>
  (<["spf_check" := VBool (spf (checks result))]>
  (<["dns_check" := VBool (dns (checks result))]>
  (<["mx_check" := VBool (mx (checks result))]>
  (<["validation_reason" := VStr (reason result)]>
  (<["validation_result" :=
       VStr (if valid result then "Valid" else "Invalid")]>
  (<["email" := email result]> ∅))))))).

(** What [JSON.parse(line)] makes of a line of the bulk response: it
    throws, or yields an object of one of the three types, or something
    else. *)
Inductive message :=
| Unparsable
| ProgressMsg (progress : spec_float) (partialResults : option (list record))
| CompleteMsg (results : list record)
| ErrorMsg (error : string)
| OtherMsg.

(** The state that the form shows, and the local accumulator of line
    79. *)
Record view := {
  progress : spec_float;
  results : list record;
  error : option string
}.

Record reader := {
  accumulatedResults : list record;
  shown : view
}.

(** Lines 56-59 and 79. *)
Definition start : reader :=
  {| accumulatedResults := [];
     shown := {| progress := Double.of_nat 0; results := [];
                 error := None |} |}.

(** The body of the loop over lines, lines 89-106: the [throw] of line
    102 is caught by the [catch] of line 104, which only logs. *)
Definition on_message (m : message) (st : reader) : reader :=
  match m with
  | ProgressMsg p partial =>
      match partial with
      | Some rows =>
          let acc := accumulatedResults st ++ rows in
          {| accumulatedResults := acc;
             shown := {| progress := p; results := acc;
                         error := error (shown st) |} |}
      | None =>
          {| accumulatedResults := accumulatedResults st;
             shown := {| progress := p; results := results (shown st);
                         error := error (shown st) |} |}
      end
  | CompleteMsg rows =>
      {| accumulatedResults := accumulatedResults st;
         shown := {| progress := Double.of_nat 100; results := rows;
                     error := error (shown st) |} |}
  | ErrorMsg _ | Unparsable | OtherMsg => st
  end.

(** The reading loop of lines 81-108 over the chunks the stream delivers,
    each already cut into its parsed lines. *)
Definition read_all (chunks : list (list message)) : reader :=
  fold_left (fun st lines => fold_left (fun st m => on_message m st) lines st)
            chunks start.

(** The message a line written by the bulk route parses to. *)
Definition parsed (e : event) : message :=
  match e with
  | Progress p rows => ProgressMsg p (Some rows)
  | Complete rows => CompleteMsg rows
  | Failure msg => ErrorMsg msg
  end.

End Client.

(** ** More concrete networks *)

Module MoreExamples.

(** The network of [Examples.w_spf], except that the exchanger accepts
    the connection and then neither answers nor closes, and no timeout
    is delivered. *)
Definition w_hang : World :=
  {| lookup_ok := fun _ => true;
     resolveMx := fun _ => Examples.one_mx;
     resolveTxt := fun _ => Some [["v=spf1 -all"]];
     socket_of := fun _ _ _ => Examples.plain [EvConnect] |}.

(** Twelve rows, the last of which meets the hanging exchanger. *)
Definition ws_stall (k : nat) : World :=
  if k =? 11 then w_hang else Examples.w_spf.

(** An address whose domain has a middle group of 64 letters. *)
Definition long_group : string := string_of_list_ascii (repeat "x"%char 64).

Definition long_group_address : string :=
  "a@b." +:+ long_group +:+ ".com".

(** A row with an address under [email] and another value under
    [EMAIL]. *)
Definition row_two_keys : record :=
  {[ "email" := VStr "user@example.org"; "EMAIL" := VStr "bad" ]}.

End MoreExamples.

(* ================================================================== *)
(** * Properties *)

(** ** The matcher decides the language of the pattern *)

Module RegexFacts.

Lemma Matches_seq r1 r2 s :
  Matches (RSeq r1 r2) s <->
  exists s1 s2, s = s1 ++ s2 /\ Matches r1 s1 /\ Matches r2 s2.
Proof.
  split.
  - inversion 1; subst; eauto.
  - intros (s1 & s2 & -> & H1 & H2). by constructor.
Qed.

Lemma Matches_alt r1 r2 s :
  Matches (RAlt r1 r2) s <-> Matches r1 s \/ Matches r2 s.
Proof.
  split.
  - inversion 1; subst; auto.
  - intros [H | H]; [by apply MAltL | by apply MAltR].
Qed.

Lemma Matches_eps s : Matches REps s <-> s = [].
Proof. split; [by inversion 1 | intros ->; constructor]. Qed.

Lemma Matches_none s : ~ Matches RNone s.
Proof. inversion 1. Qed.

Lemma Matches_class p s :
  Matches (RClass p) s <-> exists c, s = [c] /\ p c = true.
Proof.
  split.
  - inversion 1; subst; eauto.
  - intros (c & -> & H). by constructor.
Qed.

Lemma Matches_opt r s : Matches (ROpt r) s <-> Matches r s \/ s = [].
Proof. unfold ROpt. by rewrite Matches_alt, Matches_eps. Qed.

Lemma nullable_Matches r : nullable r = true <-> Matches r [].
Proof.
  induction r as [| |p|r1 IH1 r2 IH2|r1 IH1 r2 IH2|r IH]; simpl.
  - split; [done | inversion 1].
  - split; [constructor | done].
  - split; [done | inversion 1].
  - rewrite andb_true_iff, IH1, IH2, Matches_seq. split.
    + intros [H1 H2]. by exists [], [].
    + intros (s1 & s2 & Hs & H1 & H2).
      symmetry in Hs. apply app_eq_nil in Hs as [-> ->]. done.
  - by rewrite orb_true_iff, IH1, IH2, Matches_alt.
  - split; [constructor | done].
Qed.

Lemma Matches_mkSeq r1 r2 s :
  Matches (mkSeq r1 r2) s <-> Matches (RSeq r1 r2) s.
Proof.
  destruct r1; simpl; try done.
  - split; [inversion 1 |].
    rewrite Matches_seq. intros (s1 & s2 & _ & H & _). inversion H.
  - rewrite Matches_seq. split.
    + intros H. exists [], s. repeat split; [constructor | done].
    + intros (s1 & s2 & -> & H1 & H2). by apply Matches_eps in H1 as ->.
Qed.

Lemma Matches_mkAlt r1 r2 s :
  Matches (mkAlt r1 r2) s <-> Matches (RAlt r1 r2) s.
Proof.
  rewrite Matches_alt.
  destruct r1, r2; simpl; rewrite ?Matches_alt; try done;
    pose proof (Matches_none s); tauto.
Qed.

(** A non-empty word of [r*] starts with a non-empty word of [r]. *)
Lemma Matches_star_cons r c s :
  Matches (RStar r) (c :: s) ->
  exists s1 s2, s = s1 ++ s2 /\ Matches r (c :: s1) /\ Matches (RStar r) s2.
Proof.
  intros H. remember (RStar r) as r' eqn:Hr. remember (c :: s) as t eqn:Ht.
  induction H as [| | | | | |r0 s1 s2 H1 _ H2 IH2]; try discriminate.
  injection Hr as ->.
  destruct s1 as [|a s1]; simpl in Ht.
  - by apply IH2.
  - injection Ht as -> <-. eauto.
Qed.

Lemma deriv_Matches c r s : Matches (deriv c r) s <-> Matches r (c :: s).
Proof.
  revert s.
  induction r as [| |p|r1 IH1 r2 IH2|r1 IH1 r2 IH2|r IH]; intros s; simpl.
  - split; inversion 1.
  - split; inversion 1.
  - destruct (p c) eqn:Hp.
    + rewrite Matches_eps, Matches_class. split.
      * intros ->. eauto.
      * intros (a & [= -> ->] & _). done.
    + rewrite Matches_class. split; [inversion 1 |].
      intros (a & [= -> ->] & Ha). congruence.
  - rewrite Matches_mkAlt, Matches_alt, Matches_mkSeq, !Matches_seq. split.
    + intros [(s1 & s2 & -> & H1 & H2) | H].
      * exists (c :: s1), s2. by rewrite <- IH1.
      * destruct (nullable r1) eqn:Hn; [| inversion H].
        exists [], (c :: s). rewrite <- IH2, <- nullable_Matches. done.
    + intros (s1 & s2 & Hs & H1 & H2). destruct s1 as [|a s1]; simpl in Hs.
      * right. subst s2. apply nullable_Matches in H1 as ->. by apply IH2.
      * injection Hs as <- ->. left. exists s1, s2. by rewrite IH1.
  - by rewrite Matches_mkAlt, !Matches_alt, IH1, IH2.
  - rewrite Matches_mkSeq, Matches_seq. split.
    + intros (s1 & s2 & -> & H1 & H2). apply IH in H1.
      by apply (MStarApp r (c :: s1) s2).
    + intros H. apply Matches_star_cons in H as (s1 & s2 & -> & H1 & H2).
      exists s1, s2. by rewrite IH.
Qed.

Lemma matches_Matches r s : matches r s = true <-> Matches r s.
Proof.
  revert r. induction s as [|c s IH]; intros r; simpl.
  - apply nullable_Matches.
  - by rewrite IH, deriv_Matches.
Qed.

(** Repetitions of one character class. *)
Lemma Matches_star_class p s :
  Matches (RStar (RClass p)) s <-> forallb p s = true.
Proof.
  split.
  - intros H. remember (RStar (RClass p)) as r eqn:Hr.
    induction H as [| | | | | |r0 s1 s2 H1 _ H2 IH2]; try discriminate;
      [done |].
    injection Hr as ->. apply Matches_class in H1 as (c & -> & Hc).
    simpl. rewrite Hc. by apply IH2.
  - induction s as [|c s IH]; simpl; [constructor |].
    intros [Hc Hs]%andb_true_iff.
    apply (MStarApp _ [c] s); [by constructor | auto].
Qed.

Lemma Matches_atleast_class n p s :
  Matches (RAtLeast n (RClass p)) s <-> n <= length s /\ forallb p s = true.
Proof.
  revert s. induction n as [|n IH]; intros s; simpl.
  - rewrite Matches_star_class. split; [split; [lia | done] | tauto].
  - rewrite Matches_seq. split.
    + intros (s1 & s2 & -> & H1 & H2).
      apply Matches_class in H1 as (c & -> & Hc). apply IH in H2 as [Hl Hs].
      simpl. rewrite Hc, Hs. split; [lia | done].
    + destruct s as [|c s]; simpl; [lia |].
      intros [Hl [Hc Hs]%andb_true_iff].
      exists [c], s. split; [done |]. split; [by constructor |].
      apply IH. split; [lia | done].
Qed.

Lemma Matches_upto_class n p s :
  Matches (RUpto n (RClass p)) s <-> length s <= n /\ forallb p s = true.
Proof.
  revert s. induction n as [|n IH]; intros s; simpl.
  - rewrite Matches_eps. split.
    + by intros ->.
    + intros [Hl _]. destruct s; [done | simpl in Hl; lia].
  - rewrite Matches_opt, Matches_seq. split.
    + intros [(s1 & s2 & -> & H1 & H2) | ->]; [| simpl; split; [lia | done]].
      apply Matches_class in H1 as (c & -> & Hc). apply IH in H2 as [Hl Hs].
      simpl. rewrite Hc, Hs. split; [lia | done].
    + destruct s as [|c s]; simpl; [by right |].
      intros [Hl [Hc Hs]%andb_true_iff]. left.
      exists [c], s. split; [done |]. split; [by constructor |].
      apply IH. split; [lia | done].
Qed.

(** [r+] is a non-empty concatenation of words of [r]. *)
Lemma Matches_star r s :
  Matches (RStar r) s <->
  exists pieces, s = concat pieces /\ Forall (Matches r) pieces.
Proof.
  split.
  - intros H. remember (RStar r) as r' eqn:Hr.
    induction H as [| | | | | r0 |r0 s1 s2 H1 _ H2 IH2]; try discriminate.
    + by exists [].
    + injection Hr as ->. destruct (IH2 eq_refl) as (ps & -> & Hps).
      exists (s1 :: ps). split; [done | by constructor].
  - intros (ps & -> & Hps). induction Hps as [|x ps Hx _ IH]; simpl.
    + constructor.
    + by constructor.
Qed.

Lemma Matches_plus r s :
  Matches (RPlus r) s <->
  exists pieces, pieces <> [] /\ s = concat pieces /\ Forall (Matches r) pieces.
Proof.
  unfold RPlus. rewrite Matches_seq. split.
  - intros (s1 & s2 & -> & H1 & H2).
    apply Matches_star in H2 as (ps & -> & Hps).
    exists (s1 :: ps). split; [done |]. split; [done | by constructor].
  - intros (ps & Hne & -> & Hps). destruct Hps as [|x ps Hx Hps]; [done |].
    exists x, (concat ps). split; [done |]. split; [done |].
    apply Matches_star. eauto.
Qed.

End RegexFacts.

(** ** [validateEmailFormat]: the accepted addresses *)

Section Format.
Import RegexFacts Shape.

Lemma is_char_eq x c : is_char x c = true <-> c = x.
Proof. unfold is_char. rewrite Ascii.eqb_eq. split; congruence. Qed.

Lemma alnum_is_local c : is_alnum c = true -> is_local_char c = true.
Proof. unfold is_local_char. intros ->. done. Qed.

Lemma alnum_is_label c : is_alnum c = true -> is_label_char c = true.
Proof. unfold is_label_char. intros ->. done. Qed.

(** [[a-zA-Z0-9](?:[inner]{0,61}[a-zA-Z0-9])?] *)
Lemma Matches_bounded inner l :
  (forall c, is_alnum c = true -> inner c = true) ->
  Matches (RSeq (RClass is_alnum)
                (ROpt (RSeq (RUpto 61 (RClass inner)) (RClass is_alnum)))) l
  <-> bounded inner l = true.
Proof.
  intros Hin. rewrite Matches_seq. unfold bounded. split.
  - intros (s1 & s2 & -> & H1 & H2).
    apply Matches_class in H1 as (c & -> & Hc).
    apply Matches_opt in H2 as [H2 | ->].
    + apply Matches_seq in H2 as (mid & s3 & -> & Hmid & H3).
      apply Matches_class in H3 as (z & -> & Hz).
      apply Matches_upto_class in Hmid as [Hlen Hmid].
      change ([c] ++ mid ++ [z]) with ((c :: mid) ++ [z]).
      rewrite !andb_true_iff, !Nat.leb_le, last_snoc, forallb_app.
      simpl. rewrite length_app, Hc, Hz, Hmid, (Hin c Hc), (Hin z Hz).
      simpl. repeat split; lia.
    + simpl. by rewrite Hc, (Hin c Hc).
  - rewrite !andb_true_iff, !Nat.leb_le.
    intros [[[[Hl1 Hl2] Hf] Hh] Hla].
    destruct l as [|c t]; [simpl in Hl1; lia |]. simpl in Hh.
    exists [c], t. split; [done |]. split; [by apply Matches_class; eauto |].
    apply Matches_opt. destruct t as [|z mid _] using rev_ind; [by right |].
    left. apply Matches_seq. exists mid, [z]. split; [done |].
    change (c :: mid ++ [z]) with ((c :: mid) ++ [z]) in Hl2, Hf, Hla.
    rewrite last_snoc in Hla. simpl in Hla.
    rewrite forallb_app in Hf. apply andb_true_iff in Hf as [Hf _].
    simpl in Hf. apply andb_true_iff in Hf as [_ Hf].
    rewrite length_app in Hl2. simpl in Hl2.
    split; [| by apply Matches_class; eauto].
    apply Matches_upto_class. split; [lia | done].
Qed.

Lemma Matches_group g' :
  Matches groupRegex g' <-> exists g, g' = "."%char :: g /\ group_ok g = true.
Proof.
  unfold groupRegex, RChr, group_ok. rewrite Matches_seq. split.
  - intros (s1 & s2 & -> & H1 & H2).
    apply Matches_class in H1 as (c & -> & ->%is_char_eq).
    apply Matches_atleast_class in H2 as [Hl Hs].
    exists s2. split; [done |]. rewrite Hs, andb_true_r. by apply Nat.leb_le.
  - intros (g & -> & [Hl Hs]%andb_true_iff). exists ["."%char], g.
    split; [done |]. split.
    + apply Matches_class. eexists. split; [done |]. by apply is_char_eq.
    + apply Matches_atleast_class. split; [by apply Nat.leb_le | done].
Qed.

Lemma Matches_groups s :
  Matches (RPlus groupRegex) s <->
  exists groups,
    groups <> [] /\ s = dot_groups groups /\ forallb group_ok groups = true.
Proof.
  rewrite Matches_plus. unfold dot_groups. split.
  - intros (pieces & Hne & -> & Hps).
    assert (exists groups, pieces = map (cons "."%char) groups /\
                           forallb group_ok groups = true) as (gs & -> & Hgs).
    { clear Hne. induction Hps as [|x ps Hx _ (gs & -> & Hgs)].
      - by exists [].
      - apply Matches_group in Hx as (g & -> & Hg).
        exists (g :: gs). simpl. by rewrite Hg, Hgs. }
    exists gs. split; [| done]. by destruct gs.
  - intros (gs & Hne & -> & Hgs). exists (map (cons "."%char) gs).
    split; [by destruct gs |]. split; [done |].
    clear Hne. induction gs as [|g gs IH]; simpl in *; [constructor |].
    apply andb_true_iff in Hgs as [Hg Hgs].
    constructor; [| auto]. apply Matches_group. eauto.
Qed.

Lemma Matches_emailRegex s : Matches emailRegex s <-> accepted s.
Proof.
  unfold emailRegex, accepted, localRegex, labelRegex, RChr.
  rewrite Matches_seq. split.
  - intros (loc & s1 & -> & Hloc & H1).
    apply Matches_seq in H1 as (at_ & s2 & -> & Hat & H2).
    apply Matches_class in Hat as (c & -> & ->%is_char_eq).
    apply Matches_seq in H2 as (lab & s3 & -> & Hlab & H3).
    apply Matches_groups in H3 as (gs & Hne & -> & Hgs).
    exists loc, lab, gs. split; [done |].
    split; [by apply (Matches_bounded _ _ alnum_is_local) |].
    split; [by apply (Matches_bounded _ _ alnum_is_label) | done].
  - intros (loc & lab & gs & -> & Hloc & Hlab & Hne & Hgs).
    exists loc, ("@"%char :: lab ++ dot_groups gs). split; [done |].
    split; [by apply (Matches_bounded _ _ alnum_is_local) |].
    apply Matches_seq. exists ["@"%char], (lab ++ dot_groups gs).
    split; [done |]. split.
    + apply Matches_class. eexists. split; [done |]. by apply is_char_eq.
    + apply Matches_seq. exists lab, (dot_groups gs). split; [done |].
      split; [by apply (Matches_bounded _ _ alnum_is_label) |].
      apply Matches_groups. eauto.
Qed.

End Format.

Example validateEmailFormat_samples :
  map (fun s => validateEmailFormat (VStr s))
      ["user@example.com"; "john.doe+x@mail.example.com"; "a@b-c.com";
       "not-an-email"; "a@b.c"; "a@b.c1.com"; ".a@b.com"; "a-@b.com";
       "a@-b.com"; "a b@c.com"; ""]
  = [true; true; true; false; false; false; false; false; false; false; false]
  /\ validateEmailFormat VUndefined = false
  /\ validateEmailFormat (VNum 7) = false.
Proof. by vm_compute. Qed.

(** C8, as stated, fails: the specification's grammar admits a local part
    that ends with an underscore, the pattern requires its first and last
    characters to be alphanumeric. *)
Lemma format_differs_from_spec_grammar :
  SpecWords.address_grammar "a_@example.com" /\
  validateEmailFormat (VStr "a_@example.com") = false.
Proof.
  split; [| by vm_compute].
  exists (list_ascii_of_string "a_"), [list_ascii_of_string "example"],
         (list_ascii_of_string "com").
  split; [reflexivity |].
  split; [repeat split; simpl; try lia; discriminate |].
  split; [discriminate |].
  split; [| split; [simpl; lia | reflexivity]].
  constructor; [| constructor].
  repeat split; simpl; try lia; discriminate.
Qed.

(** C8, amended: [validateEmailFormat] accepts exactly the strings
    [local@label.g1...gn] with [n >= 1], where [local] has 1-63 characters
    of the local alphabet and [label] 1-63 alphanumeric or hyphen
    characters, both with an alphanumeric first and last character, and
    every [g] consists of two or more letters. *)
Theorem validateEmailFormat_accepts_iff (email : value) :
  validateEmailFormat email = true <->
  exists s, email = VStr s /\ Shape.accepted (list_ascii_of_string s).
Proof.
  unfold validateEmailFormat. destruct email as [| |b|n|s|]; simpl;
    try (rewrite ?andb_false_r, ?orb_true_r;
         split; [by destruct_all bool | by intros (s & [=] & _)]).
  rewrite orb_false_r, negb_involutive.
  destruct (String.eqb_spec s "") as [-> | Hs]; simpl.
  - split; [done |]. intros (s & [= <-] & (loc & lab & gs & H & _)).
    simpl in H. by destruct loc.
  - unfold test. rewrite RegexFacts.matches_Matches, Matches_emailRegex.
    split; [by eauto |]. by intros (s' & [= <-] & H).
Qed.

(** ** [validateEmail]: the verdict *)

Section Verdict.
Variable w : World.

(** The probe loop either finds an exchanger that answers [true], and
    then sets [smtp] and [mailbox] together, or leaves the result as it
    was. *)
Lemma probeLoop_outcome verify mxRecords :
  forall n result ops b r,
    probeLoop verify n mxRecords false result = (ops, Some (b, r)) ->
    (b = true /\ r = set_mailbox true (set_smtp true result)) \/
    (b = false /\ r = result).
Proof.
  induction mxRecords as [|m rest IH]; intros n result ops b r; simpl.
  - intros [= <- <- <-]. by right.
  - destruct (verify n (exchange m)) as [[|]| |].
    + intros [= <- <- <-]. by left.
    + destruct (probeLoop verify (S n) rest false result) as [ops' out] eqn:E.
      intros [= <- ->]. by eapply IH.
    + destruct (probeLoop verify (S n) rest false result) as [ops' out] eqn:E.
      intros [= <- ->]. by eapply IH.
    + done.
Qed.

(** What the SMTP stage does to the result. *)
Lemma smtpCheck_outcome domain address mxRecords result ops f :
  smtpCheck w domain address mxRecords result = (ops, Some f) ->
  mailbox (checks result) = false ->
  match f with
  | Next r =>
      r = set_mailbox true (set_smtp true result)
  | Return r =>
      (r = set_reason "Mailbox verification failed" (set_smtp false result)
       /\ (is_Some (getProviderConfig domain) \/
           dns (checks result) && mx (checks result) = false))
      \/
      (r = set_reason "Email appears valid but could not fully verify"
             (set_mailbox true (set_smtp true result))
       /\ getProviderConfig domain = None
       /\ dns (checks result) = true /\ mx (checks result) = true)
  end.
Proof.
  unfold smtpCheck. intros H Hmb.
  destruct (probeLoop _ 0 mxRecords false (set_smtp false result))
    as [ops' [[b r]|]] eqn:E; [| done].
  apply probeLoop_outcome in E as [[-> ->] | [-> ->]]; simpl in H.
  - injection H as <- <-. by destruct result as [e v [] re].
  - injection H as <- <-.
    destruct (getProviderConfig domain) as [cfg|] eqn:Hcfg; simpl.
    + left. split; [done |]. left. by eexists.
    + destruct result as [e v [m d s mb sm] re]; simpl in *; subst mb.
      destruct d, m; simpl; auto.
Qed.

(** The three invariants of a returned result at once. *)
Lemma validateEmail_checks email r :
  snd (validateEmail w email) = Fulfilled r ->
  mailbox (checks r) = smtp (checks r) /\
  (mailbox (checks r) = true -> mx (checks r) = true) /\
  (mx (checks r) = true -> dns (checks r) = true) /\
  (valid r = true -> forallb id (checks_values (checks r)) = true).
Proof.
  unfold validateEmail, dnsCheck, mxCheck, spfCheck.
  destruct (validateEmailFormat email); simpl; [| by intros [= <-]].
  set (domain := domain_of _).
  set (address := match email with VStr s => s | _ => "" end).
  destruct (lookup_ok w domain); [| by intros [= <-]].
  destruct (resolveMx w domain) as [mxRecords|]; [| by intros [= <-]].
  simpl. destruct (0 <? length mxRecords); simpl; [| by intros [= <-]].
  assert (forall result, result = {| email := email; valid := false;
                  checks := {| mx := true; dns := true; spf := spf (checks result);
                               mailbox := false; smtp := false |};
                  reason := "" |} ->
          snd (match smtpCheck w domain address mxRecords result with
               | (ops', Some (Return r0)) =>
                   ([NLookup domain; NResolveMx domain; NResolveTxt domain] ++ ops',
                    Fulfilled r0)
               | (ops', Some (Next r0)) =>
                   ([NLookup domain; NResolveMx domain; NResolveTxt domain] ++ ops',
                    Fulfilled (finalize r0))
               | (ops', None) =>
                   ([NLookup domain; NResolveMx domain; NResolveTxt domain] ++ ops',
                    Pending)
               end) = Fulfilled r ->
          mailbox (checks r) = smtp (checks r) /\
          (mailbox (checks r) = true -> mx (checks r) = true) /\
          (mx (checks r) = true -> dns (checks r) = true) /\
          (valid r = true -> forallb id (checks_values (checks r)) = true))
    as Hsmtp.
  { intros result Hres.
    destruct (smtpCheck w domain address mxRecords result) as [ops' [f|]] eqn:E;
      [| done].
    apply smtpCheck_outcome in E; [| by rewrite Hres].
    destruct f as [r0|r0]; simpl; intros [= <-].
    - destruct E as [[-> _] | [-> _]]; rewrite Hres; simpl; done.
    - subst r0. rewrite Hres. unfold finalize. simpl.
      destruct (spf (checks result)); simpl; done. }
  destruct (resolveTxt w domain) as [txtRecords|]; simpl.
  - destruct (existsb _ txtRecords) eqn:Hspf; simpl.
    + apply Hsmtp. done.
    + destruct (bool_decide _); simpl; [by intros [= <-] |].
      apply Hsmtp. done.
  - destruct (bool_decide _); simpl; [by intros [= <-] |].
    apply Hsmtp. done.
Qed.

End Verdict.

(** C4: in every result that [validateEmail] returns, [checks.mailbox]
    equals [checks.smtp]. *)
Theorem mailbox_smtp_paired (w : World) (email : value) (r : VerificationResult) :
  snd (validateEmail w email) = Fulfilled r ->
  mailbox (checks r) = smtp (checks r).
Proof. intros H. by apply validateEmail_checks in H as (? & _). Qed.

Lemma mailbox_smtp_paired_witness :
  snd (validateEmail Examples.w_no_spf (VStr "user@example.org"))
  = Fulfilled {| email := VStr "user@example.org"; valid := false;
                 checks := {| mx := true; dns := true; spf := false;
                              mailbox := true; smtp := true |};
                 reason := "Failed to verify email" |} /\
  true = true.
Proof.
  split; [by vm_compute |].
  exact (mailbox_smtp_paired Examples.w_no_spf (VStr "user@example.org")
           {| email := VStr "user@example.org"; valid := false;
              checks := {| mx := true; dns := true; spf := false;
                           mailbox := true; smtp := true |};
              reason := "Failed to verify email" |} eq_refl).
Defined.

(** C10: the checks of a returned result are monotone in gate order: a
    true [mailbox] or [smtp] implies a true [mx], and a true [mx] implies a
    true [dns]. *)
Theorem checks_monotone (w : World) (email : value) (r : VerificationResult) :
  snd (validateEmail w email) = Fulfilled r ->
  (mailbox (checks r) = true \/ smtp (checks r) = true -> mx (checks r) = true)
  /\ (mx (checks r) = true -> dns (checks r) = true).
Proof.
  intros H. apply validateEmail_checks in H as (Heq & Hmb & Hmx & _).
  split; [| done]. intros [? | ?]; [auto |]. apply Hmb. congruence.
Qed.

Lemma checks_monotone_witness :
  snd (validateEmail Examples.w_refused (VStr "user@example.org"))
  = Fulfilled {| email := VStr "user@example.org"; valid := false;
                 checks := {| mx := true; dns := true; spf := true;
                              mailbox := true; smtp := true |};
                 reason := "Email appears valid but could not fully verify" |}
  /\ (true = true \/ true = true -> true = true)
  /\ (true = true -> true = true).
Proof.
  split; [by vm_compute |].
  exact (checks_monotone Examples.w_refused (VStr "user@example.org")
           {| email := VStr "user@example.org"; valid := false;
              checks := {| mx := true; dns := true; spf := true;
                           mailbox := true; smtp := true |};
              reason := "Email appears valid but could not fully verify" |}
           eq_refl).
Defined.

(** *** Rejected inputs *)

Lemma not_in_class (p : ascii -> bool) (x : ascii) l :
  p x = false -> forallb p l = true -> x ∉ l.
Proof.
  intros Hx. induction l as [|c l IH]; simpl; [by intros _ ?%elem_of_nil |].
  intros [Hc Hl]%andb_true_iff [-> | Hin]%elem_of_cons;
    [congruence | by apply IH].
Qed.

(** A list is cut at the first occurrence of [x] in one way only. *)
Lemma first_cut_unique {A} (x : A) l1 : forall l2 r1 r2,
  x ∉ l1 -> x ∉ l2 -> l1 ++ x :: r1 = l2 ++ x :: r2 -> l1 = l2 /\ r1 = r2.
Proof.
  induction l1 as [|a l1 IH]; intros [|b l2] r1 r2 H1 H2; simpl.
  - by intros [= ->].
  - intros [= <- _]. exfalso. apply H2. by left.
  - intros [= -> _]. exfalso. apply H1. by left.
  - intros [= -> Heq].
    apply not_elem_of_cons in H1 as [_ H1].
    apply not_elem_of_cons in H2 as [_ H2].
    destruct (IH l2 r1 r2 H1 H2 Heq) as [-> ->]. done.
Qed.

(** C6, as stated, fails: an address whose domain has a middle label of
    64 letters is outside the grammar of the specification, whose labels
    have at most 63 characters, but the pattern accepts it; it is not
    answered "Invalid email format": its domain is looked up, its exchanger
    is contacted and it is reported valid. *)
Lemma grammar_outsider_is_validated :
  let address := MoreExamples.long_group_address in
  let domain := domain_of address in
  ~ SpecWords.address_grammar address /\
  validateEmailFormat (VStr address) = true /\
  fst (validateEmail Examples.w_spf (VStr address))
  = [NLookup domain; NResolveMx domain; NResolveTxt domain;
     NConnect 25 "mx.example.org"] /\
  (valid <$> match snd (validateEmail Examples.w_spf (VStr address)) with
             | Fulfilled r => Some r
             | _ => None
             end) = Some true.
Proof.
  cbv zeta. split; [| by vm_compute].
  intros (loc & labels & tld & Hs & (_ & Hloc & _) & Hne & Hlabels & _ & Htld).
  change (list_ascii_of_string MoreExamples.long_group_address)
    with (["a"%char] ++ "@"%char ::
          (["b"%char] ++ "."%char ::
           (repeat "x"%char 64 ++ "."%char :: list_ascii_of_string "com")))
    in Hs.
  symmetry in Hs.
  apply first_cut_unique in Hs as [_ Hs];
    [| by apply (not_in_class is_local_char)
     | by intros [? | ?%elem_of_nil]%elem_of_cons].
  destruct labels as [|l1 labels]; [done |].
  apply Forall_cons in Hlabels as [(_ & Hl1 & _) Hlabels].
  assert (forall ls, ls <> [] ->
            SpecWords.dotted (l1 :: ls)
            = l1 ++ "."%char :: SpecWords.dotted ls) as Hdot
    by (by intros [|? ?]).
  rewrite <- app_comm_cons, Hdot in Hs by by destruct labels.
  apply first_cut_unique in Hs as [_ Hs];
    [| by apply (not_in_class is_label_char)
     | by intros [? | ?%elem_of_nil]%elem_of_cons].
  assert ("."%char ∉ repeat "x"%char 64) as Hx
    by (by apply (not_in_class is_alpha)).
  destruct labels as [|l2 labels].
  - simpl in Hs. subst tld. by vm_compute in Htld.
  - apply Forall_cons in Hlabels as [((_ & Hlen) & Hl2 & _) _].
    assert (forall ls, ls <> [] ->
              SpecWords.dotted (l2 :: ls)
              = l2 ++ "."%char :: SpecWords.dotted ls) as Hdot2
      by (by intros [|? ?]).
    change (l2 :: labels ++ [tld]) with ((l2 :: labels) ++ [tld]) in Hs.
    rewrite <- app_comm_cons, Hdot2 in Hs by by destruct labels.
    apply first_cut_unique in Hs as [-> _];
      [| by apply (not_in_class is_label_char) | done].
    rewrite repeat_length in Hlen. lia.
Qed.

(** The inputs that the format check rejects: the values that are not
    strings, and the strings that are not of the shape that the pattern
    accepts. *)
Lemma format_rejects_iff (email : value) :
  validateEmailFormat email = false <->
  is_string email = false \/
  exists s, email = VStr s /\ ~ Shape.accepted (list_ascii_of_string s).
Proof.
  unfold validateEmailFormat. destruct email as [| |b|n|s|]; simpl;
    try (rewrite ?andb_false_r, ?orb_true_r; split; [by left | done]).
  rewrite orb_false_r, negb_involutive.
  destruct (String.eqb_spec s "") as [-> | Hs]; simpl.
  - split; [| done]. intros _. right. exists "". split; [done |].
    intros (loc & lab & gs & H & _). simpl in H. by destruct loc.
  - unfold test. rewrite <- not_true_iff_false.
    rewrite RegexFacts.matches_Matches, Matches_emailRegex. split.
    + intros H. right. by exists s.
    + by intros [? | (s' & [= <-] & H)].
Qed.

(** C6, amended: an input that is not a string, or is a string that is not
    of the shape [local@label.g1...gn] that the pattern accepts (the empty
    string is one), is answered at once: [valid] and the five checks are
    false, the reason is "Invalid email format", no call reaches the
    network, and the answer is the same whatever the network is. Every
    other input is a string whose domain is looked up first, so these are
    the only inputs answered without the network. *)
Theorem invalid_format_result (w : World) (email : value) :
  let rejected :=
    is_string email = false \/
    exists s, email = VStr s /\ ~ Shape.accepted (list_ascii_of_string s) in
  (rejected ->
   validateEmail w email
   = ([], Fulfilled {| email := email; valid := false;
                       checks := {| mx := false; dns := false; spf := false;
                                    mailbox := false; smtp := false |};
                       reason := "Invalid email format" |})
   /\ forall w', validateEmail w' email = validateEmail w email) /\
  (~ rejected ->
   exists s ops,
     email = VStr s /\
     fst (validateEmail w email) = NLookup (domain_of s) :: ops) /\
  (fst (validateEmail w email) = [] <-> rejected).
Proof.
  cbv zeta. rewrite <- format_rejects_iff.
  assert (validateEmailFormat email = true ->
          exists s ops,
            email = VStr s /\
            fst (validateEmail w email) = NLookup (domain_of s) :: ops)
    as Hok.
  { intros H.
    destruct email as [| |b|n|s|];
      try (exfalso; unfold validateEmailFormat in H; simpl in H;
           by rewrite ?orb_true_r in H).
    exists s. unfold validateEmail. rewrite H. simpl.
    destruct (dnsCheck _ _ _); [by eexists |].
    destruct (mxCheck _ _ _) as [[|] ?]; [by eexists |].
    destruct (spfCheck _ _ _); [by eexists |].
    destruct (smtpCheck _ _ _ _ _) as [? [[|]|]]; by eexists. }
  assert (validateEmailFormat email = false ->
          validateEmail w email
          = ([], Fulfilled {| email := email; valid := false;
                              checks := no_checks;
                              reason := "Invalid email format" |})) as Hno
    by (intros H; unfold validateEmail; by rewrite H).
  split; [| split].
  - intros H. split; [by apply Hno |].
    intros w'. unfold validateEmail. by rewrite H.
  - intros H%not_false_is_true. exact (Hok H).
  - split.
    + intros Hops. destruct (validateEmailFormat email) eqn:H; [| done].
      destruct (Hok eq_refl) as (s & ops & _ & Hfst). congruence.
    + intros H. by rewrite (Hno H).
Qed.

Lemma invalid_format_result_witness :
  validateEmail Examples.w_spf (VStr "not-an-email")
  = ([], Fulfilled {| email := VStr "not-an-email"; valid := false;
                      checks := {| mx := false; dns := false; spf := false;
                                   mailbox := false; smtp := false |};
                      reason := "Invalid email format" |}) /\
  validateEmail Examples.w_spf (VNum 7)
  = ([], Fulfilled {| email := VNum 7; valid := false;
                      checks := {| mx := false; dns := false; spf := false;
                                   mailbox := false; smtp := false |};
                      reason := "Invalid email format" |}).
Proof.
  split.
  - refine (proj1 (proj1 (invalid_format_result Examples.w_spf
                            (VStr "not-an-email")) _)).
    apply format_rejects_iff. by vm_compute.
  - refine (proj1 (proj1 (invalid_format_result Examples.w_spf (VNum 7)) _)).
    by left.
Defined.

(** The direction of C1 that the code keeps: a result marked valid has all
    five checks true. *)
Lemma valid_has_all_checks (w : World) (email : value) (r : VerificationResult) :
  snd (validateEmail w email) = Fulfilled r ->
  valid r = true -> forallb id (checks_values (checks r)) = true.
Proof. intros H. by apply validateEmail_checks in H as (_ & _ & _ & ?). Qed.

(** C1 at the lenient fallback: the domain resolves, has an exchanger and
    is not registered, the TXT lookup fails (so [spf] is waived) and the
    exchanger refuses the session. All five checks come back true, yet
    [valid] is still the initial [false]: line 243 returns before line 251
    recomputes it. *)
Lemma lenient_fallback_not_valid :
  validateEmailFormat (VStr "user@example.org") = true /\
  getProviderConfig "example.org" = None /\
  snd (validateEmail Examples.w_refused (VStr "user@example.org"))
  = Fulfilled {| email := VStr "user@example.org"; valid := false;
                 checks := {| mx := true; dns := true; spf := true;
                              mailbox := true; smtp := true |};
                 reason := "Email appears valid but could not fully verify" |}.
Proof. by vm_compute. Qed.

(** The two branches of the SPF stage for an unregistered domain: the
    waiver of line 196 when the lookup rejects, none when it answers. *)
Lemma spf_waived_when_lookup_fails (w : World) (domain : string)
  (result : VerificationResult) :
  getProviderConfig domain = None -> resolveTxt w domain = None ->
  spfCheck w domain result = Next (set_spf true result).
Proof. intros Hcfg Htxt. unfold spfCheck. by rewrite Htxt, Hcfg. Qed.

Lemma spf_kept_when_lookup_answers (w : World) (domain : string)
  (result : VerificationResult) (txtRecords : list (list string)) :
  getProviderConfig domain = None -> resolveTxt w domain = Some txtRecords ->
  spfCheck w domain result
  = Next (set_spf (existsb (existsb (fun record => includes record "v=spf1"))
                           txtRecords) result).
Proof.
  intros Hcfg Htxt. unfold spfCheck. rewrite Htxt, Hcfg. simpl.
  by rewrite andb_false_r.
Qed.

(** C2 where the TXT lookup succeeds without an SPF record: the domain is
    not registered, resolves, has an exchanger that accepts the mailbox,
    and [valid] is false for the sole reason that [spf] was left false; the
    same network with an SPF record gives [valid = true]. The waiver of
    line 196 is applied only when the lookup fails. *)
Lemma missing_spf_alone_invalidates :
  getProviderConfig "example.org" = None /\
  snd (validateEmail Examples.w_no_spf (VStr "user@example.org"))
  = Fulfilled {| email := VStr "user@example.org"; valid := false;
                 checks := {| mx := true; dns := true; spf := false;
                              mailbox := true; smtp := true |};
                 reason := "Failed to verify email" |} /\
  snd (validateEmail Examples.w_spf (VStr "user@example.org"))
  = Fulfilled {| email := VStr "user@example.org"; valid := true;
                 checks := {| mx := true; dns := true; spf := true;
                              mailbox := true; smtp := true |};
                 reason := "Email verified successfully" |}.
Proof. by vm_compute. Qed.

(** ** The generic probe *)

Section GenericFacts.
Import Generic.
Variable throws : nat -> bool.
Variable email : string.


Lemma commands_length : length (commands email) = 4.
Proof. reflexivity. Qed.

Lemma resolve_is_Some b p : resolve b p <> None.
Proof. by destruct p. Qed.

Lemma wire_ok_write s :
  Generic.wire_ok email s ->
  match write throws (commands email !! currentCommand s) (sock s) with
  | (k, true) =>
      currentCommand s < 4 /\
      (settled s = None ->
       wire k = take (S (currentCommand s)) (commands email))
  | (k, false) => wire k = wire (sock s)
  end.
Proof.
  intros [Hle Hw]. unfold write.
  destruct (commands email !! currentCommand s) as [c|] eqn:Hc; [| done].
  destruct (throws _); [done |]. cbn [wire].
  split; [by apply lookup_lt_Some in Hc |].
  intros Hp. rewrite (take_S_r _ _ _ Hc), Hw; done.
Qed.

Lemma wire_ok_connect s :
  Generic.wire_ok email s ->
  Generic.wire_ok email (Generic.on_connect throws email s).
Proof.
  intros Hs. unfold Generic.on_connect. destruct (connect_cb s); [| done].
  set (s1 := Build_session _ _ _ _ _ _ _).
  assert (Generic.wire_ok email s1) as H1 by done.
  pose proof (wire_ok_write s1 H1) as Hw. simpl in Hw |- *.
  destruct (write throws _ _) as [k [|]]; simpl.
  - destruct Hw as [Hlt Hw]. split; simpl; [lia | done].
  - destruct H1 as [? H1]. split; simpl; [done |].
    intros Hp. rewrite Hw. by apply H1.
Qed.

Lemma wire_ok_settled s :
  currentCommand s <= 4 -> settled s <> None -> Generic.wire_ok email s.
Proof. intros ? ?. by split. Qed.

Lemma wire_ok_line line s :
  Generic.wire_ok email s ->
  Generic.wire_ok email (fst (Generic.on_line throws email line s)).
Proof.
  intros Hs. unfold Generic.on_line.
  destruct (num_falsy _); [done |].
  set (code := parseInt _).
  assert (Generic.wire_ok email (rcpt_verdict code s)) as H1.
  { unfold rcpt_verdict. by destruct (_ && _). }
  revert H1. generalize (rcpt_verdict code s). clear s Hs. intros s Hs.
  destruct (_ || _ || _).
  - rewrite commands_length.
    destruct (currentCommand s <? 4) eqn:Hlt; [| done].
    pose proof (wire_ok_write s Hs) as Hw.
    destruct (write throws _ _) as [k [|]]; simpl.
    + destruct Hw as [? Hw]. split; simpl; [lia | done].
    + apply wire_ok_settled; simpl; [apply Hs | apply resolve_is_Some].
  - destruct (num_ge code 500); [| done].
    apply wire_ok_settled; simpl; [apply Hs | apply resolve_is_Some].
Qed.

Lemma wire_ok_lines lines : forall s,
  Generic.wire_ok email s ->
  Generic.wire_ok email (fst (Generic.on_lines throws email lines s)).
Proof.
  induction lines as [|l rest IH]; intros s Hs; simpl; [done |].
  pose proof (wire_ok_line l s Hs) as H1.
  destruct (Generic.on_line throws email l s) as [s' [|]]; simpl in *; auto.
Qed.

Lemma wire_ok_data d s :
  Generic.wire_ok email s ->
  Generic.wire_ok email (Generic.on_data throws email d s).
Proof.
  intros Hs. unfold Generic.on_data.
  set (s1 := set_response _ s). assert (Generic.wire_ok email s1) as H1 by done.
  destruct (includes _ _); [| done].
  pose proof (wire_ok_lines (split (response s1) CRLF) s1 H1) as H2.
  destruct (Generic.on_lines throws email _ s1) as [s' [|]]; simpl in *; done.
Qed.

Lemma wire_ok_step s e :
  Generic.wire_ok email s ->
  Generic.wire_ok email (Generic.step throws email s e).
Proof.
  intros Hs. destruct e; simpl; auto using wire_ok_connect, wire_ok_data;
    apply wire_ok_settled; simpl; try apply Hs; apply resolve_is_Some.
Qed.

Lemma fold_step_invariant (P : session -> Prop) evs s :
  (forall s e, P s -> P (Generic.step throws email s e)) ->
  P s -> P (fold_left (Generic.step throws email) evs s).
Proof.
  intros Hstep. revert s. induction evs as [|e evs IH]; simpl; auto.
Qed.

Lemma wire_ok_run evs : Generic.wire_ok email (Generic.run throws email evs).
Proof.
  unfold Generic.run. apply fold_step_invariant; [apply wire_ok_step |].
  split; simpl; [lia | done].
Qed.

(** A settled promise keeps its value. *)
Lemma settled_line b line s :
  settled s = Some b ->
  settled (fst (Generic.on_line throws email line s)) = Some b.
Proof.
  intros Hs. unfold Generic.on_line. destruct (num_falsy _); [done |].
  set (code := parseInt _).
  assert (settled (rcpt_verdict code s) = Some b) as H1.
  { unfold rcpt_verdict. by destruct (_ && _). }
  revert H1. generalize (rcpt_verdict code s). clear s Hs. intros s Hs.
  destruct (_ || _ || _).
  - destruct (_ <? _); [| done].
    destruct (write throws _ _) as [k [|]]; simpl; [done |]. by rewrite Hs.
  - destruct (num_ge code 500); [| done]. simpl. by rewrite Hs.
Qed.

Lemma settled_lines b lines : forall s,
  settled s = Some b ->
  settled (fst (Generic.on_lines throws email lines s)) = Some b.
Proof.
  induction lines as [|l rest IH]; intros s Hs; simpl; [done |].
  pose proof (settled_line b l s Hs) as H1.
  destruct (Generic.on_line throws email l s) as [s' [|]]; simpl in *; auto.
Qed.

Lemma settled_step b s e :
  settled s = Some b -> settled (Generic.step throws email s e) = Some b.
Proof.
  intros Hs. destruct e; simpl; try (by rewrite Hs); try done.
  - unfold Generic.on_connect. destruct (connect_cb s); [| done].
    by destruct (write throws _ _) as [k [|]].
  - unfold Generic.on_data. set (s1 := set_response _ s).
    assert (settled s1 = Some b) as H1 by done.
    destruct (includes _ _); [| done].
    pose proof (settled_lines b (split (response s1) CRLF) s1 H1) as H2.
    destruct (Generic.on_lines throws email _ s1) as [s' [|]]; simpl in *; done.
Qed.

Lemma settled_fold b evs s :
  settled s = Some b ->
  settled (fold_left (Generic.step throws email) evs s) = Some b.
Proof.
  intros Hs. apply (fold_step_invariant (fun s => settled s = Some b));
    [intros; by apply settled_step | done].
Qed.

(** Every path that settles the promise has destroyed the socket, or runs
    because it closed: on a live socket the promise is pending. *)
Lemma destroyed_write c k :
  destroyed (fst (write throws c k)) = destroyed k.
Proof. unfold write. destruct c; [| done]. by destruct (throws _). Qed.

Lemma live_pending_line line s :
  (destroyed (sock s) = false -> settled s = None) ->
  destroyed (sock (fst (Generic.on_line throws email line s))) = false ->
  settled (fst (Generic.on_line throws email line s)) = None.
Proof.
  intros Hs. unfold Generic.on_line. destruct (num_falsy _); [done |].
  set (code := parseInt _).
  assert (destroyed (sock (rcpt_verdict code s)) = false ->
          settled (rcpt_verdict code s) = None) as H1.
  { unfold rcpt_verdict. by destruct (_ && _). }
  revert H1. generalize (rcpt_verdict code s). clear s Hs. intros s Hs.
  destruct (_ || _ || _).
  - destruct (_ <? _); [| done].
    pose proof (destroyed_write (commands email !! currentCommand s) (sock s))
      as Hw.
    destruct (write throws _ _) as [k [|]]; simpl in *; [| done].
    rewrite Hw. done.
  - by destruct (num_ge code 500).
Qed.

Lemma live_pending_lines lines : forall s,
  (destroyed (sock s) = false -> settled s = None) ->
  destroyed (sock (fst (Generic.on_lines throws email lines s))) = false ->
  settled (fst (Generic.on_lines throws email lines s)) = None.
Proof.
  induction lines as [|l rest IH]; intros s Hs; simpl; [done |].
  pose proof (live_pending_line l s Hs) as H1.
  destruct (Generic.on_line throws email l s) as [s' [|]]; simpl in *; auto.
Qed.

Lemma live_pending_step s e :
  (destroyed (sock s) = false -> settled s = None) ->
  destroyed (sock (Generic.step throws email s e)) = false ->
  settled (Generic.step throws email s e) = None.
Proof.
  intros Hs. destruct e; simpl; try done.
  - unfold Generic.on_connect. destruct (connect_cb s); [| done].
    set (s1 := Build_session _ _ _ _ _ _ _).
    pose proof (destroyed_write (commands email !! currentCommand s1) (sock s1))
      as Hw.
    destruct (write throws _ _) as [k [|]]; simpl in *; by rewrite Hw.
  - unfold Generic.on_data. set (s1 := set_response _ s).
    assert (destroyed (sock s1) = false -> settled s1 = None) as H1 by done.
    destruct (includes _ _); [| done].
    pose proof (live_pending_lines (split (response s1) CRLF) s1 H1) as H2.
    destruct (Generic.on_lines throws email _ s1) as [s' [|]]; simpl in *; done.
Qed.

Lemma live_pending evs :
  destroyed (sock (Generic.run throws email evs)) = false ->
  settled (Generic.run throws email evs) = None.
Proof.
  unfold Generic.run.
  apply (fold_step_invariant
           (fun s => destroyed (sock s) = false -> settled s = None));
    [apply live_pending_step | done].
Qed.

(** What the timeout listener does to a pending promise. *)
Lemma timeout_settles s :
  settled s = None ->
  settled (Generic.step throws email s EvTimeout) = Some (1 <? currentCommand s).
Proof. intros Hs. simpl. by rewrite Hs. Qed.

(** A session that sees its idle timeout, an error or its end is
    settled. *)
Lemma settles_when_over evs e :
  e ∈ evs -> e = EvTimeout \/ e = EvError \/ e = EvClose ->
  is_Some (settled (Generic.run throws email evs)).
Proof.
  intros (pre & post & ->)%list_elem_of_split He.
  unfold Generic.run. rewrite fold_left_app. simpl.
  set (s := fold_left (Generic.step throws email) pre init).
  assert (is_Some (settled (Generic.step throws email s e))) as [b Hb].
  { destruct He as [-> | [-> | ->]]; simpl;
      match goal with |- is_Some (resolve ?b ?p) => by destruct p end. }
  rewrite (settled_fold b post _ Hb). by eexists.
Qed.

End GenericFacts.

Lemma finalize_checks r : checks (finalize r) = checks r.
Proof.
  unfold finalize. cbn [valid set_valid reason].
  destruct (forallb id (checks_values (checks r))); [done |].
  by destruct (String.eqb _ _).
Qed.

(** For an unregistered domain that passed the DNS and MX checks, every
    returned result has [mailbox] and [smtp] true: either a probe answered
    true or the fallback of lines 237-242 applied. *)
Lemma generic_result_has_mailbox (w : World) (address : string)
  (m : MxRecord) (rest : list MxRecord) (r : VerificationResult) :
  validateEmailFormat (VStr address) = true ->
  getProviderConfig (domain_of address) = None ->
  lookup_ok w (domain_of address) = true ->
  resolveMx w (domain_of address) = Some (m :: rest) ->
  snd (validateEmail w (VStr address)) = Fulfilled r ->
  mailbox (checks r) = true /\ smtp (checks r) = true.
Proof.
  intros Hfmt Hcfg Hdns Hmx.
  unfold validateEmail, dnsCheck, mxCheck, spfCheck.
  rewrite Hfmt, Hdns, Hmx, Hcfg. simpl.
  assert (forall result,
            mx (checks result) = true -> dns (checks result) = true ->
            mailbox (checks result) = false ->
            forall ops f,
              smtpCheck w (domain_of address) address (m :: rest) result
              = (ops, Some f) ->
              match f with
              | Return r0 => mailbox (checks r0) = true /\ smtp (checks r0) = true
              | Next r0 =>
                  mailbox (checks (finalize r0)) = true /\
                  smtp (checks (finalize r0)) = true
              end) as Hsmtp.
  { intros result Hm Hd Hmb ops f E.
    apply smtpCheck_outcome in E; [| done]. destruct f as [r0|r0].
    - destruct E as [[_ [[cfg Hc] | Hc]] | [-> _]]; [congruence | | done].
      by rewrite Hd, Hm in Hc.
    - rewrite finalize_checks. by subst r0. }
  destruct (resolveTxt w (domain_of address)) as [txt|]; simpl;
    rewrite ?andb_false_r; simpl;
    match goal with
    | |- context [smtpCheck w ?d ?a ?l ?res] =>
        pose proof (Hsmtp res eq_refl eq_refl eq_refl) as H;
        destruct (smtpCheck w d a l res) as [ops [[r0|r0]|]]; simpl;
        [ intros [= <-]; exact (H _ _ eq_refl)
        | intros [= <-]; exact (H _ _ eq_refl)
        | done ]
    end.
Qed.

(** C7: when the idle timeout fires on a generic probe, whose socket is
    then still alive, the probe resolves to true exactly when at least two
    commands had been written, these being the first commands of the
    dialogue (HELO, MAIL FROM, ...); and for an unregistered domain that
    passed the DNS and MX checks the returned result has [mailbox] and
    [smtp] true, a result being returned when the timeout after two
    commands occurs on the first exchanger. *)
Theorem generic_timeout_verdict (sc : script) (email : string)
  (evs later : list sock_event) :
  let s := Generic.run (write_throws sc) email evs in
  let sent := wire (Generic.sock s) in
  events sc = evs ++ EvTimeout :: later ->
  connect_throws sc = false ->
  destroyed (Generic.sock s) = false ->
  sent = take (length sent) (Generic.commands email) /\
  Generic.settled s = None /\
  Generic.settled (Generic.step (write_throws sc) email s EvTimeout)
  = Some (bool_decide (2 <= length sent)) /\
  verifyMailbox sc email = Fulfilled (bool_decide (2 <= length sent)) /\
  forall (w : World) (m : MxRecord) (rest : list MxRecord),
    validateEmailFormat (VStr email) = true ->
    getProviderConfig (domain_of email) = None ->
    lookup_ok w (domain_of email) = true ->
    resolveMx w (domain_of email) = Some (m :: rest) ->
    (forall r, snd (validateEmail w (VStr email)) = Fulfilled r ->
               mailbox (checks r) = true /\ smtp (checks r) = true) /\
    (2 <= length sent ->
     socket_of w 0 (exchange m) email = sc ->
     exists ops r,
       validateEmail w (VStr email) = (ops, Fulfilled r) /\
       mailbox (checks r) = true /\ smtp (checks r) = true).
Proof.
  intros s sent Hev Hct Hlive.
  pose proof (live_pending (write_throws sc) email evs Hlive) as Hpend.
  fold s in Hpend.
  destruct (wire_ok_run (write_throws sc) email evs) as [Hle Hwire].
  fold s in Hle, Hwire. specialize (Hwire Hpend). fold sent in Hwire.
  assert (length sent = Generic.currentCommand s) as Hlen.
  { rewrite Hwire, length_take, commands_length. lia. }
  assert (Generic.settled (Generic.step (write_throws sc) email s EvTimeout)
          = Some (bool_decide (2 <= length sent))) as Hto.
  { rewrite timeout_settles by done. f_equal. rewrite Hlen.
    destruct (Nat.ltb_spec 1 (Generic.currentCommand s));
      [by rewrite bool_decide_eq_true_2 by lia
      | by rewrite bool_decide_eq_false_2 by lia]. }
  assert (verifyMailbox sc email = Fulfilled (bool_decide (2 <= length sent)))
    as Hver.
  { unfold verifyMailbox, Generic.run. rewrite Hct, Hev, fold_left_app. simpl.
    change (fold_left _ evs Generic.init) with s.
    change (Generic.on_timeout (write_throws sc) s)
      with (Generic.step (write_throws sc) email s EvTimeout).
    by rewrite (settled_fold _ _ _ later _ Hto). }
  split; [by rewrite Hlen at 1 |]. do 3 (split; [done |]).
  intros w m rest Hfmt Hcfg Hdns Hmx. split.
  { intros r. by apply (generic_result_has_mailbox w email m rest r). }
  intros H2 Hsock.
  rewrite bool_decide_eq_true_2 in Hver by done.
  unfold validateEmail, dnsCheck, mxCheck, spfCheck, smtpCheck.
  rewrite Hfmt, Hdns, Hmx, Hcfg. simpl.
  rewrite Hsock, Hver.
  destruct (resolveTxt w (domain_of email)) as [txt|]; simpl;
    rewrite ?andb_false_r; simpl;
    (eexists _, _; split; [reflexivity | by rewrite finalize_checks]).
Qed.

Lemma generic_timeout_verdict_witness :
  destroyed (Generic.sock (Generic.run (fun _ => false) "user@example.org"
                             Examples.silent_after_two)) = false /\
  exists ops r,
    validateEmail Examples.w_silent (VStr "user@example.org")
    = (ops, Fulfilled r) /\
    mailbox (checks r) = true /\ smtp (checks r) = true.
Proof.
  split; [by vm_compute |].
  refine (proj2 (proj2 (proj2 (proj2 (proj2
    (generic_timeout_verdict
       (Examples.plain (Examples.silent_after_two ++ [EvTimeout]))
       "user@example.org" Examples.silent_after_two []
       eq_refl eq_refl _))))
    Examples.w_silent {| exchange := "mx.example.org"; priority := 10 |} []
    eq_refl eq_refl eq_refl eq_refl) _ eq_refl).
  - by vm_compute.
  - vm_compute. lia.
Defined.

(** ** The provider probe *)

Section ProviderFacts.
Import Provider.
Variable throws : nat -> bool.
Variable cfg : providerConfig.
Variable email : string.


(** The outer error listener of line 106 is attached first and stays
    first. *)
Lemma listeners_handleResponse d s :
  listeners (handleResponse throws cfg email d s) = listeners s.
Proof.
  unfold handleResponse. simpl.
  destruct (includes _ _); [| done].
  destruct (success_code cfg _); simpl;
    repeat (match goal with
            | |- context [if ?b then _ else _] => destruct b
            | |- context [match ?p with (_, _) => _ end] => destruct p
            end; simpl); done.
Qed.

Lemma listeners_emit e s :
  head (listeners s) = Some OnErrorOuter ->
  head (listeners (emit throws cfg email e s)) = Some OnErrorOuter.
Proof.
  unfold emit.
  generalize (filter (fun l => listens e l = true) (listeners s)).
  intros ls. revert s. induction ls as [|l ls IH]; intros s Hs; simpl; [done |].
  apply IH. destruct l, e; simpl; try done. by rewrite listeners_handleResponse.
Qed.

Lemma outer_first_step s e :
  head (listeners s) = Some OnErrorOuter ->
  head (listeners (Provider.step throws cfg email s e)) = Some OnErrorOuter.
Proof.
  intros Hs. destruct e; simpl; try done; try by apply listeners_emit.
  unfold on_connect. destruct (connect_cb s); [| done].
  destruct (write throws _ _) as [k [|]]; simpl; [| done].
  by destruct (listeners s).
Qed.

Lemma outer_first_run evs :
  head (listeners (Provider.run throws cfg email evs)) = Some OnErrorOuter.
Proof.
  unfold Provider.run.
  assert (head (listeners init) = Some OnErrorOuter) as H by done.
  revert H. generalize init.
  induction evs as [|e evs IH]; intros s Hs; simpl; [done |].
  apply IH. by apply outer_first_step.
Qed.

Lemma settled_emit_error b ls : forall s,
  settled s = Some b ->
  settled (fold_left (fun acc l => call throws cfg email EvError l acc) ls s)
  = Some b.
Proof.
  induction ls as [|l ls IH]; intros s Hs; simpl; [done |].
  apply IH. destruct l; simpl; by rewrite ?Hs.
Qed.

(** What the code does on a socket error: a pending probe always
    resolves to [false], whatever the validity flag. *)
Lemma error_settles_false evs :
  settled (Provider.run throws cfg email evs) = None ->
  settled (Provider.step throws cfg email
             (Provider.run throws cfg email evs) EvError) = Some false.
Proof.
  intros Hp. pose proof (outer_first_run evs) as Hh.
  simpl. unfold emit. simpl.
  destruct (listeners (Provider.run throws cfg email evs)) as [|l ls]; [done |].
  injection Hh as ->. rewrite filter_cons_True by done. simpl.
  apply settled_emit_error. simpl. by rewrite Hp.
Qed.

(** A settled promise keeps its value. *)
Lemma psettled_handleResponse b d s :
  settled s = Some b -> settled (handleResponse throws cfg email d s) = Some b.
Proof.
  intros Hs. unfold handleResponse. simpl.
  destruct (includes _ _); [| done].
  destruct (success_code cfg _); simpl;
    repeat (match goal with
            | |- context [if ?b then _ else _] => destruct b
            | |- context [match ?p with (_, _) => _ end] => destruct p
            end; simpl); by rewrite ?Hs.
Qed.

Lemma psettled_emit b e : forall ls s,
  settled s = Some b ->
  settled (fold_left (fun acc l => call throws cfg email e l acc) ls s)
  = Some b.
Proof.
  induction ls as [|l ls IH]; intros s Hs; simpl; [done |].
  apply IH. destruct l, e; simpl; rewrite ?Hs; try done.
  by apply psettled_handleResponse.
Qed.

Lemma psettled_step b s e :
  settled s = Some b ->
  settled (Provider.step throws cfg email s e) = Some b.
Proof.
  intros Hs. destruct e; simpl; try done;
    try (unfold emit; by apply psettled_emit).
  - unfold on_connect. destruct (connect_cb s); [| done].
    by destruct (write throws _ _) as [k [|]].
  - by rewrite Hs.
Qed.

Lemma psettled_fold b evs : forall s,
  settled s = Some b ->
  settled (fold_left (Provider.step throws cfg email) evs s) = Some b.
Proof.
  induction evs as [|e evs IH]; intros s Hs; simpl; [done |].
  by apply IH, psettled_step.
Qed.

Lemma error_settles s :
  head (listeners s) = Some OnErrorOuter ->
  is_Some (settled (Provider.step throws cfg email s EvError)).
Proof.
  intros Hh. simpl. unfold emit. simpl.
  destruct (listeners s) as [|l ls]; [done |]. injection Hh as ->.
  rewrite filter_cons_True by done. simpl.
  destruct (settled s) as [b|] eqn:Hb.
  - rewrite (psettled_emit b EvError); [by eexists | simpl; by rewrite Hb].
  - rewrite (psettled_emit false EvError); [by eexists | simpl; by rewrite Hb].
Qed.

(** A session that sees its timer or an error is settled. *)
Lemma psettles_when_over evs e :
  e ∈ evs -> e = EvTimer \/ e = EvError ->
  is_Some (settled (Provider.run throws cfg email evs)).
Proof.
  intros (pre & post & ->)%list_elem_of_split He.
  unfold Provider.run. rewrite fold_left_app. simpl.
  pose proof (outer_first_run pre) as Hh. unfold Provider.run in Hh.
  set (s := fold_left (Provider.step throws cfg email) pre init) in *.
  assert (is_Some (settled (Provider.step throws cfg email s e))) as [b Hb].
  { destruct He as [-> | ->]; [| by apply error_settles].
    simpl. by destruct (settled s). }
  rewrite (psettled_fold b post _ Hb). by eexists.
Qed.

End ProviderFacts.

(** C3 at a registered provider whose greeting is one of its success
    codes: after the greeting the validity flag is true and the promise
    pending; the socket error that follows resolves the probe to [false],
    because the listener of line 106 runs before the one of line 97. *)
Lemma provider_error_discards_flag :
  let s := Provider.run (fun _ => false) Examples.icloud "user@icloud.com"
             Examples.greeted in
  getProviderConfig "icloud.com" = Some Examples.icloud /\
  Provider.isValid s = true /\
  Provider.settled s = None /\
  Provider.settled
    (Provider.step (fun _ => false) Examples.icloud "user@icloud.com" s EvError)
  = Some false /\
  verifyProviderMailbox (Examples.plain (Examples.greeted ++ [EvError]))
    "user@icloud.com" Examples.icloud = Fulfilled false.
Proof. by vm_compute. Qed.

(** ** Bulk rows *)

(** C9, as stated, fails: a row whose address sits under the key [eMail],
    a case variant of [email], is returned unchanged and never validated,
    although the address would have been found valid. *)
Lemma mixed_case_key_not_validated :
  toLowerCase "eMail" = "email" /\
  processChunk Examples.w_spf {[ "eMail" := VStr "user@example.org" ]}
  = ([], Fulfilled {[ "eMail" := VStr "user@example.org" ]}) /\
  valid <$> match snd (validateEmail Examples.w_spf (VStr "user@example.org")) with
            | Fulfilled r => Some r
            | _ => None
            end = Some true.
Proof. by vm_compute. Qed.

Lemma validateEmail_never_rejects w v : snd (validateEmail w v) <> Rejected.
Proof.
  unfold validateEmail.
  destruct (validateEmailFormat _); simpl; [| done].
  destruct (dnsCheck _ _ _); [done |].
  destruct (mxCheck _ _ _) as [[|] ?]; [done |].
  destruct (spfCheck _ _ _); [done |].
  by destruct (smtpCheck _ _ _ _ _) as [? [[|]|]].
Qed.

(** A row whose address field reads [v], a truthy value, is validated
    with [v]. *)
Lemma validated_with_field w chunk v :
  email_field chunk = v -> truthy v = true -> validated_with w chunk v.
Proof.
  intros Hf Ht. unfold validated_with, processChunk. rewrite Hf, Ht.
  pose proof (validateEmail_never_rejects w v) as Hnr.
  destruct (validateEmail w v) as [ops [r| |]]; simpl in *; [| done | done].
  split; [done |]. eexists. split; [reflexivity |].
  repeat split; try by simplify_map_eq.
  intros key Hkey. unfold validation_keys in Hkey.
  rewrite !lookup_insert_ne; [done | set_solver..].
Qed.

(** C9, amended: the address is read from the keys [email], [Email] and
    [EMAIL] only, and in this order: a row is validated with the value
    under [email] when that is truthy, and then whatever the other two
    hold; otherwise with the value under [Email] when that is truthy;
    otherwise with the value under [EMAIL] when that is truthy. Validated
    means: the network calls are those of the validation of that value,
    and when it settles the row gets the seven validation properties with
    all its other properties kept (it stays pending while the validation
    does, and never rejects). A row with no truthy value under the three
    keys is returned unchanged and nothing reaches the network. *)
Theorem processChunk_email_field (w : World) (chunk : record) :
  (truthy (get chunk "email") = true ->
   validated_with w chunk (get chunk "email")) /\
  (truthy (get chunk "email") = false ->
   truthy (get chunk "Email") = true ->
   validated_with w chunk (get chunk "Email")) /\
  (truthy (get chunk "email") = false ->
   truthy (get chunk "Email") = false ->
   truthy (get chunk "EMAIL") = true ->
   validated_with w chunk (get chunk "EMAIL")) /\
  (truthy (get chunk "email") = false ->
   truthy (get chunk "Email") = false ->
   truthy (get chunk "EMAIL") = false ->
   processChunk w chunk = ([], Fulfilled chunk)).
Proof.
  split; [| split; [| split]].
  - intros H1. apply validated_with_field; [| done].
    unfold email_field, js_or. rewrite H1. simpl. by rewrite H1.
  - intros H1 H2. apply validated_with_field; [| done].
    unfold email_field, js_or. rewrite H1. simpl. by rewrite H2.
  - intros H1 H2 H3. apply validated_with_field; [| done].
    unfold email_field, js_or. rewrite H1. simpl. by rewrite H2.
  - intros H1 H2 H3. unfold processChunk, email_field, js_or.
    rewrite H1. simpl. rewrite H2. simpl. by rewrite H3.
Qed.

Lemma processChunk_email_field_witness :
  validated_with Examples.w_spf MoreExamples.row_two_keys
                 (get MoreExamples.row_two_keys "email") /\
  validated_with Examples.w_spf {[ "Email" := VStr "user@example.org" ]}
                 (get {[ "Email" := VStr "user@example.org" ]} "Email") /\
  processChunk Examples.w_spf {[ "name" := VStr "Ann" ]}
  = ([], Fulfilled {[ "name" := VStr "Ann" ]}).
Proof.
  split; [| split].
  - refine (proj1 (processChunk_email_field Examples.w_spf
                     MoreExamples.row_two_keys) _).
    vm_compute. reflexivity.
  - refine (proj1 (proj2 (processChunk_email_field Examples.w_spf
                            {[ "Email" := VStr "user@example.org" ]})) _ _);
      vm_compute; reflexivity.
  - refine (proj2 (proj2 (proj2 (processChunk_email_field Examples.w_spf
                                   {[ "name" := VStr "Ann" ]}))) _ _ _);
      vm_compute; reflexivity.
Defined.

(** ** Validations settle when sockets end *)

Lemma verifyMailbox_settles sc address :
  generic_over sc -> verifyMailbox sc address <> Pending.
Proof.
  unfold verifyMailbox. intros [-> | (e & Hin & He)]; [done |].
  destruct (connect_throws sc); [done |].
  by destruct (settles_when_over (write_throws sc) address _ e Hin He)
    as [b ->].
Qed.

Lemma verifyProviderMailbox_settles sc address cfg :
  provider_over sc -> verifyProviderMailbox sc address cfg <> Pending.
Proof.
  unfold verifyProviderMailbox. intros [-> | (e & Hin & He)]; [done |].
  destruct (connect_throws sc); [done |].
  by destruct (psettles_when_over (write_throws sc) cfg address _ e Hin He)
    as [b ->].
Qed.

Lemma probeLoop_settles verify mxRecords :
  (forall n host, verify n host <> Pending) ->
  forall n b result, is_Some (snd (probeLoop verify n mxRecords b result)).
Proof.
  intros Hv. induction mxRecords as [|m rest IH]; intros n b result; simpl.
  - by eexists.
  - pose proof (Hv n (exchange m)) as Hn.
    destruct (verify n (exchange m)) as [[|]| |]; simpl; [by eexists | | | done].
    + specialize (IH (S n) false result).
      by destruct (probeLoop verify (S n) rest false result).
    + specialize (IH (S n) b result).
      by destruct (probeLoop verify (S n) rest b result).
Qed.

Lemma validateEmail_settles w email :
  sockets_end w -> exists r, snd (validateEmail w email) = Fulfilled r.
Proof.
  intros Hw. unfold validateEmail.
  destruct (validateEmailFormat email); simpl; [| by eexists].
  set (address := match email with VStr s => s | _ => "" end).
  destruct (dnsCheck w (domain_of address) _); [by eexists |].
  destruct (mxCheck w (domain_of address) _) as [[r0|r0] mxRecords];
    [by eexists |].
  destruct (spfCheck w (domain_of address) _); [by eexists |].
  unfold smtpCheck.
  match goal with |- context [probeLoop ?v 0 mxRecords false ?res] =>
    destruct (probeLoop_settles v mxRecords) with (n := 0) (b := false)
                                                  (result := res) as [[b r'] Hp]
  end.
  - intros n host. specialize (Hw n host address).
    destruct (getProviderConfig (domain_of address)).
    + by apply verifyProviderMailbox_settles.
    + by apply verifyMailbox_settles.
  - destruct (probeLoop _ 0 mxRecords false _) as [ops out]. simpl in Hp.
    subst out. destruct b; simpl; by eexists.
Qed.

Lemma processChunk_settles w chunk :
  sockets_end w -> exists out, snd (processChunk w chunk) = Fulfilled out.
Proof.
  intros Hw. unfold processChunk.
  destruct (truthy (email_field chunk)); [| by eexists].
  destruct (validateEmail_settles w (email_field chunk) Hw) as [r Hr].
  destruct (validateEmail w (email_field chunk)) as [ops p]. simpl in Hr.
  subst p. by eexists.
Qed.

(** ** The bulk loop *)

Lemma promise_all_fulfilled {A} (ps : list (promise A)) (xs : list A) :
  Forall2 (fun p x => p = Fulfilled x) ps xs -> promise_all ps = Fulfilled xs.
Proof.
  induction 1 as [|p x ps xs -> _ IH]; simpl; [done |]. by rewrite IH.
Qed.

Lemma bulkLoop_done ws records i results :
  length records <= i ->
  bulkLoop ws records i results = ([Complete results], true).
Proof.
  intros Hi. rewrite bulkLoop_equation_1.
  destruct (lt_dec i (length records)) as [Hlt | Hge]; [lia |].
  by simp bulkLoop.
Qed.

Lemma bulkLoop_next ws records i results processed :
  i < length records ->
  promise_all (imap (fun j chunk => snd (processChunk (ws (i + j)) chunk))
                    (slice i (i + chunkSize) records)) = Fulfilled processed ->
  bulkLoop ws records i results
  = (Progress (progress_at i (length records)) processed
       :: fst (bulkLoop ws records (i + chunkSize) (results ++ processed)),
     snd (bulkLoop ws records (i + chunkSize) (results ++ processed))).
Proof.
  intros Hi Hall. rewrite bulkLoop_equation_1.
  destruct (lt_dec i (length records)) as [Hlt | Hge]; [| lia].
  simp bulkLoop. rewrite Hall. simp bulkLoop.
  by destruct (bulkLoop_unfold_clause_1 ws records (i + chunkSize) _ _).
Qed.

Lemma batches_bounds n :
  n <= batches n * chunkSize /\ batches n * chunkSize < n + chunkSize.
Proof.
  unfold batches, chunkSize. simpl (10 - 1).
  pose proof (Nat.div_mod_eq (n + 9) 10).
  pose proof (Nat.mod_upper_bound (n + 9) 10). lia.
Qed.

Lemma slice_rest {A} (l : list A) i :
  slice i (i + chunkSize) l ++ drop (i + chunkSize) l = drop i l.
Proof.
  unfold slice. replace (i + chunkSize - i) with chunkSize by lia.
  by rewrite <- drop_drop, take_drop.
Qed.

Lemma concat_slices {A} (l : list A) d : forall k,
  concat (map (fun b => slice (b * chunkSize) (b * chunkSize + chunkSize) l)
              (seq k d))
  = take (d * chunkSize) (drop (k * chunkSize) l).
Proof.
  induction d as [|d IH]; intros k; [done |].
  cbn [seq map concat]. rewrite IH. unfold slice.
  replace (S k * chunkSize) with (k * chunkSize + chunkSize) by lia.
  replace (S d * chunkSize) with (chunkSize + d * chunkSize) by lia.
  replace (k * chunkSize + chunkSize - k * chunkSize) with chunkSize by lia.
  by rewrite <- drop_drop, take_take_drop.
Qed.

Section Bulk.
Variable ws : nat -> World.
Variables records outs : list record.
Hypothesis Hlen : length outs = length records.
Hypothesis Hout : forall k r out,
  records !! k = Some r -> outs !! k = Some out ->
  snd (processChunk (ws k) r) = Fulfilled out.

Lemma batch_settles i :
  promise_all (imap (fun j chunk => snd (processChunk (ws (i + j)) chunk))
                    (slice i (i + chunkSize) records))
  = Fulfilled (slice i (i + chunkSize) outs).
Proof.
  apply promise_all_fulfilled, Forall2_same_length_lookup. split.
  - unfold slice. by rewrite length_imap, !length_take, !length_drop, Hlen.
  - intros j p out Hp Ho. rewrite list_lookup_imap in Hp.
    unfold slice in Hp, Ho.
    apply lookup_take_Some in Ho as [Ho _]. rewrite lookup_drop in Ho.
    destruct (take _ (drop i records) !! j) as [r|] eqn:Hr; [| done].
    apply lookup_take_Some in Hr as [Hr _]. rewrite lookup_drop in Hr.
    injection Hp as <-. by eapply Hout.
Qed.

Lemma bulkLoop_batches d : forall k results,
  k + d = batches (length records) ->
  bulkLoop ws records (k * chunkSize) results
  = (map (progress_line outs) (seq k d)
       ++ [Complete (results ++ drop (k * chunkSize) outs)], true).
Proof.
  pose proof (batches_bounds (length records)) as [Hlo Hhi].
  induction d as [|d IH]; intros k results Hk.
  - assert (length records <= k * chunkSize) as Hge
      by (unfold chunkSize in *; lia).
    rewrite bulkLoop_done by done. simpl.
    rewrite drop_ge by lia. by rewrite app_nil_r.
  - assert (k * chunkSize < length records) as Hlt
      by (unfold chunkSize in *; lia).
    rewrite (bulkLoop_next _ _ _ _ _ Hlt (batch_settles _)).
    assert (S k * chunkSize = k * chunkSize + chunkSize) as Hidx by lia.
    pose proof (IH (S k)
                  (results ++ slice (k * chunkSize)
                                    (k * chunkSize + chunkSize) outs)
                  ltac:(lia)) as IH'.
    rewrite Hidx in IH'. rewrite IH'. cbn [fst snd seq map app].
    unfold progress_line at 2.
    by rewrite Hlen, <- app_assoc, slice_rest.
Qed.

End Bulk.

Lemma processed_lookup ws records k r :
  records !! k = Some r ->
  (exists out, snd (processChunk (ws k) r) = Fulfilled out) ->
  exists out, processed ws records !! k = Some out /\
              snd (processChunk (ws k) r) = Fulfilled out.
Proof.
  intros Hr [out Hout]. exists out. split; [| done].
  unfold processed. by rewrite list_lookup_imap, Hr; simpl; rewrite Hout.
Qed.

Lemma bulk_trace ws records :
  (forall k r, records !! k = Some r ->
               exists out, snd (processChunk (ws k) r) = Fulfilled out) ->
  bulk ws records
  = (map (progress_line (processed ws records))
         (seq 0 (batches (length records)))
       ++ [Complete (processed ws records)], true).
Proof.
  intros Hsettle. unfold bulk. change 0 with (0 * chunkSize).
  rewrite (bulkLoop_batches ws records (processed ws records))
    with (d := batches (length records)); [done | | | done].
  - unfold processed. apply length_imap.
  - intros k r out Hr Ho.
    destruct (processed_lookup ws records k r Hr (Hsettle k r Hr))
      as (out' & Ho' & Hp).
    congruence.
Qed.

Lemma processChunk_never_rejects w chunk : snd (processChunk w chunk) <> Rejected.
Proof.
  unfold processChunk. destruct (truthy _); [| done].
  unfold validateEmail.
  destruct (validateEmailFormat _); simpl; [| done].
  destruct (dnsCheck _ _ _); [done |].
  destruct (mxCheck _ _ _) as [[|] ?]; [done |].
  destruct (spfCheck _ _ _); [done |].
  by destruct (smtpCheck _ _ _ _ _) as [? [[|]|]].
Qed.

Lemma promise_all_not_rejected {A} (ps : list (promise A)) :
  Forall (fun p => p <> Rejected) ps -> promise_all ps <> Rejected.
Proof.
  induction 1 as [|p ps Hp _ IH]; simpl; [done |].
  destruct p; [| done |]; by destruct (promise_all ps).
Qed.

Lemma promise_all_pending {A} (ps : list (promise A)) :
  Forall (fun p => p <> Rejected) ps -> Pending ∈ ps ->
  promise_all ps = Pending.
Proof.
  induction 1 as [|p ps Hp Hps IH]; [by intros ?%elem_of_nil |].
  intros [<- | Hin]%elem_of_cons; simpl.
  - pose proof (promise_all_not_rejected ps Hps).
    by destruct (promise_all ps).
  - rewrite (IH Hin). by destruct p.
Qed.

Lemma batch_never_rejects ws (records : list record) i :
  Forall (fun p => p <> Rejected)
         (imap (fun j chunk => snd (processChunk (ws (i + j)) chunk))
               (slice i (i + chunkSize) records)).
Proof.
  apply Forall_forall. intros p Hp.
  apply list_elem_of_lookup in Hp as [j Hj].
  rewrite list_lookup_imap in Hj.
  destruct (slice _ _ records !! j); [| done].
  injection Hj as <-. apply processChunk_never_rejects.
Qed.

Lemma bulkLoop_pending ws records i results :
  i < length records ->
  promise_all (imap (fun j chunk => snd (processChunk (ws (i + j)) chunk))
                    (slice i (i + chunkSize) records)) = Pending ->
  bulkLoop ws records i results = ([], false).
Proof.
  intros Hi Hall. rewrite bulkLoop_equation_1.
  destruct (lt_dec i (length records)) as [Hlt | Hge]; [| lia].
  simp bulkLoop. rewrite Hall. by simp bulkLoop.
Qed.

Lemma batch_settles_local ws (records : list record) i :
  (forall k r, i <= k < i + chunkSize -> records !! k = Some r ->
               exists out, snd (processChunk (ws k) r) = Fulfilled out) ->
  promise_all (imap (fun j chunk => snd (processChunk (ws (i + j)) chunk))
                    (slice i (i + chunkSize) records))
  = Fulfilled (slice i (i + chunkSize) (processed ws records)).
Proof.
  intros Hset.
  apply promise_all_fulfilled, Forall2_same_length_lookup. split.
  - unfold slice, processed.
    by rewrite !length_imap, !length_take, !length_drop, length_imap.
  - intros j p out Hp Ho. rewrite list_lookup_imap in Hp.
    unfold slice in Hp, Ho.
    apply lookup_take_Some in Ho as [Ho Hj]. rewrite lookup_drop in Ho.
    destruct (take _ (drop i records) !! j) as [r|] eqn:Hr; [| done].
    apply lookup_take_Some in Hr as [Hr _]. rewrite lookup_drop in Hr.
    injection Hp as <-.
    destruct (processed_lookup ws records (i + j) r Hr) as (out' & Ho' & Hp');
      [apply Hset; [lia | done] | congruence].
Qed.




(** In particular the loop runs to its completion line whenever the
    runtime ends every socket. *)
Corollary bulk_completes_when_sockets_end (ws : nat -> World)
  (records : list record) :
  (forall k, sockets_end (ws k)) ->
  bulk ws records
  = (map (progress_line (processed ws records))
         (seq 0 (batches (length records)))
       ++ [Complete (processed ws records)], true).
Proof.
  intros Hw. apply bulk_trace.
  intros k r _. by apply processChunk_settles.
Qed.

(** The 25-row scenario: three progress lines, at 40, 80 and 100. With
    30 rows the first two lines read 33.33333333333333 and
    66.66666666666666, the binary64 values [4691249611844266 * 2^-47] and
    [4691249611844266 * 2^-46]. *)
Example progress_of_25_rows :
  progress_at 0 25 = Double.of_nat 40 /\
  progress_at 10 25 = Double.of_nat 80 /\
  progress_at 20 25 = Double.of_nat 100 /\ batches 25 = 3 /\
  progress_at 0 30 = S754_finite false 4691249611844266 (-47) /\
  progress_at 10 30 = S754_finite false 4691249611844266 (-46) /\
  progress_at 20 30 = Double.of_nat 100 /\
  Double.of_nat 100 = S754_finite false 7036874417766400 (-46).
Proof. by vm_compute. Qed.

(* ================================================================== *)
(** * Further properties *)

(** ** The probe loop *)

Section ProbeLoop.
Variable verify : nat -> string -> promise bool.

(** The exchangers before position [k] answered [false] or rejected, the
    probes being numbered from [n]. *)
Lemma probeLoop_accepts mxRecords : forall n k result m,
  mxRecords !! k = Some m ->
  verify (n + k) (exchange m) = Fulfilled true ->
  (forall j m', j < k -> mxRecords !! j = Some m' ->
     verify (n + j) (exchange m') = Fulfilled false \/
     verify (n + j) (exchange m') = Rejected) ->
  probeLoop verify n mxRecords false result
  = (map connect_op (take (S k) mxRecords),
     Some (true, set_mailbox true (set_smtp true result))).
Proof.
  induction mxRecords as [|m0 rest IH]; intros n k result m Hk Hv Hbefore;
    [done |].
  destruct k as [|k]; simpl in Hk.
  - injection Hk as ->. rewrite Nat.add_0_r in Hv.
    cbn [probeLoop]. rewrite Hv. by destruct rest.
  - assert (probeLoop verify (S n) rest false result
            = (map connect_op (take (S k) rest),
               Some (true, set_mailbox true (set_smtp true result)))) as IH'.
    { apply (IH (S n) k result m Hk).
      - by replace (S n + k) with (n + S k) by lia.
      - intros j m' Hj Hm'. replace (S n + j) with (n + S j) by lia.
        apply Hbefore; [lia | done]. }
    pose proof (Hbefore 0 m0 ltac:(lia) eq_refl) as H0.
    rewrite Nat.add_0_r in H0.
    cbn [probeLoop]. destruct H0 as [-> | ->]; by rewrite IH'.
Qed.

Lemma probeLoop_exhausts mxRecords : forall n result,
  (forall j m, mxRecords !! j = Some m ->
     verify (n + j) (exchange m) = Fulfilled false \/
     verify (n + j) (exchange m) = Rejected) ->
  probeLoop verify n mxRecords false result
  = (map connect_op mxRecords, Some (false, result)).
Proof.
  induction mxRecords as [|m0 rest IH]; intros n result Hall; [done |].
  assert (probeLoop verify (S n) rest false result
          = (map connect_op rest, Some (false, result))) as IH'.
  { apply IH. intros j m Hm. replace (S n + j) with (n + S j) by lia.
    by apply Hall. }
  pose proof (Hall 0 m0 eq_refl) as H0. rewrite Nat.add_0_r in H0.
  cbn [probeLoop]. destruct H0 as [-> | ->]; by rewrite IH'.
Qed.

Lemma probeLoop_inv mxRecords : forall n result ops b r,
  probeLoop verify n mxRecords false result = (ops, Some (b, r)) ->
  if b then
    exists k m,
      mxRecords !! k = Some m /\
      verify (n + k) (exchange m) = Fulfilled true /\
      forall j m', j < k -> mxRecords !! j = Some m' ->
        verify (n + j) (exchange m') = Fulfilled false \/
        verify (n + j) (exchange m') = Rejected
  else
    forall j m, mxRecords !! j = Some m ->
      verify (n + j) (exchange m) = Fulfilled false \/
      verify (n + j) (exchange m) = Rejected.
Proof.
  induction mxRecords as [|m0 rest IH]; intros n result ops b r; simpl.
  - intros [= <- <- <-]. by intros j m.
  - destruct (verify n (exchange m0)) as [[|]| |] eqn:Hv; [| | | done].
    + intros [= <- <- <-]. exists 0, m0. rewrite Nat.add_0_r.
      split; [done |]. split; [done |]. intros j m' Hj. lia.
    + destruct (probeLoop verify (S n) rest false result) as [ops' out] eqn:E.
      intros [= <- ->]. apply IH in E. destruct b.
      * destruct E as (k & m & Hk & Hvk & Hbefore). exists (S k), m.
        split; [done |]. replace (n + S k) with (S n + k) by lia.
        split; [done |]. intros [|j] m' Hj Hm'; simpl in Hm'.
        -- injection Hm' as <-. rewrite Nat.add_0_r. by left.
        -- replace (n + S j) with (S n + j) by lia. apply Hbefore; [lia | done].
      * intros [|j] m Hm; simpl in Hm.
        -- injection Hm as <-. rewrite Nat.add_0_r. by left.
        -- replace (n + S j) with (S n + j) by lia. by apply E.
    + destruct (probeLoop verify (S n) rest false result) as [ops' out] eqn:E.
      intros [= <- ->]. apply IH in E. destruct b.
      * destruct E as (k & m & Hk & Hvk & Hbefore). exists (S k), m.
        split; [done |]. replace (n + S k) with (S n + k) by lia.
        split; [done |]. intros [|j] m' Hj Hm'; simpl in Hm'.
        -- injection Hm' as <-. rewrite Nat.add_0_r. by right.
        -- replace (n + S j) with (S n + j) by lia. apply Hbefore; [lia | done].
      * intros [|j] m Hm; simpl in Hm.
        -- injection Hm as <-. rewrite Nat.add_0_r. by right.
        -- replace (n + S j) with (S n + j) by lia. by apply E.
Qed.

(** The loop connects to a prefix of the exchangers, in order. *)
Lemma probeLoop_ops mxRecords : forall n b result,
  exists k, fst (probeLoop verify n mxRecords b result)
            = map connect_op (take k mxRecords).
Proof.
  induction mxRecords as [|m0 rest IH]; intros n b result; simpl.
  - by exists 0.
  - destruct (verify n (exchange m0)) as [[|]| |].
    + by exists 1.
    + destruct (IH (S n) false result) as [k Hk].
      destruct (probeLoop verify (S n) rest false result) as [ops out].
      exists (S k). simpl in *. by rewrite Hk.
    + destruct (IH (S n) b result) as [k Hk].
      destruct (probeLoop verify (S n) rest b result) as [ops out].
      exists (S k). simpl in *. by rewrite Hk.
    + by exists 1.
Qed.

End ProbeLoop.

(** ** Every return of [validateEmail] *)

Section Outcomes.
Variable w : World.

Lemma smtpCheck_probe address mxRecords result :
  smtpCheck w (domain_of address) address mxRecords result
  = match probeLoop (probe w address) 0 mxRecords false
                    (set_smtp false result) with
    | (ops, Some (mailboxExists, result)) =>
        if negb mailboxExists then
          let result := set_reason "Mailbox verification failed" result in
          let result :=
            if negb (bool_decide
                       (is_Some (getProviderConfig (domain_of address))))
               && dns (checks result) && mx (checks result)
            then set_reason "Email appears valid but could not fully verify"
                   (set_mailbox true (set_smtp true result))
            else result in
          (ops, Some (Return result))
        else (ops, Some (Next result))
    | (ops, None) => (ops, None)
    end.
Proof.
  unfold smtpCheck, probe.
  by destruct (getProviderConfig (domain_of address)).
Qed.

(** The gates in front of the probes, as one case distinction. *)
Lemma validateEmail_gates email :
  validateEmailFormat email = true ->
  forall mxRecords,
    lookup_ok w (domain_of (address_of email)) = true ->
    resolveMx w (domain_of (address_of email)) = Some mxRecords ->
    mxRecords <> [] ->
    (getProviderConfig (domain_of (address_of email)) = None \/
     spf_passes w (domain_of (address_of email)) = true) ->
    validateEmail w email
    = match smtpCheck w (domain_of (address_of email)) (address_of email)
              mxRecords
              (verdict email false true true
                       (spf_passes w (domain_of (address_of email)))
                       false false "") with
      | (ops', Some (Return r)) =>
          (gate_ops (domain_of (address_of email)) ++ ops', Fulfilled r)
      | (ops', Some (Next r)) =>
          (gate_ops (domain_of (address_of email)) ++ ops',
           Fulfilled (finalize r))
      | (ops', None) =>
          (gate_ops (domain_of (address_of email)) ++ ops', Pending)
      end.
Proof.
  intros Hfmt mxRecords Hdns Hmx Hne Hspf.
  unfold validateEmail, dnsCheck, mxCheck, spfCheck, spf_passes in *.
  fold (address_of email). rewrite Hfmt, Hdns, Hmx. simpl.
  destruct mxRecords as [|m rest]; [done |]. simpl.
  destruct (resolveTxt w (domain_of (address_of email))) as [txt|]; simpl.
  - destruct (existsb _ txt) eqn:Hex; simpl; [done |].
    destruct Hspf as [-> | ?]; [done | congruence].
  - destruct Hspf as [-> | Hspf]; [done |].
    destruct (bool_decide _); [done | done].
Qed.

Lemma validateEmail_outcome email r :
  snd (validateEmail w email) = Fulfilled r -> outcome w email r.
Proof.
  destruct (validateEmailFormat email) eqn:Hfmt.
  2:{ unfold validateEmail. rewrite Hfmt. simpl. intros [= <-].
      by apply out_format. }
  destruct (lookup_ok w (domain_of (address_of email))) eqn:Hdns.
  2:{ unfold validateEmail, dnsCheck. fold (address_of email).
      rewrite Hfmt, Hdns. simpl. intros [= <-]. by apply out_dns. }
  destruct (resolveMx w (domain_of (address_of email))) as [mxRecords|] eqn:Hmx.
  2:{ unfold validateEmail, dnsCheck, mxCheck. fold (address_of email).
      rewrite Hfmt, Hdns, Hmx. simpl. intros [= <-]. by apply out_mx_error. }
  destruct mxRecords as [|m rest].
  { unfold validateEmail, dnsCheck, mxCheck. fold (address_of email).
    rewrite Hfmt, Hdns, Hmx. simpl. intros [= <-]. by apply out_mx_empty. }
  destruct (getProviderConfig (domain_of (address_of email))) as [cfg|] eqn:Hcfg.
  - destruct (spf_passes w (domain_of (address_of email))) eqn:Hspf.
    + rewrite (validateEmail_gates email Hfmt (m :: rest)) by auto.
      rewrite smtpCheck_probe, Hcfg, Hspf.
      destruct (probeLoop _ 0 (m :: rest) false _) as [ops [[b r']|]] eqn:E;
        [| done].
      pose proof E as E'. apply probeLoop_inv in E'.
      apply probeLoop_outcome in E as [[-> ->] | [-> ->]]; simpl;
        intros [= <-].
      * destruct E' as (k & m' & Hk & Hv & Hbefore).
        pose proof (out_accepted w email (m :: rest) k Hfmt Hdns Hmx) as H.
        rewrite Hspf in H. apply H; [by right |].
        split; [by exists m' | done].
      * by apply (out_mailbox_failed w email (m :: rest));
          [..| rewrite Hcfg | |].
    + unfold validateEmail, dnsCheck, mxCheck, spfCheck.
      fold (address_of email). rewrite Hfmt, Hdns, Hmx, Hcfg. simpl.
      unfold spf_passes in Hspf. rewrite Hcfg in Hspf.
      destruct (resolveTxt w (domain_of (address_of email))) as [txt|] eqn:Htxt.
      * rewrite Hspf. simpl. intros [= <-].
        apply (out_spf_missing w email (m :: rest) txt); try done;
          first [by rewrite Hcfg | unfold spf_passes; by rewrite Htxt].
      * simpl. intros [= <-].
        apply (out_spf_error w email (m :: rest)); try done;
          by rewrite Hcfg.
  - rewrite (validateEmail_gates email Hfmt (m :: rest)) by auto.
    rewrite smtpCheck_probe, Hcfg.
    destruct (probeLoop _ 0 (m :: rest) false _) as [ops [[b r']|]] eqn:E;
      [| done].
    pose proof E as E'. apply probeLoop_inv in E'.
    apply probeLoop_outcome in E as [[-> ->] | [-> ->]]; simpl;
      intros [= <-].
    + destruct E' as (k & m' & Hk & Hv & Hbefore).
      pose proof (out_accepted w email (m :: rest) k Hfmt Hdns Hmx) as H.
      unfold finalize, verdict in *. simpl in *.
      destruct (spf_passes w (domain_of (address_of email))); simpl in *;
        (apply H; [by left | split; [by exists m' | done]]).
    + by apply (out_fallback w email (m :: rest)).
Qed.

End Outcomes.

(** X1: every returned result carries a non-empty reason. *)
Theorem reason_never_empty (w : World) (email : value)
  (r : VerificationResult) :
  snd (validateEmail w email) = Fulfilled r -> reason r <> "".
Proof.
  intros H. apply validateEmail_outcome in H.
  destruct H; simpl; try done. by destruct (spf_passes _ _).
Qed.

Lemma reason_never_empty_witness :
  snd (validateEmail Examples.w_no_spf (VStr "user@example.org"))
  = Fulfilled (verdict (VStr "user@example.org") false true true false
                       true true "Failed to verify email")
  /\ "Failed to verify email" <> "".
Proof.
  split; [by vm_compute |].
  exact (reason_never_empty Examples.w_no_spf (VStr "user@example.org")
           (verdict (VStr "user@example.org") false true true false
                    true true "Failed to verify email") eq_refl).
Defined.

(** X2: a returned result is marked valid exactly when its reason is
    "Email verified successfully". *)
Theorem valid_iff_verified (w : World) (email : value)
  (r : VerificationResult) :
  snd (validateEmail w email) = Fulfilled r ->
  (valid r = true <-> reason r = "Email verified successfully").
Proof.
  intros H. apply validateEmail_outcome in H.
  destruct H; simpl; try done. by destruct (spf_passes _ _).
Qed.

Lemma valid_iff_verified_witness :
  snd (validateEmail Examples.w_spf (VStr "user@example.org"))
  = Fulfilled (verdict (VStr "user@example.org") true true true true
                       true true "Email verified successfully")
  /\ (true = true <->
      "Email verified successfully" = "Email verified successfully").
Proof.
  split; [by vm_compute |].
  exact (valid_iff_verified Examples.w_spf (VStr "user@example.org")
           (verdict (VStr "user@example.org") true true true true
                    true true "Email verified successfully") eq_refl).
Defined.

(** X3: an address is reported valid exactly when it passes the format
    check, its domain resolves, an SPF record is found (or the TXT lookup
    fails for an unregistered domain), and some exchanger's probe answers
    true after all earlier exchangers answered false or rejected. The
    lenient fallback never makes a result valid. *)
Theorem valid_iff_accepted (w : World) (email : value) :
  (exists r, snd (validateEmail w email) = Fulfilled r /\ valid r = true)
  <->
  validateEmailFormat email = true /\
  lookup_ok w (domain_of (address_of email)) = true /\
  spf_passes w (domain_of (address_of email)) = true /\
  exists mxRecords k,
    resolveMx w (domain_of (address_of email)) = Some mxRecords /\
    first_accepting (probe w (address_of email)) mxRecords k.
Proof.
  split.
  - intros (r & H & Hv). apply validateEmail_outcome in H.
    destruct H; simpl in Hv; try done. eauto 10.
  - intros (Hfmt & Hdns & Hspf & mxRecords & k & Hmx & [[m [Hk Hp]] Hbefore]).
    assert (mxRecords <> []) as Hne by (by intros ->).
    rewrite (validateEmail_gates w email Hfmt mxRecords) by auto.
    rewrite smtpCheck_probe.
    rewrite (probeLoop_accepts (probe w (address_of email)) mxRecords 0 k _ m)
      by done.
    simpl. eexists. split; [done |].
    unfold finalize. simpl. by rewrite Hspf.
Qed.

(** X4: the calls that reach the network are a prefix of the DNS, MX and
    TXT lookups of the domain, followed by connections on port 25 to a
    prefix of the exchangers that the MX lookup returned, in that order
    and one per record; a connection is made only when the format check,
    the two lookups and the SPF gate have passed. *)
Theorem connects_only_to_exchangers (w : World) (email : value) :
  exists g k mxRecords,
    fst (validateEmail w email)
    = take g (gate_ops (domain_of (address_of email)))
      ++ map connect_op (take k mxRecords) /\
    (0 < k ->
     g = 3 /\
     validateEmailFormat email = true /\
     lookup_ok w (domain_of (address_of email)) = true /\
     resolveMx w (domain_of (address_of email)) = Some mxRecords /\
     (getProviderConfig (domain_of (address_of email)) = None \/
      spf_passes w (domain_of (address_of email)) = true)).
Proof.
  destruct (validateEmailFormat email) eqn:Hfmt.
  2:{ exists 0, 0, []. unfold validateEmail. rewrite Hfmt.
      split; [done | lia]. }
  destruct (lookup_ok w (domain_of (address_of email))) eqn:Hdns.
  2:{ exists 1, 0, []. unfold validateEmail, dnsCheck.
      fold (address_of email). rewrite Hfmt, Hdns. split; [done | lia]. }
  destruct (resolveMx w (domain_of (address_of email))) as [mxRecords|] eqn:Hmx.
  2:{ exists 2, 0, []. unfold validateEmail, dnsCheck, mxCheck.
      fold (address_of email). rewrite Hfmt, Hdns, Hmx. split; [done | lia]. }
  destruct mxRecords as [|m rest].
  { exists 2, 0, []. unfold validateEmail, dnsCheck, mxCheck.
    fold (address_of email). rewrite Hfmt, Hdns, Hmx. split; [done | lia]. }
  assert (getProviderConfig (domain_of (address_of email)) = None \/
          spf_passes w (domain_of (address_of email)) = true \/
          (is_Some (getProviderConfig (domain_of (address_of email))) /\
           spf_passes w (domain_of (address_of email)) = false))
    as [Hgate | [Hgate | [Hreg Hspf]]].
  { destruct (getProviderConfig _); [| by left].
    destruct (spf_passes _ _); [by right; left | by right; right]. }
  3:{ exists 3, 0, []. split; [| lia].
      unfold validateEmail, dnsCheck, mxCheck, spfCheck.
      fold (address_of email). rewrite Hfmt, Hdns, Hmx. simpl.
      unfold spf_passes in Hspf. destruct Hreg as [cfg Hcfg].
      rewrite Hcfg in *. simpl in *.
      destruct (resolveTxt w (domain_of (address_of email))); [| done].
      by rewrite Hspf. }
  all: rewrite (validateEmail_gates w email Hfmt (m :: rest)) by auto;
    rewrite smtpCheck_probe;
    match goal with |- context [probeLoop ?v 0 ?l false ?res] =>
      destruct (probeLoop_ops v l 0 false res) as [k Hk];
      destruct (probeLoop v 0 l false res) as [ops [[[|] r']|]]
    end; simpl in Hk; subst ops; exists 3, k, (m :: rest); simpl;
    (split; [done | intros _; auto 10]).
Qed.

(** X5: for an address of valid format, a domain that does not resolve
    costs one DNS lookup and returns "Domain does not exist" with every
    check false; a failing or empty MX answer costs one more lookup and
    returns with only [dns] true. Neither the TXT lookup nor a connection
    is attempted. *)
Theorem stops_at_dns_and_mx_gates (w : World) (email : value) :
  validateEmailFormat email = true ->
  let d := domain_of (address_of email) in
  (lookup_ok w d = false ->
   validateEmail w email
   = ([NLookup d],
      Fulfilled (verdict email false false false false false false
                         "Domain does not exist"))) /\
  (lookup_ok w d = true -> resolveMx w d = None ->
   validateEmail w email
   = ([NLookup d; NResolveMx d],
      Fulfilled (verdict email false false true false false false
                         "Failed to verify mail server"))) /\
  (lookup_ok w d = true -> resolveMx w d = Some [] ->
   validateEmail w email
   = ([NLookup d; NResolveMx d],
      Fulfilled (verdict email false false true false false false
                         "No mail server found for domain"))).
Proof.
  intros Hfmt d. unfold validateEmail, dnsCheck, mxCheck.
  fold (address_of email). fold d. rewrite Hfmt. simpl.
  repeat split.
  - by intros ->.
  - by intros -> ->.
  - by intros -> ->.
Qed.

Lemma stops_at_dns_and_mx_gates_witness :
  validateEmail
    {| lookup_ok := fun _ => false; resolveMx := fun _ => None;
       resolveTxt := fun _ => None;
       socket_of := fun _ _ _ => Examples.plain [] |}
    (VStr "user@zzz-nonexistent-domain-test.invalid")
  = ([NLookup "zzz-nonexistent-domain-test.invalid"],
     Fulfilled (verdict (VStr "user@zzz-nonexistent-domain-test.invalid")
                        false false false false false false
                        "Domain does not exist")).
Proof.
  refine (proj1 (stops_at_dns_and_mx_gates _
                   (VStr "user@zzz-nonexistent-domain-test.invalid") _) _).
  - by vm_compute.
  - reflexivity.
Defined.

(** X6: for a registered provider domain without a usable SPF record the
    function returns after the TXT lookup, whatever the exchangers would
    answer: no connection is opened, [valid], [mailbox] and [smtp] are
    false, and the reason is "Failed to verify SPF record" when the lookup
    rejects and "Domain lacks SPF record" when it finds no record. *)
Theorem registered_domain_needs_spf (w : World) (email : value)
  (mxRecords : list MxRecord) :
  validateEmailFormat email = true ->
  let d := domain_of (address_of email) in
  lookup_ok w d = true ->
  resolveMx w d = Some mxRecords -> mxRecords <> [] ->
  is_Some (getProviderConfig d) ->
  spf_passes w d = false ->
  validateEmail w email
  = (gate_ops d,
     Fulfilled (verdict email false true true false false false
                        (match resolveTxt w d with
                         | None => "Failed to verify SPF record"
                         | Some _ => "Domain lacks SPF record"
                         end))).
Proof.
  intros Hfmt d Hdns Hmx Hne [cfg Hcfg] Hspf.
  unfold validateEmail, dnsCheck, mxCheck, spfCheck.
  fold (address_of email). fold d. rewrite Hfmt, Hdns, Hmx. simpl.
  destruct mxRecords as [|m rest]; [done |]. simpl.
  unfold spf_passes in Hspf. rewrite Hcfg in *. simpl.
  destruct (resolveTxt w d) as [txt|]; [| done].
  by rewrite Hspf.
Qed.

Lemma registered_domain_needs_spf_witness :
  validateEmail Examples.w_no_spf (VStr "user@outlook.com")
  = (gate_ops "outlook.com",
     Fulfilled (verdict (VStr "user@outlook.com") false true true false
                        false false "Domain lacks SPF record")).
Proof.
  refine (registered_domain_needs_spf Examples.w_no_spf
            (VStr "user@outlook.com")
            [ {| exchange := "mx.example.org"; priority := 10 |} ]
            _ _ eq_refl _ _ _).
  - by vm_compute.
  - by vm_compute.
  - done.
  - vm_compute. by eexists.
  - by vm_compute.
Defined.

(** X7: when the gates have passed and no exchanger's probe answers true
    (each answers false or rejects), every exchanger has been tried once,
    in order; a registered domain then gets the hard failure "Mailbox
    verification failed" with [mailbox] and [smtp] false, an unregistered
    one gets [mailbox] and [smtp] true with [valid] false. *)
Theorem exhausted_exchangers (w : World) (email : value)
  (mxRecords : list MxRecord) :
  validateEmailFormat email = true ->
  let d := domain_of (address_of email) in
  lookup_ok w d = true ->
  resolveMx w d = Some mxRecords -> mxRecords <> [] ->
  (getProviderConfig d = None \/ spf_passes w d = true) ->
  none_accepting (probe w (address_of email)) mxRecords ->
  validateEmail w email
  = (gate_ops d ++ map connect_op mxRecords,
     Fulfilled
       (if bool_decide (is_Some (getProviderConfig d))
        then verdict email false true true (spf_passes w d) false false
                     "Mailbox verification failed"
        else verdict email false true true (spf_passes w d) true true
                     "Email appears valid but could not fully verify")).
Proof.
  intros Hfmt d Hdns Hmx Hne Hgate Hnone.
  rewrite (validateEmail_gates w email Hfmt mxRecords) by done.
  rewrite smtpCheck_probe. fold d.
  rewrite (probeLoop_exhausts (probe w (address_of email)) mxRecords 0)
    by done.
  simpl. by destruct (bool_decide _).
Qed.

Lemma exhausted_exchangers_witness :
  validateEmail Examples.w_refused (VStr "user@example.org")
  = (gate_ops "example.org"
       ++ [NConnect 25 "mx.example.org"],
     Fulfilled (verdict (VStr "user@example.org") false true true true
                        true true
                        "Email appears valid but could not fully verify")).
Proof.
  refine (exhausted_exchangers Examples.w_refused (VStr "user@example.org")
            [ {| exchange := "mx.example.org"; priority := 10 |} ]
            _ _ eq_refl _ _ _).
  - by vm_compute.
  - by vm_compute.
  - done.
  - left. by vm_compute.
  - intros [|j] m Hm; [| done]. injection Hm as <-. left. by vm_compute.
Defined.

(** ** The domain that is looked up *)

Lemma format_accepted s :
  validateEmailFormat (VStr s) = true ->
  Shape.accepted (list_ascii_of_string s).
Proof.
  unfold validateEmailFormat. simpl.
  rewrite orb_false_r, negb_involutive.
  destruct (String.eqb s ""); [done |]. simpl. unfold test.
  by rewrite RegexFacts.matches_Matches, Matches_emailRegex.
Qed.

Lemma class_excludes (p : ascii -> bool) (x : ascii) l :
  p x = false -> forallb p l = true -> x ∉ l.
Proof.
  intros Hx. induction l as [|c l IH]; simpl; [by intros _ ?%elem_of_nil |].
  intros [Hc Hl]%andb_true_iff [-> | Hin]%elem_of_cons;
    [congruence | by apply IH].
Qed.

Lemma split_go_no_sep (x : ascii) l : forall cur,
  x ∉ l -> split_go [x] 0 cur l = [rev cur ++ l].
Proof.
  induction l as [|c l IH]; intros cur Hx; simpl.
  - by rewrite app_nil_r.
  - apply not_elem_of_cons in Hx as [Hc Hl].
    destruct (Ascii.eqb_spec x c) as [-> | _]; [done |]. simpl.
    rewrite IH by done. simpl. by rewrite <- app_assoc.
Qed.

Lemma split_go_at_sep (x : ascii) l1 l2 : forall cur,
  x ∉ l1 ->
  split_go [x] 0 cur (l1 ++ x :: l2) = (rev cur ++ l1) :: split_go [x] 0 [] l2.
Proof.
  induction l1 as [|c l1 IH]; intros cur Hx; simpl.
  - rewrite Ascii.eqb_refl. simpl. by rewrite app_nil_r.
  - apply not_elem_of_cons in Hx as [Hc Hl].
    destruct (Ascii.eqb_spec x c) as [-> | _]; [done |]. simpl.
    rewrite IH by done. simpl. by rewrite <- app_assoc.
Qed.

(** X8: an address that passes the format check has exactly one [@]:
    [email.split('@')] has two components, the local part and the domain,
    neither contains [@], and the domain that [validateEmail] looks up is
    the whole text after the [@]. *)
Theorem accepted_address_splits (s : string) :
  validateEmailFormat (VStr s) = true ->
  exists loc dom : list ascii,
    list_ascii_of_string s = loc ++ "@"%char :: dom /\
    ("@"%char ∉ loc) /\ ("@"%char ∉ dom) /\ loc <> [] /\ dom <> [] /\
    split s "@" = [string_of_list_ascii loc; string_of_list_ascii dom] /\
    domain_of s = string_of_list_ascii dom.
Proof.
  intros (loc & lab & gs & Hs & Hloc & Hlab & Hne & Hgs)%format_accepted.
  exists loc, (lab ++ Shape.dot_groups gs).
  unfold Shape.local_ok, Shape.label_ok, Shape.bounded in *.
  rewrite !andb_true_iff, !Nat.leb_le in Hloc, Hlab.
  destruct Hloc as [[[[Hloc _] Hlocf] _] _].
  destruct Hlab as [[[[Hlab _] Hlabf] _] _].
  assert ("@"%char ∉ loc) as Hnl
    by (by apply (class_excludes is_local_char)).
  assert ("@"%char ∉ lab ++ Shape.dot_groups gs) as Hnd.
  { apply not_elem_of_app.
    split; [by apply (class_excludes is_label_char) |].
    clear Hne Hs. unfold Shape.dot_groups.
    induction gs as [|g gs IH]; simpl in *; [by intros ?%elem_of_nil |].
    apply andb_true_iff in Hgs as [Hg Hgs].
    apply andb_true_iff in Hg as [_ Hg].
    apply not_elem_of_cons. split; [done |].
    apply not_elem_of_app. split; [| auto].
    by apply (class_excludes is_alpha). }
  assert (split s "@"
          = [string_of_list_ascii loc;
             string_of_list_ascii (lab ++ Shape.dot_groups gs)]) as Hsplit.
  { unfold split. rewrite Hs. simpl.
    rewrite split_go_at_sep, split_go_no_sep by done. done. }
  repeat split; try done.
  - intros ->. simpl in Hloc. lia.
  - intros [-> _]%app_eq_nil. simpl in Hlab. lia.
  - unfold domain_of. by rewrite Hsplit.
Qed.

Lemma accepted_address_splits_witness :
  exists loc dom : list ascii,
    list_ascii_of_string "john.doe@mail.example.com" = loc ++ "@"%char :: dom /\
    ("@"%char ∉ loc) /\ ("@"%char ∉ dom) /\ loc <> [] /\ dom <> [] /\
    split "john.doe@mail.example.com" "@"
    = [string_of_list_ascii loc; string_of_list_ascii dom] /\
    domain_of "john.doe@mail.example.com" = string_of_list_ascii dom.
Proof.
  apply (accepted_address_splits "john.doe@mail.example.com").
  by vm_compute.
Defined.

(** ** The provider registry *)

Lemma lower_char_idem c : lower_char (lower_char c) = lower_char c.
Proof. by destruct c as [[] [] [] [] [] [] [] []]. Qed.

Lemma toLowerCase_idem s : toLowerCase (toLowerCase s) = toLowerCase s.
Proof.
  unfold toLowerCase. rewrite list_ascii_of_string_of_list_ascii.
  f_equal. rewrite map_map. apply map_ext. intros c. apply lower_char_idem.
Qed.

(** X9: [getProviderConfig] finds a domain exactly when its lower-case
    form is one of the aliases of a registry entry, and then returns that
    entry under its provider name; the lookup ignores case. *)
Theorem registry_lookup (domain : string) (cfg : providerConfig) :
  (getProviderConfig domain = Some cfg <->
   exists name entry,
     (name, entry) ∈ PROVIDER_CONFIGS /\
     toLowerCase domain ∈ domains entry /\
     cfg = {| config := entry; provider := name |}) /\
  getProviderConfig (toLowerCase domain) = getProviderConfig domain.
Proof.
  split; [| unfold getProviderConfig; simpl; by rewrite toLowerCase_idem].
  unfold getProviderConfig, PROVIDER_CONFIGS. split.
  - simpl.
    repeat match goal with
    | |- context [String.eqb ?a ?b] =>
        destruct (String.eqb_spec a b) as [Heq | ?]; simpl
    end;
      intros [= <-]; eexists _, _;
      (split; [| split; [| reflexivity]]); simpl; rewrite ?Heq; set_solver.
  - intros (name & entry & Hin & Hdom & ->). simpl.
    repeat (apply elem_of_cons in Hin as [[= -> ->] | Hin];
            [ simpl in Hdom;
              repeat (apply elem_of_cons in Hdom as [Heq | Hdom];
                      [by rewrite Heq |]);
              by apply elem_of_nil in Hdom |]).
    by apply elem_of_nil in Hin.
Qed.

(** ** More on the generic probe *)

Section GenericVerdicts.
Import Generic.
Variable throws : nat -> bool.
Variable email : string.

Lemma sent_is_cursor evs :
  settled (Generic.run throws email evs) = None ->
  length (wire (sock (Generic.run throws email evs)))
  = currentCommand (Generic.run throws email evs).
Proof.
  intros Hp. destruct (wire_ok_run throws email evs) as [Hle Hw].
  rewrite (Hw Hp), length_take, commands_length. lia.
Qed.

(** Replies never accept: a line leaves the promise pending or rejects. *)
Lemma on_line_never_accepts line s :
  settled s = None ->
  (snd (Generic.on_line throws email line s) = false /\
   settled (fst (Generic.on_line throws email line s)) = None) \/
  (snd (Generic.on_line throws email line s) = true /\
   settled (fst (Generic.on_line throws email line s)) = Some false).
Proof.
  intros Hs. unfold Generic.on_line. destruct (num_falsy _); [by left |].
  set (code := parseInt _).
  assert (settled (rcpt_verdict code s) = None) as H1.
  { unfold rcpt_verdict. by destruct (_ && _). }
  revert H1. generalize (rcpt_verdict code s). clear s Hs. intros s Hs.
  destruct (_ || _ || _).
  - destruct (_ <? _); [| by left].
    destruct (write throws _ _) as [k [|]]; simpl; [by left | right].
    by rewrite Hs.
  - destruct (num_ge code 500); [right | by left]. simpl. by rewrite Hs.
Qed.

Lemma on_line_rejects line s :
  settled s = None ->
  num_ge (parseInt (substring0 3 line)) 500 = true ->
  snd (Generic.on_line throws email line s) = true /\
  settled (fst (Generic.on_line throws email line s)) = Some false.
Proof.
  intros Hs Hge. unfold Generic.on_line.
  destruct (parseInt (substring0 3 line)) as [c|] eqn:Hc; [| done].
  simpl in Hge. apply Z.leb_le in Hge.
  assert (num_falsy (Some c) = false) as -> by (simpl; lia).
  assert (settled (rcpt_verdict (Some c) s) = None) as H1.
  { unfold rcpt_verdict. by destruct (_ && _). }
  revert H1. generalize (rcpt_verdict (Some c) s). clear s Hs. intros s Hs.
  assert (num_ge (Some c) 200 && num_lt (Some c) 300 || num_eq (Some c) 451
          || num_eq (Some c) 452 = false) as ->.
  { simpl. rewrite !orb_false_iff, andb_false_iff. repeat split; [right | |];
      lia. }
  assert (num_ge (Some c) 500 = true) as -> by (simpl; lia).
  simpl. by rewrite Hs.
Qed.

Lemma on_lines_never_accepts lines : forall s,
  settled s = None ->
  (snd (Generic.on_lines throws email lines s) = false /\
   settled (fst (Generic.on_lines throws email lines s)) = None) \/
  (snd (Generic.on_lines throws email lines s) = true /\
   settled (fst (Generic.on_lines throws email lines s)) = Some false).
Proof.
  induction lines as [|l rest IH]; intros s Hs; simpl; [by left |].
  destruct (on_line_never_accepts l s Hs) as [[Hf Hp] | [Hf Hp]];
    destruct (Generic.on_line throws email l s) as [s' b]; simpl in *; subst b;
    [by apply IH | by right].
Qed.

Lemma on_lines_rejects lines : forall s line,
  settled s = None -> line ∈ lines ->
  num_ge (parseInt (substring0 3 line)) 500 = true ->
  settled (fst (Generic.on_lines throws email lines s)) = Some false.
Proof.
  induction lines as [|l rest IH]; intros s line Hs Hin Hge;
    [by apply elem_of_nil in Hin |].
  simpl. apply elem_of_cons in Hin as [<- | Hin].
  - destruct (on_line_rejects line s Hs Hge) as [Hf Hp].
    by destruct (Generic.on_line throws email line s) as [s' b];
      simpl in *; subst b.
  - destruct (on_line_never_accepts l s Hs) as [[Hf Hp] | [Hf Hp]];
      destruct (Generic.on_line throws email l s) as [s' b]; simpl in *;
      subst b; [by eapply IH | done].
Qed.

(** The validity flag can change only while the cursor is at most 2. *)
Lemma cursor_line line s :
  currentCommand s <= currentCommand (fst (Generic.on_line throws email line s))
  /\ (3 <= currentCommand s ->
      isValid (fst (Generic.on_line throws email line s)) = isValid s).
Proof.
  unfold Generic.on_line. destruct (num_falsy _); [done |].
  set (code := parseInt _).
  assert (currentCommand (rcpt_verdict code s) = currentCommand s /\
          (3 <= currentCommand s -> isValid (rcpt_verdict code s) = isValid s))
    as [Hc Hv].
  { unfold rcpt_verdict.
    destruct (Nat.eqb_spec (currentCommand s) 2) as [H2 | H2]; simpl;
      [| done].
    destruct (negb _); simpl; [| done]. split; [done | lia]. }
  revert Hc Hv. generalize (rcpt_verdict code s). intros s' Hc Hv.
  destruct (_ || _ || _).
  - destruct (_ <? _); [| simpl; split; [lia | auto]].
    destruct (write throws _ _) as [k [|]]; simpl; (split; [lia | auto]).
  - destruct (num_ge code 500); simpl; (split; [lia | auto]).
Qed.

Lemma cursor_lines lines : forall s,
  currentCommand s
  <= currentCommand (fst (Generic.on_lines throws email lines s)) /\
  (3 <= currentCommand s ->
   isValid (fst (Generic.on_lines throws email lines s)) = isValid s).
Proof.
  induction lines as [|l rest IH]; intros s; simpl; [done |].
  destruct (cursor_line l s) as [Hc Hv].
  destruct (Generic.on_line throws email l s) as [s' [|]]; simpl in *;
    [done |].
  destruct (IH s') as [Hc' Hv']. split; [lia |].
  intros H3. rewrite Hv' by lia. auto.
Qed.

Lemma cursor_step s e :
  currentCommand s <= currentCommand (Generic.step throws email s e) /\
  (3 <= currentCommand s ->
   isValid (Generic.step throws email s e) = isValid s).
Proof.
  destruct e; simpl; try done.
  - unfold Generic.on_connect. destruct (connect_cb s); [| done].
    destruct (write throws _ _) as [k [|]]; simpl; (split; [lia | auto]).
  - unfold Generic.on_data. set (s1 := set_response _ s).
    destruct (includes _ _); [| done].
    destruct (cursor_lines (split (response s1) CRLF) s1) as [Hc Hv].
    destruct (Generic.on_lines throws email _ s1) as [s' [|]]; simpl in *;
      done.
Qed.

Lemma flag_frozen evs : forall s,
  3 <= currentCommand s ->
  isValid (fold_left (Generic.step throws email) evs s) = isValid s.
Proof.
  induction evs as [|e evs IH]; intros s H3; simpl; [done |].
  destruct (cursor_step s e) as [Hc Hv]. rewrite IH by lia. auto.
Qed.

End GenericVerdicts.

Lemma verifyMailbox_at (sc : script) (email : string)
  (pre post : list sock_event) (e : sock_event) (b : bool) :
  events sc = pre ++ e :: post ->
  connect_throws sc = false ->
  Generic.settled
    (Generic.step (write_throws sc) email
                  (Generic.run (write_throws sc) email pre) e) = Some b ->
  verifyMailbox sc email = Fulfilled b.
Proof.
  intros Hev Hct Hb. unfold verifyMailbox, Generic.run in *.
  rewrite Hct, Hev, fold_left_app. simpl.
  by rewrite (settled_fold _ _ _ post _ Hb).
Qed.

(** X10: when an error is emitted on the live socket of a generic probe,
    the probe resolves to true exactly when at least one command had been
    written, that is, when the connection had been established. *)
Theorem generic_error_verdict (sc : script) (email : string)
  (pre post : list sock_event) :
  let s := Generic.run (write_throws sc) email pre in
  events sc = pre ++ EvError :: post ->
  connect_throws sc = false ->
  destroyed (Generic.sock s) = false ->
  verifyMailbox sc email
  = Fulfilled (bool_decide (1 <= length (wire (Generic.sock s)))).
Proof.
  intros s Hev Hct Hlive.
  pose proof (live_pending (write_throws sc) email pre Hlive) as Hp. fold s in Hp.
  pose proof (sent_is_cursor (write_throws sc) email pre Hp) as Hlen.
  fold s in Hlen.
  apply (verifyMailbox_at sc email pre post EvError); [done | done |].
  fold s. simpl. rewrite Hp. simpl. f_equal. rewrite Hlen.
  destruct (Nat.ltb_spec 0 (Generic.currentCommand s));
    [by rewrite bool_decide_eq_true_2 by lia
    | by rewrite bool_decide_eq_false_2 by lia].
Qed.

Lemma generic_error_verdict_witness :
  verifyMailbox (Examples.plain ([EvConnect] ++ EvError :: []))
                "user@example.org"
  = Fulfilled true.
Proof.
  refine (generic_error_verdict
            (Examples.plain ([EvConnect] ++ EvError :: []))
            "user@example.org" [EvConnect] [] eq_refl eq_refl _).
  by vm_compute.
Defined.

(** X11: when the live socket of a generic probe closes, the probe
    resolves to true exactly when the validity flag is set, or at least
    two commands had been written and the RCPT verdict had not been taken
    yet. *)
Theorem generic_close_verdict (sc : script) (email : string)
  (pre post : list sock_event) :
  let s := Generic.run (write_throws sc) email pre in
  events sc = pre ++ EvClose :: post ->
  connect_throws sc = false ->
  destroyed (Generic.sock s) = false ->
  verifyMailbox sc email
  = Fulfilled (Generic.isValid s
               || (bool_decide (2 <= length (wire (Generic.sock s)))
                   && negb (Generic.receivedRcptResponse s))).
Proof.
  intros s Hev Hct Hlive.
  pose proof (live_pending (write_throws sc) email pre Hlive) as Hp. fold s in Hp.
  pose proof (sent_is_cursor (write_throws sc) email pre Hp) as Hlen.
  fold s in Hlen.
  apply (verifyMailbox_at sc email pre post EvClose); [done | done |].
  fold s. simpl. rewrite Hp. simpl. do 3 f_equal. rewrite Hlen.
  destruct (Nat.ltb_spec 1 (Generic.currentCommand s));
    [by rewrite bool_decide_eq_true_2 by lia
    | by rewrite bool_decide_eq_false_2 by lia].
Qed.

Lemma generic_close_verdict_witness :
  verifyMailbox (Examples.plain (Examples.silent_after_two ++ EvClose :: []))
                "user@example.org"
  = Fulfilled true.
Proof.
  refine (generic_close_verdict
            (Examples.plain (Examples.silent_after_two ++ EvClose :: []))
            "user@example.org" Examples.silent_after_two [] eq_refl eq_refl _).
  by vm_compute.
Defined.

(** X12: a reply never makes a generic probe succeed: after a [data]
    event a pending promise is still pending or resolved to false; and it
    is resolved to false whenever the buffered text holds a line break and
    one of its lines starts with a code of 500 or more. *)
Theorem generic_data_never_accepts (throws : nat -> bool) (email : string)
  (s : Generic.session) (d : string) :
  Generic.settled s = None ->
  let s' := Generic.step throws email s (EvData d) in
  (Generic.settled s' = None \/ Generic.settled s' = Some false) /\
  (includes (Generic.response s +:+ d) CRLF = true ->
   (exists line, line ∈ split (Generic.response s +:+ d) CRLF /\
                 num_ge (parseInt (substring0 3 line)) 500 = true) ->
   Generic.settled s' = Some false).
Proof.
  intros Hs. simpl. unfold Generic.on_data.
  set (s1 := Generic.set_response _ s).
  assert (Generic.settled s1 = None) as H1 by done.
  change (Generic.response s1) with (Generic.response s +:+ d).
  destruct (includes _ _).
  - split.
    + destruct (on_lines_never_accepts throws email
                  (split (Generic.response s +:+ d) CRLF) s1 H1)
        as [[Hf Hp] | [Hf Hp]];
        destruct (Generic.on_lines throws email _ s1) as [s' b];
        simpl in *; subst b; auto.
    + intros _ (line & Hin & Hge).
      pose proof (on_lines_rejects throws email _ s1 line H1 Hin Hge) as Hr.
      destruct (on_lines_never_accepts throws email
                  (split (Generic.response s +:+ d) CRLF) s1 H1)
        as [[Hf Hp] | [Hf Hp]];
        destruct (Generic.on_lines throws email _ s1) as [s' b];
        simpl in *; subst b; [congruence | done].
  - split; [by left | done].
Qed.

Lemma generic_data_never_accepts_witness :
  Generic.settled
    (Generic.step (fun _ => false) "user@example.org"
       (Generic.run (fun _ => false) "user@example.org" [EvConnect])
       (EvData ("550 no such user" +:+ CRLF)))
  = Some false.
Proof.
  refine (proj2 (generic_data_never_accepts (fun _ => false)
                   "user@example.org"
                   (Generic.run (fun _ => false) "user@example.org" [EvConnect])
                   ("550 no such user" +:+ CRLF) eq_refl) _ _).
  - by vm_compute.
  - exists "550 no such user". split; [| by vm_compute].
    vm_compute. apply elem_of_cons. by left.
Defined.

(** X13: once three commands are on the wire of a pending generic probe
    (HELO, MAIL FROM and RCPT TO), no later event changes the validity
    flag: the flag is decided by a reply received before RCPT TO was
    written, never by the reply to RCPT TO. *)
Theorem generic_flag_frozen_after_rcpt (throws : nat -> bool)
  (email : string) (evs later : list sock_event) :
  let s := Generic.run throws email evs in
  Generic.settled s = None ->
  3 <= length (wire (Generic.sock s)) ->
  Generic.commands email !! 2 ∈ Some <$> wire (Generic.sock s) /\
  Generic.isValid (Generic.run throws email (evs ++ later))
  = Generic.isValid s.
Proof.
  intros s Hp H3.
  pose proof (sent_is_cursor throws email evs Hp) as Hlen. fold s in Hlen.
  destruct (wire_ok_run throws email evs) as [Hle Hw]. fold s in Hle, Hw.
  split.
  - rewrite (Hw Hp).
    destruct (Generic.currentCommand s) as [|[|[|c]]]; [lia | lia | lia |].
    simpl. set_solver.
  - unfold Generic.run. rewrite fold_left_app.
    apply flag_frozen. fold (Generic.run throws email evs). fold s. lia.
Qed.

Lemma generic_flag_frozen_after_rcpt_witness :
  Generic.isValid
    (Generic.run (fun _ => false) "user@example.org"
       ([EvConnect; Examples.line "220 ready"; Examples.line "250 hello"]
          ++ [Examples.line "450 try later"]))
  = true.
Proof.
  refine (eq_trans (proj2 (generic_flag_frozen_after_rcpt (fun _ => false)
            "user@example.org"
            [EvConnect; Examples.line "220 ready"; Examples.line "250 hello"]
            [Examples.line "450 try later"] eq_refl _)) _).
  - vm_compute. lia.
  - by vm_compute.
Defined.

(** X14: while a generic probe is pending, what it has written is a
    prefix of HELO, MAIL FROM, RCPT TO, QUIT, in this order: at most four
    commands, none repeated, none skipped. *)
Theorem generic_commands_in_order (throws : nat -> bool) (email : string)
  (evs : list sock_event) :
  let s := Generic.run throws email evs in
  Generic.settled s = None ->
  exists k, k <= 4 /\ wire (Generic.sock s) = take k (Generic.commands email)
            /\ Generic.currentCommand s = k.
Proof.
  intros s Hp. destruct (wire_ok_run throws email evs) as [Hle Hw].
  exists (Generic.currentCommand s). fold s in Hle, Hw. auto.
Qed.

Lemma generic_commands_in_order_witness :
  exists k, k <= 4 /\
    wire (Generic.sock (Generic.run (fun _ => false) "user@example.org"
                          Examples.silent_after_two))
    = take k (Generic.commands "user@example.org") /\
    Generic.currentCommand (Generic.run (fun _ => false) "user@example.org"
                              Examples.silent_after_two) = k.
Proof.
  exact (generic_commands_in_order (fun _ => false) "user@example.org"
           Examples.silent_after_two eq_refl).
Defined.

(** ** More on the provider probe *)

Section ProviderVerdicts.
Import Provider.
Variable throws : nat -> bool.
Variable cfg : providerConfig.
Variable email : string.

(** Every success code of every dialect is a 2xx code. *)
Lemma success_code_is_2xx code :
  success_code cfg code = true -> num_ge code 200 && num_lt code 300 = true.
Proof.
  unfold success_code. destruct code as [c|]; simpl.
  - repeat destruct (String.eqb _ _); try done;
      rewrite orb_true_iff, !Z.eqb_eq, andb_true_iff, Z.leb_le, Z.ltb_lt; lia.
  - by repeat destruct (String.eqb _ _).
Qed.

Lemma handleResponse_flag d s :
  (isValid s = true -> isValid (handleResponse throws cfg email d s) = true) /\
  (isValid s = false ->
   isValid (handleResponse throws cfg email d s) = true ->
   currentCommand (handleResponse throws cfg email d s)
   = S (currentCommand s)) /\
  (settled s = None ->
   settled (handleResponse throws cfg email d s) = None \/
   settled (handleResponse throws cfg email d s) = Some false).
Proof.
  unfold handleResponse. cbn [response set_response].
  destruct (includes _ _);
    [| simpl; repeat split; [done | congruence | by left]].
  set (code := parseInt _).
  destruct (success_code cfg code) eqn:Hsc.
  - rewrite (success_code_is_2xx code Hsc). cbn [orb].
    repeat split; intros;
      repeat (match goal with
              | |- context [if ?b then _ else _] => destruct b
              | |- context [match ?p with (_, _) => _ end] => destruct p
              end); simpl in *; auto.
  - repeat split; intros;
      repeat (match goal with
              | |- context [if ?b then _ else _] => destruct b
              | |- context [match ?p with (_, _) => _ end] => destruct p
              | H : context [if ?b then _ else _] |- _ => destruct b
              | H : context [match ?p with (_, _) => _ end] |- _ => destruct p
              end); simpl in *; try congruence; auto;
      match goal with H : settled s = None |- _ => rewrite H; auto end.
Qed.

Lemma call_flag e l s :
  isValid s = true -> isValid (call throws cfg email e l s) = true.
Proof.
  intros Hs. destruct l, e; simpl; try done.
  by apply handleResponse_flag.
Qed.

Lemma emit_flag e s :
  isValid s = true -> isValid (emit throws cfg email e s) = true.
Proof.
  unfold emit. generalize (filter (fun l => listens e l = true) (listeners s)).
  intros ls. revert s. induction ls as [|l ls IH]; intros s Hs; simpl;
    [done |].
  by apply IH, call_flag.
Qed.

Lemma step_flag s e :
  isValid s = true -> isValid (Provider.step throws cfg email s e) = true.
Proof.
  intros Hs. destruct e; simpl; try done; try by apply emit_flag.
  unfold on_connect. destruct (connect_cb s); [| done].
  by destruct (write throws _ _) as [k [|]].
Qed.

End ProviderVerdicts.

Lemma verifyProviderMailbox_at (sc : script) (email : string)
  (cfg : providerConfig) (pre post : list sock_event) (e : sock_event)
  (b : bool) :
  events sc = pre ++ e :: post ->
  connect_throws sc = false ->
  Provider.settled
    (Provider.step (write_throws sc) cfg email
                   (Provider.run (write_throws sc) cfg email pre) e) = Some b ->
  verifyProviderMailbox sc email cfg = Fulfilled b.
Proof.
  intros Hev Hct Hb. unfold verifyProviderMailbox, Provider.run in *.
  rewrite Hct, Hev, fold_left_app. simpl.
  by rewrite (psettled_fold _ _ _ _ post _ Hb).
Qed.

(** X15: when its timer fires on a pending provider probe, the probe
    resolves to the validity flag observed so far. *)
Theorem provider_timer_verdict (sc : script) (email : string)
  (cfg : providerConfig) (pre post : list sock_event) :
  let s := Provider.run (write_throws sc) cfg email pre in
  events sc = pre ++ EvTimer :: post ->
  connect_throws sc = false ->
  Provider.settled s = None ->
  verifyProviderMailbox sc email cfg = Fulfilled (Provider.isValid s).
Proof.
  intros s Hev Hct Hp.
  apply (verifyProviderMailbox_at sc email cfg pre post EvTimer);
    [done | done |].
  fold s. simpl. by rewrite Hp.
Qed.

Lemma provider_timer_verdict_witness :
  verifyProviderMailbox (Examples.plain (Examples.greeted ++ EvTimer :: []))
    "user@icloud.com" Examples.icloud
  = Fulfilled true.
Proof.
  exact (provider_timer_verdict
           (Examples.plain (Examples.greeted ++ EvTimer :: []))
           "user@icloud.com" Examples.icloud Examples.greeted []
           eq_refl eq_refl eq_refl).
Defined.

(** X16: when an error is emitted on a pending provider probe, before or
    after the connection, the probe resolves to false whatever the
    validity flag is: the listener attached on line 106 runs first. *)
Theorem provider_error_verdict (sc : script) (email : string)
  (cfg : providerConfig) (pre post : list sock_event) :
  events sc = pre ++ EvError :: post ->
  connect_throws sc = false ->
  Provider.settled (Provider.run (write_throws sc) cfg email pre) = None ->
  verifyProviderMailbox sc email cfg = Fulfilled false.
Proof.
  intros Hev Hct Hp.
  apply (verifyProviderMailbox_at sc email cfg pre post EvError);
    [done | done |].
  by apply error_settles_false.
Qed.

Lemma provider_error_verdict_witness :
  verifyProviderMailbox (Examples.plain ([] ++ EvError :: []))
    "user@icloud.com" Examples.icloud
  = Fulfilled false.
Proof.
  exact (provider_error_verdict (Examples.plain ([] ++ EvError :: []))
           "user@icloud.com" Examples.icloud [] [] eq_refl eq_refl eq_refl).
Defined.

(** X17: the validity flag of a provider probe is never cleared: once a
    reply has set it, it stays set through every later event. *)
Theorem provider_flag_monotone (throws : nat -> bool) (cfg : providerConfig)
  (email : string) (s : Provider.session) (evs : list sock_event) :
  Provider.isValid s = true ->
  Provider.isValid (fold_left (Provider.step throws cfg email) evs s) = true.
Proof.
  revert s. induction evs as [|e evs IH]; intros s Hs; simpl; [done |].
  by apply IH, step_flag.
Qed.

Lemma provider_flag_monotone_witness :
  Provider.isValid
    (fold_left (Provider.step (fun _ => false) Examples.icloud
                              "user@icloud.com")
       [Examples.line "550 no such user"]
       (Provider.run (fun _ => false) Examples.icloud "user@icloud.com"
                     Examples.greeted))
  = true.
Proof.
  exact (provider_flag_monotone (fun _ => false) Examples.icloud
           "user@icloud.com"
           (Provider.run (fun _ => false) Examples.icloud "user@icloud.com"
                         Examples.greeted)
           [Examples.line "550 no such user"] eq_refl).
Defined.

(** X18: in [handleResponse], a reply that sets the validity flag also
    advances the command cursor by one, since every success code of every
    dialect is a 2xx code; and a reply never resolves the probe to true:
    the promise stays pending or is resolved to false. *)
Theorem provider_reply_effects (throws : nat -> bool) (cfg : providerConfig)
  (email : string) (s : Provider.session) (d : string) :
  let s' := Provider.handleResponse throws cfg email d s in
  (Provider.isValid s = false -> Provider.isValid s' = true ->
   Provider.currentCommand s' = S (Provider.currentCommand s)) /\
  (Provider.settled s = None ->
   Provider.settled s' = None \/ Provider.settled s' = Some false).
Proof.
  intros s'. destruct (handleResponse_flag throws cfg email d s)
    as (_ & Hadv & Hset).
  by split.
Qed.

Lemma provider_reply_effects_witness :
  Provider.currentCommand
    (Provider.handleResponse (fun _ => false) Examples.icloud
       "user@icloud.com" ("220 ready" +:+ CRLF)
       (Provider.run (fun _ => false) Examples.icloud "user@icloud.com"
                     [EvConnect]))
  = 1.
Proof.
  refine (proj1 (provider_reply_effects (fun _ => false) Examples.icloud
                   "user@icloud.com"
                   (Provider.run (fun _ => false) Examples.icloud
                                 "user@icloud.com" [EvConnect])
                   ("220 ready" +:+ CRLF)) eq_refl _).
  by vm_compute.
Defined.

(** ** More on the bulk loop *)

(** X19: the bulk loop never writes its error line: no validation
    rejects, so [Promise.all] never does and the [catch] of the loop is
    never entered. *)
Theorem bulk_never_reports_failure (ws : nat -> World)
  (records : list record) (msg : string) :
  Failure msg ∉ fst (bulk ws records).
Proof.
  unfold bulk. generalize (@nil record). generalize 0.
  intros i. remember (length records - i) as n eqn:Hn.
  revert i Hn. induction n as [n IH] using lt_wf_ind. intros i Hn results.
  destruct (lt_dec i (length records)) as [Hlt | Hge].
  - pose proof (promise_all_not_rejected _ (batch_never_rejects ws records i))
      as Hnr.
    destruct (promise_all _) as [processed | |] eqn:Hall; [| done |].
    + rewrite (bulkLoop_next _ _ _ _ _ Hlt Hall). simpl.
      apply not_elem_of_cons. split; [done |].
      apply (IH (length records - (i + chunkSize)));
        [unfold chunkSize; lia | done].
    + rewrite (bulkLoop_pending _ _ _ _ Hlt Hall). simpl.
      by intros ?%elem_of_nil.
  - rewrite bulkLoop_done by lia. simpl.
    apply not_elem_of_cons. split; [done | by intros ?%elem_of_nil].
Qed.

(** The first [d] batches from batch [k] on, when their rows settle. *)
Lemma bulkLoop_prefix ws records d : forall k results,
  (k + d) * chunkSize < length records + chunkSize ->
  (forall i r, k * chunkSize <= i < (k + d) * chunkSize ->
               records !! i = Some r ->
               exists out, snd (processChunk (ws i) r) = Fulfilled out) ->
  exists results',
    bulkLoop ws records (k * chunkSize) results
    = (map (progress_line (processed ws records)) (seq k d)
         ++ fst (bulkLoop ws records ((k + d) * chunkSize) results'),
       snd (bulkLoop ws records ((k + d) * chunkSize) results')).
Proof.
  induction d as [|d IH]; intros k results Hk Hset.
  - exists results. rewrite Nat.add_0_r. simpl.
    by destruct (bulkLoop ws records (k * chunkSize) results).
  - assert (k * chunkSize < length records) as Hlt
      by (unfold chunkSize in *; lia).
    rewrite (bulkLoop_next _ _ _ _ _ Hlt
               (batch_settles_local ws records (k * chunkSize)
                  ltac:(intros i r Hi; apply Hset; unfold chunkSize in *; lia))).
    destruct (IH (S k)
                (results ++ slice (k * chunkSize) (k * chunkSize + chunkSize)
                                  (processed ws records)))
      as [results' IH'].
    { unfold chunkSize in *. lia. }
    { intros i r Hi. apply Hset. unfold chunkSize in *. lia. }
    exists results'.
    replace (S k * chunkSize) with (k * chunkSize + chunkSize) in IH' by lia.
    replace ((S k + d) * chunkSize) with ((k + S d) * chunkSize) in IH'
      by lia.
    rewrite IH'. cbn [fst snd seq map app]. unfold progress_line.
    assert (length (processed ws records) = length records) as ->
      by apply length_imap.
    done.
Qed.

(** X20: a row whose validation never settles stalls the job: the
    batches before its batch are reported, each with its progress line,
    nothing is written for its own batch or any later one, and the
    response is never ended. *)
Theorem bulk_stalls_on_pending_row (ws : nat -> World)
  (records : list record) (k : nat) (r : record) :
  records !! k = Some r ->
  snd (processChunk (ws k) r) = Pending ->
  (forall i r', i < k / chunkSize * chunkSize -> records !! i = Some r' ->
                exists out, snd (processChunk (ws i) r') = Fulfilled out) ->
  bulk ws records
  = (map (progress_line (processed ws records)) (seq 0 (k / chunkSize)),
     false).
Proof.
  intros Hk Hpend Hbefore. unfold bulk.
  pose proof (lookup_lt_Some _ _ _ Hk) as Hlen.
  pose proof (Nat.div_mod_eq k chunkSize) as Hdiv.
  pose proof (Nat.mod_upper_bound k chunkSize ltac:(done)) as Hmod.
  set (j := k / chunkSize) in *.
  destruct (bulkLoop_prefix ws records j 0 [])
    as [results' Hpre].
  { unfold chunkSize in *. lia. }
  { intros i r' Hi. apply Hbefore. simpl in Hi. lia. }
  change 0 with (0 * chunkSize) at 1. rewrite Hpre. simpl (0 + j).
  rewrite bulkLoop_pending; [by rewrite app_nil_r | unfold chunkSize in *; lia |].
  apply promise_all_pending; [apply batch_never_rejects |].
  apply list_elem_of_lookup. exists (k mod chunkSize).
  rewrite list_lookup_imap. unfold slice.
  rewrite lookup_take_lt by (unfold chunkSize in *; lia).
  rewrite lookup_drop.
  replace (j * chunkSize + k mod chunkSize) with k by lia.
  rewrite Hk. simpl. by rewrite Hpend.
Qed.

Lemma bulk_stalls_on_pending_row_witness :
  bulk MoreExamples.ws_stall (replicate 12 Examples.row_in)
  = (map (progress_line (processed MoreExamples.ws_stall
                                   (replicate 12 Examples.row_in)))
         (seq 0 1), false).
Proof.
  refine (bulk_stalls_on_pending_row MoreExamples.ws_stall
            (replicate 12 Examples.row_in) 11 Examples.row_in eq_refl _ _).
  - by vm_compute.
  - intros i r' Hi [-> _]%lookup_replicate.
    change (11 / chunkSize * chunkSize) with 10 in Hi.
    unfold MoreExamples.ws_stall.
    destruct (Nat.eqb_spec i 11) as [-> | _]; [lia |].
    assert (match snd (processChunk Examples.w_spf Examples.row_in) with
            | Fulfilled _ => true
            | _ => false
            end = true) as Hful by (vm_compute; reflexivity).
    destruct (snd (processChunk Examples.w_spf Examples.row_in));
      [by eexists | done | done].
Defined.

(** ** Percentages: binary64 arithmetic *)

Module DoubleFacts.
Local Open Scope Z_scope.

(** *** Digits *)

Lemma digits2_pos_bounds (p : positive) :
  2 ^ (Zpos (digits2_pos p) - 1) <= Zpos p < 2 ^ Zpos (digits2_pos p).
Proof.
  induction p as [p IH | p IH |]; simpl digits2_pos.
  - rewrite Pos2Z.inj_succ, Z.pow_succ_r by lia.
    replace (Z.succ (Zpos (digits2_pos p)) - 1)
      with (Z.succ (Zpos (digits2_pos p) - 1)) by lia.
    rewrite Z.pow_succ_r by lia. lia.
  - rewrite Pos2Z.inj_succ, Z.pow_succ_r by lia.
    replace (Z.succ (Zpos (digits2_pos p)) - 1)
      with (Z.succ (Zpos (digits2_pos p) - 1)) by lia.
    rewrite Z.pow_succ_r by lia. lia.
  - simpl. lia.
Qed.

(** The number of digits is determined by the bounds. *)
Lemma digits2_pos_unique (p : positive) (d : Z) :
  2 ^ (d - 1) <= Zpos p < 2 ^ d -> Zpos (digits2_pos p) = d.
Proof.
  intros [Hlo Hhi]. pose proof (digits2_pos_bounds p) as [Hlo' Hhi'].
  assert (0 < d).
  { destruct (Z.lt_ge_cases 0 d) as [|Hd]; [done |].
    destruct (Z.eq_dec d 0) as [-> | Hd0]; [simpl in Hhi; lia |].
    rewrite Z.pow_neg_r in Hhi by lia. lia. }
  destruct (Z.lt_trichotomy (Zpos (digits2_pos p)) d) as [Hlt | [Heq | Hgt]];
    [| done |].
  - assert (2 ^ Zpos (digits2_pos p) <= 2 ^ (d - 1))
      by (apply Z.pow_le_mono_r; lia). lia.
  - assert (2 ^ d <= 2 ^ (Zpos (digits2_pos p) - 1))
      by (apply Z.pow_le_mono_r; lia). lia.
Qed.

Lemma Zdigits2_unique (m d : Z) :
  0 < m -> 2 ^ (d - 1) <= m < 2 ^ d -> Zdigits2 m = d.
Proof.
  destruct m as [|p|p]; [lia | | lia]. intros _ H. simpl.
  by apply digits2_pos_unique.
Qed.

(** *** Shifting right *)

Lemma iter_pos_nat {A} (f : A -> A) (p : positive) : forall x,
  SpecFloat.iter_pos f p x = Nat.iter (Pos.to_nat p) f x.
Proof.
  induction p as [p IH | p IH |]; intros x; simpl SpecFloat.iter_pos.
  - rewrite !IH, Pos2Nat.inj_xI.
    replace (S (2 * Pos.to_nat p))%nat
      with (Pos.to_nat p + (Pos.to_nat p + 1))%nat by lia.
    rewrite !Nat.iter_add. done.
  - rewrite !IH, Pos2Nat.inj_xO.
    replace (2 * Pos.to_nat p)%nat
      with (Pos.to_nat p + Pos.to_nat p)%nat by lia.
    by rewrite Nat.iter_add.
  - done.
Qed.

Lemma shr_1_spec (m : Z) (r s : bool) :
  0 <= m ->
  shr_1 {| shr_m := m; shr_r := r; shr_s := s |}
  = {| shr_m := m / 2; shr_r := Z.odd m; shr_s := r || s |}.
Proof.
  intros Hm. destruct m as [|[p|p|]|]; try lia; simpl; f_equal;
    try done; [apply Z.div_unique with 1 | apply Z.div_unique with 0];
    lia.
Qed.

Lemma shr_iter (k : nat) (m : Z) (r s : bool) :
  0 <= m ->
  let mrs := Nat.iter k shr_1 {| shr_m := m; shr_r := r; shr_s := s |} in
  shr_m mrs = m / 2 ^ Z.of_nat k /\
  (r = false -> s = false -> m mod 2 ^ Z.of_nat k = 0 ->
   shr_r mrs = false /\ shr_s mrs = false).
Proof.
  intros Hm. induction k as [|k IH]; cbv zeta.
  - simpl. rewrite Z.div_1_r. auto.
  - cbv zeta in IH. simpl Nat.iter.
    destruct (Nat.iter k shr_1 _) as [m' r' s']. simpl in IH.
    destruct IH as [-> IH].
    assert (0 < 2 ^ Z.of_nat k) as Hpow by (apply Z.pow_pos_nonneg; lia).
    rewrite shr_1_spec by (apply Z.div_pos; lia). simpl.
    rewrite Nat2Z.inj_succ, Z.pow_succ_r by lia.
    split.
    + rewrite Z.div_div by lia. f_equal. lia.
    + intros Hr Hs Hmod.
      apply Z.mod_divide in Hmod; [| lia]. destruct Hmod as [c Hc].
      assert (m = 2 * c * 2 ^ Z.of_nat k) as Hm' by lia.
      destruct IH as [-> ->]; [done | done | |].
      * rewrite Hm'. apply Z.mod_mul. lia.
      * split; [| done]. rewrite Hm', Z.div_mul by lia.
        by rewrite Z.odd_mul.
Qed.

Lemma shr_record_of_loc_m m l : shr_m (shr_record_of_loc m l) = m.
Proof. by destruct l as [|[| |]]. Qed.

Lemma loc_of_shr_record_of_loc m l :
  loc_of_shr_record (shr_record_of_loc m l) = l.
Proof. by destruct l as [|[| |]]. Qed.

(** [shr] divides the mantissa by [2^k] and keeps an exact location exact
    when the digits shifted out are zero. *)
Lemma shr_spec (m e : Z) (l : location) (k : Z) :
  0 <= m -> 0 <= k ->
  exists mrs,
    shr (shr_record_of_loc m l) e k = (mrs, e + k) /\
    shr_m mrs = m / 2 ^ k /\
    (l = loc_Exact -> m mod 2 ^ k = 0 -> loc_of_shr_record mrs = loc_Exact).
Proof.
  intros Hm Hk. destruct k as [|p|p]; [| | lia].
  - exists (shr_record_of_loc m l). simpl.
    rewrite Z.add_0_r, shr_record_of_loc_m, Z.div_1_r.
    split; [done |]. split; [done |]. intros -> _. done.
  - unfold shr. rewrite iter_pos_nat. eexists. split; [reflexivity |].
    remember (shr_record_of_loc m l) as r0 eqn:Hr0.
    destruct r0 as [m0 r s].
    assert (m0 = m) as ->
      by (by rewrite <- (shr_record_of_loc_m m l), <- Hr0).
    destruct (shr_iter (Pos.to_nat p) m r s Hm) as [Hmm Hex].
    rewrite positive_nat_Z in Hmm, Hex. split; [exact Hmm |].
    intros -> Hmod. simpl in Hr0. injection Hr0 as -> ->.
    destruct (Hex eq_refl eq_refl Hmod) as [Hr Hs].
    destruct (Nat.iter _ _ _) as [m' r' s']. simpl in *. by subst.
Qed.

Lemma round_nearest_even_bounds m l :
  round_nearest_even m l = m \/ round_nearest_even m l = m + 1.
Proof. destruct l as [|[| |]]; simpl; auto. destruct (Z.even m); auto. Qed.

(** *** Rounding

    [binary_round_aux] on a positive mantissa of at least 53 digits, away
    from the ends of the exponent range: the result is a normal number, the
    truncation of the mantissa to 53 digits or its successor, and the
    truncation itself when nothing is lost. *)
Lemma round_aux_spec (mx : positive) (ex : Z) (lx : location) :
  let d := Zpos (digits2_pos mx) in
  let k := d - 53 in
  let f := Zpos mx / 2 ^ k in
  53 <= d -> -1074 <= ex + k -> ex + k + 1 <= 971 ->
  exists m e,
    binary_round_aux 53 1024 false (Zpos mx) ex lx = S754_finite false m e /\
    2 ^ 52 <= Zpos m < 2 ^ 53 /\
    ((e = ex + k /\ (Zpos m = f \/ Zpos m = f + 1)) \/
     (e = ex + k + 1 /\ Zpos m = 2 ^ 52 /\ f + 1 = 2 ^ 53)) /\
    (lx = loc_Exact -> Zpos mx mod 2 ^ k = 0 -> e = ex + k /\ Zpos m = f).
Proof.
  intros d k f Hd Hlo Hhi.
  pose proof (digits2_pos_bounds mx) as [Hmlo Hmhi]. fold d in Hmlo, Hmhi.
  assert (0 < 2 ^ k) as Hpk by (apply Z.pow_pos_nonneg; lia).
  assert (2 ^ 52 <= f < 2 ^ 53) as Hf.
  { unfold f.
    assert (2 ^ (d - 1) = 2 ^ 52 * 2 ^ k) as E1
      by (rewrite <- Z.pow_add_r by lia; f_equal; lia).
    assert (2 ^ d = 2 ^ 53 * 2 ^ k) as E2
      by (rewrite <- Z.pow_add_r by lia; f_equal; lia).
    split.
    - apply Z.div_le_lower_bound; lia.
    - apply Z.div_lt_upper_bound; lia. }
  unfold binary_round_aux, shr_fexp.
  change (Zdigits2 (Zpos mx)) with d.
  assert (fexp 53 1024 (d + ex) - ex = k) as ->
    by (unfold fexp, emin, k; lia).
  destruct (shr_spec (Zpos mx) ex lx k ltac:(lia) ltac:(lia))
    as (mrs & -> & Hm1 & Hex1).
  fold f in Hm1. rewrite Hm1.
  set (m2 := round_nearest_even f (loc_of_shr_record mrs)).
  assert (m2 = f \/ m2 = f + 1) as Hm2
    by apply round_nearest_even_bounds.
  destruct (Z.eq_dec m2 (2 ^ 53)) as [Hcarry | Hnc].
  - (* the successor is 2^53 *)
    assert (Zdigits2 m2 = 54) as Hd2
      by (apply Zdigits2_unique; rewrite Hcarry; simpl; lia).
    rewrite Hd2.
    assert (fexp 53 1024 (54 + (ex + k)) - (ex + k) = 1) as ->
      by (unfold fexp, emin; lia).
    destruct (shr_spec m2 (ex + k) loc_Exact 1 ltac:(lia) ltac:(lia))
      as (mrs2 & -> & Hm3 & _).
    rewrite Hm3, Hcarry. change (2 ^ 53 / 2 ^ 1) with (Zpos (2 ^ 52)).
    assert ((ex + k + 1 <=? 1024 - 53) = true) as -> by (apply Z.leb_le; lia).
    exists (2 ^ 52)%positive, (ex + k + 1). split; [done |].
    split; [simpl; lia |]. split.
    + right. split; [done |]. split; [done |]. destruct Hm2; lia.
    + intros Hl Hmod. exfalso.
      unfold m2 in Hcarry. rewrite (Hex1 Hl Hmod) in Hcarry.
      simpl in Hcarry. lia.
  - assert (2 ^ 52 <= m2 < 2 ^ 53) as Hm2b by (destruct Hm2; lia).
    assert (Zdigits2 m2 = 53) as Hd2
      by (apply Zdigits2_unique; simpl in *; lia).
    rewrite Hd2.
    assert (fexp 53 1024 (53 + (ex + k)) - (ex + k) = 0) as ->
      by (unfold fexp, emin; lia).
    destruct (shr_spec m2 (ex + k) loc_Exact 0 ltac:(lia) ltac:(lia))
      as (mrs2 & -> & Hm3 & _).
    rewrite Hm3, Z.div_1_r, Z.add_0_r.
    destruct m2 as [|p2|p2] eqn:Ep; [simpl in Hm2b; lia | | lia].
    assert ((ex + k <=? 1024 - 53) = true) as -> by (apply Z.leb_le; lia).
    exists p2, (ex + k). split; [done |]. split; [done |]. split.
    + left. split; [done |]. done.
    + intros Hl Hmod. split; [done |].
      rewrite <- Ep. unfold m2. by rewrite (Hex1 Hl Hmod).
Qed.

(** *** No number of 53 digits lies strictly between a quotient and its
    rounding *)

Lemma pow2_split (j g : Z) :
  0 <= j < g -> 2 ^ g = 2 ^ (g - j - 1) * 2 * 2 ^ j.
Proof.
  intros H. replace g with ((g - j - 1) + 1 + j) at 1 by lia.
  by rewrite !Z.pow_add_r, Z.pow_1_r by lia.
Qed.

Lemma mul_cancel_iff (a b u : Z) : 0 < u -> a * u = b * u <-> a = b.
Proof. intros Hu. split; [apply Z.mul_reg_r; lia | by intros ->]. Qed.

Lemma pow2_diff (g j : Z) :
  0 <= g <= j -> 2 ^ j = 2 ^ (j - g) * 2 ^ g.
Proof. intros H. rewrite <- Z.pow_add_r by lia. f_equal. lia. Qed.

Lemma sandwich_low (E N D : Z) (m : positive) (e : Z) (T : Z) :
  0 < D -> Double.faithful E N D m e -> Double.representable T ->
  T * D <= N -> T <= Double.scaled E m e.
Proof.
  intros HD (f & g & Hf & Hg & [Hlo Hhi] & Hs & _) (k & j & Hj & Hk & ->) HT.
  assert (0 < 2 ^ g) as HG by (apply Z.pow_pos_nonneg; lia).
  assert (0 < 2 ^ j) as HJ by (apply Z.pow_pos_nonneg; lia).
  enough (k * 2 ^ j <= f * 2 ^ g) by (destruct Hs; nia).
  destruct (Z.le_gt_cases g j) as [Hgj | Hgj].
  - assert (2 ^ j = 2 ^ (j - g) * 2 ^ g) as Ej
      by (rewrite <- Z.pow_add_r by lia; f_equal; lia).
    assert (0 < 2 ^ (j - g)) as HC by (apply Z.pow_pos_nonneg; lia).
    rewrite Ej in *. set (c := 2 ^ (j - g)) in *. set (G := 2 ^ g) in *.
    assert (k * c < f + 1) by nia. nia.
  - assert (2 ^ g = 2 ^ (g - j - 1) * 2 * 2 ^ j) as Eg
      by (apply pow2_split; lia).
    assert (0 < 2 ^ (g - j - 1)) as HC by (apply Z.pow_pos_nonneg; lia).
    rewrite Eg. set (c := 2 ^ (g - j - 1)) in *. set (J := 2 ^ j) in *.
    change (2 ^ 53) with (2 ^ 52 * 2) in Hk. nia.
Qed.

Lemma sandwich_up (E N D : Z) (m : positive) (e : Z) (T : Z) :
  0 < D -> Double.faithful E N D m e -> Double.representable T ->
  N <= T * D -> Double.scaled E m e <= T.
Proof.
  intros HD (f & g & Hf & Hg & [Hlo Hhi] & Hs & Hex) (k & j & Hj & Hk & ->) HT.
  assert (0 < 2 ^ g) as HG by (apply Z.pow_pos_nonneg; lia).
  assert (0 < 2 ^ j) as HJ by (apply Z.pow_pos_nonneg; lia).
  destruct (Z.eq_dec N (f * 2 ^ g * D)) as [Heq | Hne].
  - rewrite (Hex Heq). subst N. nia.
  - enough ((f + 1) * 2 ^ g <= k * 2 ^ j) by (destruct Hs; nia).
    assert (f * 2 ^ g < k * 2 ^ j) as Hlt by nia.
    destruct (Z.le_gt_cases g j) as [Hgj | Hgj].
    + assert (2 ^ j = 2 ^ (j - g) * 2 ^ g) as Ej
        by (rewrite <- Z.pow_add_r by lia; f_equal; lia).
      assert (0 < 2 ^ (j - g)) as HC by (apply Z.pow_pos_nonneg; lia).
      rewrite Ej in *. set (c := 2 ^ (j - g)) in *. set (G := 2 ^ g) in *.
      assert (f < k * c) by nia. nia.
    + exfalso.
      assert (2 ^ g = 2 ^ (g - j - 1) * 2 * 2 ^ j) as Eg
        by (apply pow2_split; lia).
      assert (0 < 2 ^ (g - j - 1)) as HC by (apply Z.pow_pos_nonneg; lia).
      rewrite Eg in Hlt. set (c := 2 ^ (g - j - 1)) in *.
      set (J := 2 ^ j) in *.
      change (2 ^ 53) with (2 ^ 52 * 2) in Hk. nia.
Qed.

(** *** The operations *)

Lemma shift_pos_value (p c : positive) :
  Zpos (Pos.iter xO p c) = Zpos p * 2 ^ Zpos c.
Proof.
  change (Pos.iter xO p c) with (shift_pos c p).
  rewrite shift_pos_correct, Z.mul_comm. done.
Qed.

Lemma digits_at_most (p : positive) (d : Z) :
  Zpos p < 2 ^ d -> 0 <= d -> Zpos (digits2_pos p) <= d.
Proof.
  intros Hp Hd. pose proof (digits2_pos_bounds p) as [Hlo _].
  destruct (Z.le_gt_cases (Zpos (digits2_pos p)) d) as [|Hgt]; [done |].
  assert (2 ^ d <= 2 ^ (Zpos (digits2_pos p) - 1))
    by (apply Z.pow_le_mono_r; lia). lia.
Qed.

Lemma digits_at_least (p : positive) (d : Z) :
  2 ^ (d - 1) <= Zpos p -> d <= Zpos (digits2_pos p).
Proof.
  intros Hp. pose proof (digits2_pos_bounds p) as [_ Hhi].
  destruct (Z.le_gt_cases d (Zpos (digits2_pos p))) as [|Hgt]; [done |].
  assert (2 ^ Zpos (digits2_pos p) <= 2 ^ (d - 1))
    by (apply Z.pow_le_mono_r; lia). lia.
Qed.

Lemma scale_bounds (a b c W : Z) :
  0 < W -> a <= b < c -> a * W <= b * W < c * W.
Proof. intros HW [Hab Hbc]. split; nia. Qed.

Lemma scale_eq (a b W : Z) : 0 < W -> a * W = b * W -> a = b.
Proof. intros HW. apply Z.mul_reg_r. lia. Qed.

(** A quotient truncated twice. *)
Lemma div_core_bounds (X m2 q r K f rem : Z) :
  X = m2 * q + r -> 0 <= r < m2 -> q = K * f + rem -> 0 <= rem < K ->
  f * K * m2 <= X < (f + 1) * K * m2.
Proof. intros -> Hr -> Hrem. split; nia. Qed.

Lemma div_core_exact (X m2 q r K f rem : Z) :
  X = m2 * q + r -> 0 <= r < m2 -> q = K * f + rem -> 0 <= rem < K ->
  X = f * K * m2 -> q = f * K /\ r = 0.
Proof.
  intros -> Hr -> Hrem Heq.
  assert (m2 * rem + r = 0) as H0 by lia.
  assert (rem = 0) as -> by nia. split; lia.
Qed.

Lemma trunc_bounds (X K f rem : Z) :
  X = K * f + rem -> 0 <= rem < K -> f * K <= X < (f + 1) * K.
Proof. intros -> Hrem. split; nia. Qed.

Lemma lex_lt (P m1 m2 c J : Z) :
  0 < P -> m1 < P * 2 -> P <= m2 -> 1 <= c -> 0 < J ->
  m1 * J < m2 * (c * 2 * J).
Proof.
  intros HP H1 H2 Hc HJ.
  assert (m1 * J < P * 2 * J) by (apply Z.mul_lt_mono_pos_r; lia).
  assert (P * 2 * J <= m2 * 2 * J)
    by (apply Z.mul_le_mono_nonneg_r; lia).
  assert (0 <= m2 * 2 * J) by (apply Z.mul_nonneg_nonneg; lia).
  assert (m2 * 2 * J * 1 <= m2 * 2 * J * c)
    by (apply Z.mul_le_mono_nonneg_l; lia).
  lia.
Qed.

Section Scaled.
Variable E : Z.
Hypothesis HE : 1000 <= E.

(** A positive integer below [2^53] converts exactly. *)
Lemma of_nat_spec (a : nat) :
  0 < Z.of_nat a < 2 ^ 53 ->
  exists m e,
    Double.of_nat a = S754_finite false m e /\ Double.normal m /\
    -52 <= e <= 0 /\ Double.scaled E m e = Z.of_nat a * 2 ^ E.
Proof.
  intros Ha. unfold Double.of_nat, binary_normalize.
  destruct (Z.of_nat a) as [|p|p]; [lia | | lia].
  unfold binary_round, shl_align, Double.prec, Double.emax.
  set (d := Zpos (digits2_pos p)).
  assert (1 <= d <= 53) as Hd.
  { split; [unfold d; lia |]. apply digits_at_most; lia. }
  assert (fexp 53 1024 (d + 0) = d - 53) as ->
    by (unfold fexp, emin; lia).
  pose proof (digits2_pos_bounds p) as [Hlo Hhi]. fold d in Hlo, Hhi.
  destruct (d - 53 - 0) as [|c|c] eqn:Hc; [| lia |].
  - destruct (round_aux_spec p 0 loc_Exact) as (m & e & -> & Hm & _ & Hex);
      fold d; try lia.
    fold d in Hex. replace (d - 53) with 0 in Hex by lia.
    change (2 ^ 0) with 1 in Hex.
    rewrite Z.mod_1_r, Z.div_1_r in Hex.
    destruct (Hex eq_refl eq_refl) as [-> Hmp].
    exists m, (0 + 0). split; [done |]. split; [done |]. split; [lia |].
    unfold Double.scaled. rewrite Hmp. done.
  - set (p' := Pos.iter xO p c).
    assert (Zpos p' = Zpos p * 2 ^ Zpos c) as Hp' by apply shift_pos_value.
    assert (Zpos c = 53 - d) as Hcd by lia.
    assert (2 ^ 53 = 2 ^ d * 2 ^ Zpos c) as E53
      by (rewrite <- Z.pow_add_r by lia; f_equal; lia).
    assert (2 ^ 52 = 2 ^ (d - 1) * 2 ^ Zpos c) as E52
      by (rewrite <- Z.pow_add_r by lia; f_equal; lia).
    assert (0 < 2 ^ Zpos c) by (apply Z.pow_pos_nonneg; lia).
    assert (Zpos (digits2_pos p') = 53) as Hd'
      by (apply digits2_pos_unique; change (53 - 1) with 52; nia).
    destruct (round_aux_spec p' (d - 53) loc_Exact)
      as (m & e & -> & Hm & _ & Hex); rewrite ?Hd'; try lia.
    rewrite Hd' in Hex. change (2 ^ (53 - 53)) with 1 in Hex.
    rewrite Z.mod_1_r, Z.div_1_r in Hex.
    destruct (Hex eq_refl eq_refl) as [-> Hmp].
    exists m, (d - 53 + (53 - 53)). split; [done |]. split; [done |].
    split; [lia |].
    unfold Double.scaled. rewrite Hmp, Hp'.
    replace (d - 53 + (53 - 53) + E) with (E - Zpos c) by lia.
    rewrite (pow2_diff (Zpos c) E) by lia.
    replace (E - Zpos c - Zpos c + Zpos c) with (E - Zpos c) by lia.
    nia.
Qed.

(** The quotient of two normal numbers is rounded faithfully. *)
Lemma div_faithful (m1 : positive) (e1 : Z) (m2 : positive) (e2 : Z) :
  Double.normal m1 -> Double.normal m2 ->
  -400 <= e1 <= 400 -> -400 <= e2 <= 400 ->
  exists m e,
    Double.div (S754_finite false m1 e1) (S754_finite false m2 e2)
    = S754_finite false m e /\
    Double.normal m /\ e1 - e2 - 53 <= e <= e1 - e2 - 51 /\
    Double.faithful E (Double.scaled E m1 e1 * 2 ^ E) (Double.scaled E m2 e2)
                    m e.
Proof.
  intros Hm1 Hm2 He1 He2. unfold Double.normal in Hm1, Hm2.
  unfold Double.div, SFdiv, SFdiv_core_binary, Double.prec, Double.emax.
  assert (Zdigits2 (Zpos m1) = 53) as ->
    by (apply Zdigits2_unique; [lia | done]).
  assert (Zdigits2 (Zpos m2) = 53) as ->
    by (apply Zdigits2_unique; [lia | done]).
  assert (Z.min (fexp 53 1024 (53 + e1 - (53 + e2))) (e1 - e2)
          = e1 - e2 - 53) as -> by (unfold fexp, emin; lia).
  replace (e1 - e2 - (e1 - e2 - 53)) with 53 by lia.
  cbv beta iota. rewrite Z.shiftl_mul_pow2 by lia.
  pose proof (Z_div_mod (Zpos m1 * 2 ^ 53) (Zpos m2) ltac:(lia)) as Hdm.
  destruct (Z.div_eucl (Zpos m1 * 2 ^ 53) (Zpos m2)) as [q r].
  destruct Hdm as [Hdm Hr].
  assert (2 ^ 52 <= q < 2 ^ 54) as Hq.
  { change (2 ^ 54) with (2 * 2 ^ 53). change (2 ^ 53) with (2 * 2 ^ 52) in *.
    nia. }
  destruct q as [|q|q]; [lia | | lia].
  set (d := Zpos (digits2_pos q)).
  assert (53 <= d <= 54) as Hd.
  { split; [apply digits_at_least | apply digits_at_most]; lia. }
  change (xorb false false) with false.
  destruct (round_aux_spec q (e1 - e2 - 53) (new_location (Zpos m2) r))
    as (m & e & -> & Hm & He & Hex); fold d; try lia.
  fold d in He, Hex. set (k := d - 53) in *.
  assert (0 <= k <= 1) as Hk by (unfold k; lia).
  assert (0 < 2 ^ k) as Hpk by (apply Z.pow_pos_nonneg; lia).
  set (f := Zpos q / 2 ^ k) in *.
  pose proof (Z.div_mod (Zpos q) (2 ^ k) ltac:(lia)) as Hqf. fold f in Hqf.
  pose proof (Z.mod_pos_bound (Zpos q) (2 ^ k) Hpk) as Hqr.
  pose proof (digits2_pos_bounds q) as [Hqlo Hqhi]. fold d in Hqlo, Hqhi.
  assert (2 ^ 52 <= f < 2 ^ 53) as Hf.
  { assert (2 ^ (d - 1) = 2 ^ 52 * 2 ^ k) as E1
      by (rewrite <- Z.pow_add_r by lia; f_equal; unfold k; lia).
    assert (2 ^ d = 2 ^ 53 * 2 ^ k) as E2
      by (rewrite <- Z.pow_add_r by lia; f_equal; unfold k; lia).
    nia. }
  exists m, e. split; [done |]. split; [done |]. split; [lia |].
  exists f, (e1 - e2 - 53 + k + E).
  split; [done |]. split; [lia |].
  unfold Double.scaled.
  (* a common unit *)
  set (W := 2 ^ (e1 - 53 + E + E)).
  assert (0 < W) as HW by (apply Z.pow_pos_nonneg; lia).
  assert (Zpos m1 * 2 ^ (e1 + E) * 2 ^ E = Zpos m1 * 2 ^ 53 * W) as EN.
  { unfold W. rewrite <- !Z.mul_assoc, <- !Z.pow_add_r by lia.
    do 2 f_equal. lia. }
  assert (forall x, x * 2 ^ (e1 - e2 - 53 + k + E) * (Zpos m2 * 2 ^ (e2 + E))
                    = x * 2 ^ k * Zpos m2 * W) as ED.
  { intros x. unfold W.
    replace (e1 - e2 - 53 + k + E) with (k + (e1 - e2 - 53 + E)) by lia.
    rewrite (Z.pow_add_r 2 k) by lia.
    replace (e1 - 53 + E + E) with ((e1 - e2 - 53 + E) + (e2 + E)) by lia.
    rewrite (Z.pow_add_r 2 (e1 - e2 - 53 + E)) by lia. ring. }
  rewrite EN, !ED.
  assert (forall x, Zpos m * 2 ^ (e + E) = x * 2 ^ (e1 - e2 - 53 + k + E)
                    <-> Zpos m * 2 ^ (e - (e1 - e2 - 53)) = x * 2 ^ k) as ES.
  { intros x.
    replace (e + E) with ((e - (e1 - e2 - 53)) + (e1 - e2 - 53 + E)) by lia.
    replace (e1 - e2 - 53 + k + E) with (k + (e1 - e2 - 53 + E)) by lia.
    rewrite (Z.pow_add_r 2 (e - (e1 - e2 - 53))),
      (Z.pow_add_r 2 k), !Z.mul_assoc by lia.
    apply (mul_cancel_iff (Zpos m * 2 ^ (e - (e1 - e2 - 53))) (x * 2 ^ k)).
    apply Z.pow_pos_nonneg; lia. }
  split.
  { apply scale_bounds; [done |].
    exact (div_core_bounds _ _ _ _ _ _ _ Hdm Hr Hqf Hqr). }
  split.
  - destruct He as [[-> [Hmf | Hmf]] | (-> & Hmf & Hc)].
    + left. apply ES. replace (e1 - e2 - 53 + k - (e1 - e2 - 53)) with k by lia.
      by rewrite Hmf.
    + right. apply ES.
      replace (e1 - e2 - 53 + k - (e1 - e2 - 53)) with k by lia.
      by rewrite Hmf.
    + right. apply ES.
      replace (e1 - e2 - 53 + k + 1 - (e1 - e2 - 53)) with (k + 1) by lia.
      rewrite Z.pow_add_r, Z.pow_1_r, Hmf, Hc by lia.
      change (2 ^ 53) with (2 ^ 52 * 2). ring.
  - intros Hexact. apply ES.
    apply scale_eq in Hexact; [| done].
    destruct (div_core_exact _ _ _ _ _ _ _ Hdm Hr Hqf Hqr Hexact)
      as [Hqe ->].
    destruct Hex as [-> ->].
    + unfold new_location, new_location_even, new_location_odd.
      by destruct (Z.even (Zpos m2)).
    + rewrite Hqe. apply Z.mod_mul. lia.
    + replace (e1 - e2 - 53 + k - (e1 - e2 - 53)) with k by lia. done.
Qed.

(** So is the product of two normal numbers. *)
Lemma mul_faithful (m1 : positive) (e1 : Z) (m2 : positive) (e2 : Z) :
  Double.normal m1 -> Double.normal m2 ->
  -400 <= e1 <= 400 -> -400 <= e2 <= 400 ->
  exists m e,
    Double.mul (S754_finite false m1 e1) (S754_finite false m2 e2)
    = S754_finite false m e /\
    Double.normal m /\ e1 + e2 + 52 <= e <= e1 + e2 + 54 /\
    Double.faithful E (Double.scaled E m1 e1 * Double.scaled E m2 e2)
                    (2 ^ E) m e.
Proof.
  intros Hm1 Hm2 He1 He2. unfold Double.normal in Hm1, Hm2.
  unfold Double.mul, SFmul, Double.prec, Double.emax. simpl xorb.
  set (mx := (m1 * m2)%positive).
  assert (Zpos mx = Zpos m1 * Zpos m2) as Hmx by apply Pos2Z.inj_mul.
  assert (2 ^ 104 <= Zpos mx < 2 ^ 106) as Hb.
  { change (2 ^ 104) with (2 ^ 52 * 2 ^ 52).
    change (2 ^ 106) with (2 ^ 53 * 2 ^ 53). nia. }
  set (d := Zpos (digits2_pos mx)).
  assert (105 <= d <= 106) as Hd.
  { split; [apply digits_at_least | apply digits_at_most]; lia. }
  destruct (round_aux_spec mx (e1 + e2) loc_Exact)
    as (m & e & -> & Hm & He & Hex); fold d; try lia.
  fold d in He, Hex. set (k := d - 53) in *.
  assert (52 <= k <= 53) as Hk by (unfold k; lia).
  assert (0 < 2 ^ k) as Hpk by (apply Z.pow_pos_nonneg; lia).
  set (f := Zpos mx / 2 ^ k) in *.
  pose proof (Z.div_mod (Zpos mx) (2 ^ k) ltac:(lia)) as Hqf. fold f in Hqf.
  pose proof (Z.mod_pos_bound (Zpos mx) (2 ^ k) Hpk) as Hqr.
  pose proof (digits2_pos_bounds mx) as [Hqlo Hqhi]. fold d in Hqlo, Hqhi.
  assert (2 ^ 52 <= f < 2 ^ 53) as Hf.
  { assert (2 ^ (d - 1) = 2 ^ 52 * 2 ^ k) as E1
      by (rewrite <- Z.pow_add_r by lia; f_equal; unfold k; lia).
    assert (2 ^ d = 2 ^ 53 * 2 ^ k) as E2
      by (rewrite <- Z.pow_add_r by lia; f_equal; unfold k; lia).
    nia. }
  exists m, e. split; [done |]. split; [done |]. split; [lia |].
  exists f, (e1 + e2 + k + E).
  split; [done |]. split; [lia |].
  unfold Double.scaled.
  set (W := 2 ^ (e1 + e2 + E + E)).
  assert (0 < W) as HW by (apply Z.pow_pos_nonneg; lia).
  assert (Zpos m1 * 2 ^ (e1 + E) * (Zpos m2 * 2 ^ (e2 + E)) = Zpos mx * W)
    as EN.
  { unfold W. rewrite Hmx.
    replace (e1 + e2 + E + E) with ((e1 + E) + (e2 + E)) by lia.
    rewrite (Z.pow_add_r 2 (e1 + E) (e2 + E)) by lia. ring. }
  assert (forall x, x * 2 ^ (e1 + e2 + k + E) * 2 ^ E = x * 2 ^ k * W) as ED.
  { intros x. unfold W.
    replace (e1 + e2 + k + E) with (k + (e1 + e2 + E)) by lia.
    rewrite (Z.pow_add_r 2 k) by lia.
    rewrite (Z.pow_add_r 2 (e1 + e2 + E)) by lia. ring. }
  rewrite EN, !ED.
  assert (forall x, Zpos m * 2 ^ (e + E) = x * 2 ^ (e1 + e2 + k + E)
                    <-> Zpos m * 2 ^ (e - (e1 + e2)) = x * 2 ^ k) as ES.
  { intros x.
    replace (e + E) with ((e - (e1 + e2)) + (e1 + e2 + E)) by lia.
    replace (e1 + e2 + k + E) with (k + (e1 + e2 + E)) by lia.
    rewrite (Z.pow_add_r 2 (e - (e1 + e2))),
      (Z.pow_add_r 2 k), !Z.mul_assoc by lia.
    apply (mul_cancel_iff (Zpos m * 2 ^ (e - (e1 + e2))) (x * 2 ^ k)).
    apply Z.pow_pos_nonneg; lia. }
  split.
  { apply scale_bounds; [done |]. exact (trunc_bounds _ _ _ _ Hqf Hqr). }
  split.
  - destruct He as [[-> [Hmf | Hmf]] | (-> & Hmf & Hc)].
    + left. apply ES. replace (e1 + e2 + k - (e1 + e2)) with k by lia.
      by rewrite Hmf.
    + right. apply ES. replace (e1 + e2 + k - (e1 + e2)) with k by lia.
      by rewrite Hmf.
    + right. apply ES.
      replace (e1 + e2 + k + 1 - (e1 + e2)) with (k + 1) by lia.
      rewrite Z.pow_add_r, Z.pow_1_r, Hmf, Hc by lia.
      change (2 ^ 53) with (2 ^ 52 * 2). ring.
  - intros Hexact. apply ES.
    apply scale_eq in Hexact; [| done].
    destruct Hex as [-> ->]; [done | |].
    + rewrite Hexact. apply Z.mod_mul. lia.
    + replace (e1 + e2 + k - (e1 + e2)) with k by lia. done.
Qed.

(** Normal numbers compare as their values do. *)
Lemma compare_scaled (m1 : positive) (e1 : Z) (m2 : positive) (e2 : Z) :
  Double.normal m1 -> Double.normal m2 -> -E <= e1 -> -E <= e2 ->
  SFcompare (S754_finite false m1 e1) (S754_finite false m2 e2)
  = Some (Double.scaled E m1 e1 ?= Double.scaled E m2 e2).
Proof.
  intros Hm1 Hm2 He1 He2. unfold Double.normal in Hm1, Hm2.
  unfold Double.scaled. simpl. f_equal.
  assert (0 < 2 ^ (e1 + E)) by (apply Z.pow_pos_nonneg; lia).
  assert (0 < 2 ^ (e2 + E)) by (apply Z.pow_pos_nonneg; lia).
  change (2 ^ 53) with (2 ^ 52 * 2) in *.
  destruct (Z.compare_spec e1 e2) as [-> | Hlt | Hgt]; symmetry.
  - change (Pos.compare_cont Eq m1 m2) with (Zpos m1 ?= Zpos m2).
    destruct (Z.compare_spec (Zpos m1) (Zpos m2)) as [-> | ? | ?].
    + apply Z.compare_refl.
    + apply Z.compare_lt_iff. nia.
    + apply Z.compare_gt_iff. nia.
  - apply Z.compare_lt_iff.
    rewrite (pow2_split (e1 + E) (e2 + E)) by lia.
    assert (0 < 2 ^ (e2 + E - (e1 + E) - 1)) by (apply Z.pow_pos_nonneg; lia).
    apply (lex_lt (2 ^ 52)); lia.
  - apply Z.compare_gt_iff.
    rewrite (pow2_split (e2 + E) (e1 + E)) by lia.
    assert (0 < 2 ^ (e1 + E - (e2 + E) - 1)) by (apply Z.pow_pos_nonneg; lia).
    apply (lex_lt (2 ^ 52)); lia.
Qed.

(** Normal numbers with the same value are the same. *)
Lemma scaled_inj (m1 : positive) (e1 : Z) (m2 : positive) (e2 : Z) :
  Double.normal m1 -> Double.normal m2 -> -E <= e1 -> -E <= e2 ->
  Double.scaled E m1 e1 = Double.scaled E m2 e2 -> m1 = m2 /\ e1 = e2.
Proof.
  intros Hm1 Hm2 He1 He2 Heq.
  pose proof (compare_scaled m1 e1 m2 e2 Hm1 Hm2 He1 He2) as Hc.
  rewrite Heq, Z.compare_refl in Hc. simpl in Hc.
  destruct (Z.compare_spec e1 e2) as [-> | |]; [| done | done].
  injection Hc as Hc. by apply Pos.compare_eq in Hc as ->.
Qed.

(** [Math.min] of two normal numbers. *)
Lemma min_scaled (m1 : positive) (e1 : Z) (m2 : positive) (e2 : Z) :
  Double.normal m1 -> Double.normal m2 -> -E <= e1 -> -E <= e2 ->
  Double.min (S754_finite false m1 e1) (S754_finite false m2 e2)
  = if Double.scaled E m1 e1 <? Double.scaled E m2 e2
    then S754_finite false m1 e1 else S754_finite false m2 e2.
Proof.
  intros Hm1 Hm2 He1 He2. unfold Double.min.
  rewrite (compare_scaled m1 e1 m2 e2) by done. unfold Z.ltb.
  by destruct (_ ?= _).
Qed.

(** *** The percentage

    [(a / n) * 100] for two positive integers below [2^34]: a normal
    number, between the numbers [100 * K * 2^-36] below and above
    [100 * a / n]. *)
Lemma percent_spec (a n : nat) :
  0 < Z.of_nat a < 2 ^ 34 -> 0 < Z.of_nat n < 2 ^ 34 ->
  exists m e,
    Double.mul (Double.div (Double.of_nat a) (Double.of_nat n))
               (Double.of_nat 100)
    = S754_finite false m e /\
    Double.normal m /\ -E <= e /\
    (forall K, 0 <= K -> 100 * K < 2 ^ 53 ->
               Z.of_nat a * 2 ^ 36 <= K * Z.of_nat n ->
               Double.scaled E m e <= 100 * K * 2 ^ (E - 36)) /\
    (forall K, 0 <= K -> 100 * K < 2 ^ 53 ->
               K * Z.of_nat n <= Z.of_nat a * 2 ^ 36 ->
               100 * K * 2 ^ (E - 36) <= Double.scaled E m e).
Proof.
  intros Ha Hn.
  destruct (of_nat_spec a) as (ma & ea & -> & Hma & Hea & Hsa);
    [change (2 ^ 53) with (2 ^ 34 * 2 ^ 19); lia |].
  destruct (of_nat_spec n) as (mn & en & -> & Hmn & Hen & Hsn);
    [change (2 ^ 53) with (2 ^ 34 * 2 ^ 19); lia |].
  destruct (of_nat_spec 100) as (mh & eh & -> & Hmh & Heh & Hsh);
    [simpl; lia |].
  destruct (div_faithful ma ea mn en) as (mq & eq & -> & Hmq & Heq & Hfq);
    [done | done | lia | lia |].
  destruct (mul_faithful mq eq mh eh) as (m & e & -> & Hm & He & Hfm);
    [done | done | lia | lia |].
  exists m, e. split; [done |]. split; [done |]. split; [lia |].
  rewrite Hsa, Hsn in Hfq. rewrite Hsh in Hfm.
  set (U := 2 ^ (E - 36)).
  assert (0 < U) as HU by (apply Z.pow_pos_nonneg; lia).
  assert (0 < 2 ^ E) as HPE by (apply Z.pow_pos_nonneg; lia).
  assert (0 < Z.of_nat n * 2 ^ E) as HD by (apply Z.mul_pos_pos; lia).
  assert (2 ^ E = 2 ^ 36 * U) as EE
    by (unfold U; rewrite <- Z.pow_add_r by lia; f_equal; lia).
  assert (forall K, 0 <= K -> 100 * K < 2 ^ 53 ->
            Double.representable (K * U) /\
            Double.representable (100 * K * U)) as Hrep.
  { intros K HK HK'. split.
    - exists K, (E - 36). split; [lia |]. split; [lia | done].
    - exists (100 * K), (E - 36). split; [lia |]. split; [lia | done]. }
  split.
  - intros K HK HK' Hle. destruct (Hrep K HK HK') as [Hr1 Hr2].
    assert (Double.scaled E mq eq <= K * U) as Hq.
    { apply (sandwich_up E _ _ mq eq (K * U) HD Hfq Hr1).
      rewrite EE.
      replace (Z.of_nat a * (2 ^ 36 * U) * (2 ^ 36 * U))
        with (Z.of_nat a * 2 ^ 36 * (U * (2 ^ 36 * U))) by ring.
      replace (K * U * (Z.of_nat n * (2 ^ 36 * U)))
        with (K * Z.of_nat n * (U * (2 ^ 36 * U))) by ring.
      apply Z.mul_le_mono_nonneg_r; [| done].
      apply Z.mul_nonneg_nonneg; lia. }
    apply (sandwich_up E _ _ m e (100 * K * U) HPE Hfm Hr2).
    replace (Double.scaled E mq eq * (Z.of_nat 100 * 2 ^ E))
      with (Double.scaled E mq eq * (100 * 2 ^ E)) by done.
    replace (100 * K * U * 2 ^ E) with (K * U * (100 * 2 ^ E)) by ring.
    apply Z.mul_le_mono_nonneg_r; lia.
  - intros K HK HK' Hle. destruct (Hrep K HK HK') as [Hr1 Hr2].
    assert (K * U <= Double.scaled E mq eq) as Hq.
    { apply (sandwich_low E _ _ mq eq (K * U) HD Hfq Hr1).
      rewrite EE.
      replace (Z.of_nat a * (2 ^ 36 * U) * (2 ^ 36 * U))
        with (Z.of_nat a * 2 ^ 36 * (U * (2 ^ 36 * U))) by ring.
      replace (K * U * (Z.of_nat n * (2 ^ 36 * U)))
        with (K * Z.of_nat n * (U * (2 ^ 36 * U))) by ring.
      apply Z.mul_le_mono_nonneg_r; [| done].
      apply Z.mul_nonneg_nonneg; lia. }
    apply (sandwich_low E _ _ m e (100 * K * U) HPE Hfm Hr2).
    replace (Double.scaled E mq eq * (Z.of_nat 100 * 2 ^ E))
      with (Double.scaled E mq eq * (100 * 2 ^ E)) by done.
    replace (100 * K * U * 2 ^ E) with (K * U * (100 * 2 ^ E)) by ring.
    apply Z.mul_le_mono_nonneg_r; lia.
Qed.

(** The number written on a progress line, for a job of [n] rows, [n]
    below [2^32], and a batch that starts at row [i]: it is [100] when the
    batch is the last one; otherwise it is a normal number below [100],
    between the numbers [100 * K * 2^-36] below and above
    [100 * (i + 10) / n]. *)
Lemma progress_spec (i n : nat) :
  (i < n)%nat -> Z.of_nat n <= 2 ^ 32 ->
  exists m e,
    progress_at i n = S754_finite false m e /\
    Double.normal m /\ -E <= e /\
    ((n <= i + 10)%nat ->
     S754_finite false m e = Double.of_nat 100 /\
     Double.scaled E m e = 100 * 2 ^ E) /\
    ((i + 10 < n)%nat ->
     Double.scaled E m e < 100 * 2 ^ E /\
     (forall K, 0 <= K -> 100 * K < 2 ^ 53 ->
                Z.of_nat (i + 10) * 2 ^ 36 <= K * Z.of_nat n ->
                Double.scaled E m e <= 100 * K * 2 ^ (E - 36)) /\
     (forall K, 0 <= K -> 100 * K < 2 ^ 53 ->
                K * Z.of_nat n <= Z.of_nat (i + 10) * 2 ^ 36 ->
                100 * K * 2 ^ (E - 36) <= Double.scaled E m e)).
Proof.
  intros Hi Hn. unfold progress_at, chunkSize.
  assert (2 ^ 32 = 4294967296) as E32 by done.
  assert (2 ^ 34 = 17179869184) as E34 by done.
  assert (2 ^ 36 = 68719476736) as E36 by done.
  assert (2 ^ 53 = 9007199254740992) as E53 by done.
  destruct (percent_spec (i + 10) n) as (m & e & -> & Hm & He & Hup & Hlow);
    [lia | lia |].
  destruct (of_nat_spec 100) as (mh & eh & Hh & Hmh & Heh & Hsh);
    [simpl; lia |].
  rewrite Hh, (min_scaled m e mh eh) by (done || lia). rewrite Hsh.
  change (Z.of_nat 100) with 100.
  set (U := 2 ^ (E - 36)) in *.
  assert (0 < U) as HU by (apply Z.pow_pos_nonneg; lia).
  assert (2 ^ E = 2 ^ 36 * U) as EE
    by (unfold U; rewrite <- Z.pow_add_r by lia; f_equal; lia).
  destruct (le_lt_dec n (i + 10)) as [Hlast | Hmid].
  - (* the last batch *)
    assert (100 * 2 ^ E <= Double.scaled E m e) as Hge.
    { rewrite EE.
      replace (100 * (2 ^ 36 * U)) with (100 * 2 ^ 36 * U) by ring.
      apply Hlow; lia. }
    destruct (Z.ltb_spec (Double.scaled E m e) (100 * 2 ^ E)); [lia |].
    exists mh, eh. split; [done |]. split; [done |]. split; [lia |].
    split; [| lia]. intros _. split; [done |]. by rewrite Hsh.
  - assert (Double.scaled E m e < 100 * 2 ^ E) as Hlt.
    { assert (Double.scaled E m e <= 100 * (2 ^ 36 - 16) * U) as Hle
        by (apply Hup; lia).
      rewrite EE. lia. }
    destruct (Z.ltb_spec (Double.scaled E m e) (100 * 2 ^ E)); [| lia].
    exists m, e. split; [done |]. split; [done |]. split; [done |].
    split; [lia |]. intros _. done.
Qed.

End Scaled.

End DoubleFacts.

(** X21: for a job of at most [2^32] rows, the percentages of the
    progress lines, as computed in binary64 arithmetic, are positive, at
    most 100 and strictly increasing from line to line, and a line reads
    100 exactly when it is the last one. *)
Theorem progress_readings (n b : nat) :
  (Z.of_nat n <= 2 ^ 32)%Z -> b < batches n ->
  let p := progress_at (b * 10) n in
  Double.ltb (Double.of_nat 0) p = true /\
  Double.leb p (Double.of_nat 100) = true /\
  (p = Double.of_nat 100 <-> b = batches n - 1) /\
  (forall b', b' < b ->
     Double.ltb (progress_at (b' * 10) n) p = true).
Proof.
  intros Hn Hb p.
  pose proof (batches_bounds n) as [Hlo Hhi]. unfold chunkSize in *.
  assert (exists E, (1000 <= E)%Z) as [E HE] by (exists 1000%Z; lia).
  assert (b * 10 < n) as Hi by lia.
  destruct (DoubleFacts.progress_spec E HE (b * 10) n Hi Hn)
    as (m & e & Hp & Hm & He & Hlast & Hmid).
  fold p in Hp.
  destruct (DoubleFacts.of_nat_spec E HE 100) as (mh & eh & Hh & Hmh & Heh & Hsh);
    [simpl; lia |].
  change (Z.of_nat 100) with 100%Z in Hsh.
  assert (SFcompare p (Double.of_nat 100)
          = Some (Double.scaled E m e ?= 100 * 2 ^ E)%Z) as Hcmp.
  { rewrite Hp, Hh, <- Hsh. apply DoubleFacts.compare_scaled; (done || lia). }
  split; [by rewrite Hp |]. split; [| split].
  - unfold Double.leb, SFleb. rewrite Hcmp.
    destruct (le_lt_dec n (b * 10 + 10)) as [Hl | Hl].
    + destruct (Hlast Hl) as [_ ->]. by rewrite Z.compare_refl.
    + destruct (Hmid Hl) as [Hlt _].
      apply Z.compare_lt_iff in Hlt. by rewrite Hlt.
  - split.
    + intros Heq. destruct (le_lt_dec n (b * 10 + 10)) as [Hl | Hl]; [lia |].
      destruct (Hmid Hl) as [Hlt _]. exfalso.
      rewrite Heq, Hh in Hp. injection Hp as <- <-. lia.
    + intros ->. rewrite Hp. apply Hlast. lia.
  - intros b' Hb'.
    assert (b' * 10 < n) as Hi' by lia.
    destruct (DoubleFacts.progress_spec E HE (b' * 10) n Hi' Hn)
      as (m' & e' & Hp' & Hm' & He' & _ & Hmid').
    destruct Hmid' as (Hlt' & Hup' & _); [lia |].
    unfold Double.ltb, SFltb.
    rewrite Hp', Hp, (DoubleFacts.compare_scaled E m' e' m e) by (done || lia).
    enough (Double.scaled E m' e' < Double.scaled E m e)%Z as H
      by (apply Z.compare_lt_iff in H; by rewrite H).
    destruct (le_lt_dec n (b * 10 + 10)) as [Hl | Hl].
    + destruct (Hlast Hl) as [_ ->]. done.
    + destruct (Hmid Hl) as (_ & _ & Hlow).
      set (a := Z.of_nat (b * 10 + 10)) in *.
      set (a' := Z.of_nat (b' * 10 + 10)) in *.
      set (K := (a * 2 ^ 36 / Z.of_nat n)%Z).
      assert (2 ^ 32 = 4294967296)%Z as E32 by done.
      assert (2 ^ 36 = 68719476736)%Z as E36 by done.
      assert (2 ^ 53 = 9007199254740992)%Z as E53 by done.
      pose proof (Z.div_mod (a * 2 ^ 36) (Z.of_nat n) ltac:(lia)) as Hdiv.
      pose proof (Z.mod_pos_bound (a * 2 ^ 36) (Z.of_nat n) ltac:(lia))
        as Hmod.
      fold K in Hdiv.
      assert (a' + 10 <= a)%Z as Haa by (unfold a, a'; lia).
      assert (a < Z.of_nat n)%Z as Han by (unfold a; lia).
      assert (1 <= K <= 2 ^ 36)%Z as HK.
      { split.
        - apply Z.div_le_lower_bound; unfold a; lia.
        - apply Z.div_le_upper_bound; [lia |]. nia. }
      assert (0 < 2 ^ (E - 36))%Z as HU by (apply Z.pow_pos_nonneg; lia).
      assert (Double.scaled E m' e' <= 100 * (K - 1) * 2 ^ (E - 36))%Z
        by (apply Hup'; lia).
      assert (100 * K * 2 ^ (E - 36) <= Double.scaled E m e)%Z
        by (apply Hlow; lia).
      nia.
Qed.

Lemma progress_readings_witness :
  let p := progress_at (2 * 10) 25 in
  Double.ltb (Double.of_nat 0) p = true /\
  Double.leb p (Double.of_nat 100) = true /\
  (p = Double.of_nat 100 <-> 2 = batches 25 - 1) /\
  (forall b', b' < 2 ->
     Double.ltb (progress_at (b' * 10) 25) p = true).
Proof.
  refine (progress_readings 25 2 _ _); by vm_compute.
Defined.

(** ** The single-address route *)

Lemma outcome_echoes_email w (e : value) r : outcome w e r -> email r = e.
Proof. by destruct 1. Qed.

(** X22: the single-address route answers 400 "Email is required"
    without touching the network exactly when the [email] property of the
    body is missing or falsy; otherwise its answer, if any, is 200 with the
    result of [validateEmail] for that value, which echoes it; so a truthy
    non-string value is answered 200 with "Invalid email format"; and the
    route never answers 500. *)
Theorem validate_route_answers (w : World) (reqBody : record) :
  let e := get reqBody "email" in
  (truthy e = false ->
   validateRoute w reqBody
   = ([], Fulfilled {| status := 400;
                       body := BodyError false "Email is required" |})) /\
  (truthy e = true ->
   forall resp, snd (validateRoute w reqBody) = Fulfilled resp ->
     status resp = 200 /\
     exists r, body resp = BodyResult r /\
               snd (validateEmail w e) = Fulfilled r /\ email r = e) /\
  (truthy e = true -> is_string e = false ->
   validateRoute w reqBody
   = ([], Fulfilled {| status := 200;
                       body := BodyResult
                                 (verdict e false false false false false
                                          false "Invalid email format") |}))
  /\
  (forall resp, snd (validateRoute w reqBody) = Fulfilled resp ->
                status resp <> 500).
Proof.
  intros e. unfold validateRoute. fold e. repeat split.
  - by intros ->.
  - revert H0. rewrite H. simpl.
    destruct (validateEmail w e) as [ops [r| |]] eqn:Hv; simpl;
      [by intros [= <-] | | done].
    exfalso. apply (f_equal snd) in Hv. simpl in Hv.
    revert Hv. unfold validateEmail.
    destruct (validateEmailFormat _); simpl; [| done].
    destruct (dnsCheck _ _ _); [done |].
    destruct (mxCheck _ _ _) as [[|] ?]; [done |].
    destruct (spfCheck _ _ _); [done |].
    by destruct (smtpCheck _ _ _ _ _) as [? [[|]|]].
  - revert H0. rewrite H. simpl.
    destruct (validateEmail w e) as [ops [r| |]] eqn:Hv; simpl;
      [| | done].
    + intros [= <-]. exists r. simpl. apply (f_equal snd) in Hv.
      split; [done |]. split; [done |].
      by apply (outcome_echoes_email w), validateEmail_outcome.
    + intros [= <-]. exfalso. apply (f_equal snd) in Hv. simpl in Hv.
      revert Hv. unfold validateEmail.
      destruct (validateEmailFormat _); simpl; [| done].
      destruct (dnsCheck _ _ _); [done |].
      destruct (mxCheck _ _ _) as [[|] ?]; [done |].
      destruct (spfCheck _ _ _); [done |].
      by destruct (smtpCheck _ _ _ _ _) as [? [[|]|]].
  - intros Ht Hs. rewrite Ht. simpl. unfold validateEmail, validateEmailFormat.
    rewrite Hs, orb_true_r. done.
  - intros resp. destruct (truthy e); simpl; [| by intros [= <-]].
    destruct (validateEmail w e) as [ops [r| |]] eqn:Hv; simpl;
      [by intros [= <-] | | done].
    exfalso. apply (f_equal snd) in Hv. simpl in Hv.
    revert Hv. unfold validateEmail.
    destruct (validateEmailFormat _); simpl; [| done].
    destruct (dnsCheck _ _ _); [done |].
    destruct (mxCheck _ _ _) as [[|] ?]; [done |].
    destruct (spfCheck _ _ _); [done |].
    by destruct (smtpCheck _ _ _ _ _) as [? [[|]|]].
Qed.

Lemma validate_route_answers_witness :
  validateRoute Examples.w_spf {[ "email" := VNum 7 ]}
  = ([], Fulfilled {| status := 200;
                      body := BodyResult
                                (verdict (get {[ "email" := VNum 7 ]} "email")
                                         false false false false false false
                                         "Invalid email format") |}) /\
  validateRoute Examples.w_spf {[ "mail" := VStr "user@example.org" ]}
  = ([], Fulfilled {| status := 400;
                      body := BodyError false "Email is required" |}).
Proof.
  split.
  - apply (validate_route_answers Examples.w_spf {[ "email" := VNum 7 ]});
      by vm_compute.
  - apply (validate_route_answers Examples.w_spf
             {[ "mail" := VStr "user@example.org" ]}).
    by vm_compute.
Defined.

(** ** The form that reads the answers *)

Lemma read_all_concat chunks :
  Client.read_all chunks
  = fold_left (fun st m => Client.on_message m st) (concat chunks)
              Client.start.
Proof.
  unfold Client.read_all. generalize Client.start.
  induction chunks as [|lines chunks IH]; intros st; [done |].
  simpl. by rewrite fold_left_app, IH.
Qed.

Lemma on_message_error m st :
  Client.error (Client.shown (Client.on_message m st))
  = Client.error (Client.shown st).
Proof. by destruct m as [|? [?|]| | |]. Qed.

Lemma run_error ms : forall st,
  Client.error
    (Client.shown (fold_left (fun st m => Client.on_message m st) ms st))
  = Client.error (Client.shown st).
Proof.
  induction ms as [|m ms IH]; intros st; [done |].
  simpl. by rewrite IH, on_message_error.
Qed.

Lemma run_progress_lines outs bs : forall st,
  Client.results (Client.shown st) = Client.accumulatedResults st ->
  let st' := fold_left (fun st m => Client.on_message m st)
                       (map Client.parsed (map (progress_line outs) bs)) st in
  Client.accumulatedResults st'
  = Client.accumulatedResults st
      ++ concat (map (fun b => slice (b * chunkSize)
                                     (b * chunkSize + chunkSize) outs) bs)
  /\ Client.results (Client.shown st') = Client.accumulatedResults st'
  /\ (bs = [] \/
      exists b, last bs = Some b /\
        Client.progress (Client.shown st')
        = progress_at (b * chunkSize) (length outs)).
Proof.
  induction bs as [|b bs IH]; intros st Hst.
  - simpl. rewrite app_nil_r. auto.
  - cbn [map fold_left concat].
    set (st1 := Client.on_message _ st).
    destruct (IH st1 eq_refl) as (Hacc & Hres & Hpr).
    cbv zeta. rewrite Hacc, Hres. split; [| split].
    + subst st1. simpl. by rewrite <- app_assoc.
    + by rewrite Hacc.
    + right. destruct Hpr as [-> | (b' & Hb' & Hp)].
      * exists b. by split.
      * exists b'. split; [| done].
        destruct bs; [done | by rewrite last_cons_cons].
Qed.

(** X23: when the validation of every row settles and every line of the
    bulk answer reaches the form whole, however the stream cuts the lines
    into chunks, the form ends with the processed rows of all input rows in
    input order, both as shown results and in its accumulator, with the
    progress at 100 and no error; and after only the first [j] progress
    lines it shows exactly the first [10 j] processed rows. *)
Theorem form_follows_bulk (ws : nat -> World) (records : list record) :
  (forall k r, records !! k = Some r ->
               exists out, snd (processChunk (ws k) r) = Fulfilled out) ->
  forall chunks,
    (concat chunks = map Client.parsed (fst (bulk ws records)) ->
     let st := Client.read_all chunks in
     Client.results (Client.shown st) = processed ws records /\
     Client.accumulatedResults st = processed ws records /\
     Client.progress (Client.shown st) = Double.of_nat 100 /\
     Client.error (Client.shown st) = None) /\
    (forall j, j <= batches (length records) ->
       concat chunks = map Client.parsed (take j (fst (bulk ws records))) ->
       Client.results (Client.shown (Client.read_all chunks))
       = take (j * chunkSize) (processed ws records)).
Proof.
  intros Hsettle chunks. rewrite (bulk_trace ws records Hsettle).
  cbn [fst]. set (outs := processed ws records).
  assert (length outs = length records) as Hlen by apply length_imap.
  pose proof (batches_bounds (length records)) as [Hlo Hhi].
  split.
  - intros Hc. cbv zeta. rewrite read_all_concat, Hc, map_app, fold_left_app.
    destruct (run_progress_lines outs (seq 0 (batches (length records)))
                Client.start eq_refl) as (Hacc & _ & _).
    cbv zeta in Hacc. cbn [map fold_left Client.parsed Client.on_message].
    cbn [Client.shown Client.results Client.progress Client.error
         Client.accumulatedResults].
    rewrite run_error, Hacc. repeat split; try done.
    rewrite concat_slices. simpl. rewrite drop_0.
    apply take_ge. unfold chunkSize in *. lia.
  - intros j Hj Hc. rewrite read_all_concat, Hc.
    rewrite take_app_le
      by (rewrite length_map, length_seq; lia).
    rewrite firstn_map, take_seq.
    replace (j `min` batches (length records)) with j by lia.
    destruct (run_progress_lines outs (seq 0 j) Client.start eq_refl)
      as (Hacc & Hres & _).
    cbv zeta in Hacc, Hres. rewrite Hres, Hacc, concat_slices.
    simpl. by rewrite drop_0.
Qed.

Lemma form_follows_bulk_witness :
  Client.results
    (Client.shown
       (Client.read_all
          [map Client.parsed (fst (bulk (fun _ => Examples.w_spf)
                                        [Examples.row_in]))]))
  = processed (fun _ => Examples.w_spf) [Examples.row_in].
Proof.
  refine (proj1 (proj1 (form_follows_bulk (fun _ => Examples.w_spf)
                          [Examples.row_in] _ _) _)).
  - intros [|k] r Hr; [| done]. injection Hr as <-.
    assert (match snd (processChunk Examples.w_spf Examples.row_in) with
            | Fulfilled _ => true
            | _ => false
            end = true) as Hful by (vm_compute; reflexivity).
    destruct (snd (processChunk Examples.w_spf Examples.row_in));
      [by eexists | done | done].
  - simpl. by rewrite app_nil_r.
Defined.

(** X24: the reading loop never sets the error state: whatever lines
    arrive, error lines from the server and unparsable lines included, and
    however they are cut into chunks, the error shown stays unset; and a
    chunk made only of such lines leaves the whole state as it was. *)
Theorem form_swallows_error_lines (chunks : list (list Client.message)) :
  Client.error (Client.shown (Client.read_all chunks)) = None /\
  forall lines,
    Forall (fun m => m = Client.Unparsable \/ m = Client.OtherMsg \/
                     exists msg, m = Client.ErrorMsg msg) lines ->
    Client.read_all (chunks ++ [lines]) = Client.read_all chunks.
Proof.
  split.
  - by rewrite read_all_concat, run_error.
  - intros lines Hl. unfold Client.read_all. rewrite fold_left_app. simpl.
    generalize (fold_left
                  (fun st lines0 =>
                     fold_left (fun st0 m => Client.on_message m st0)
                               lines0 st) chunks Client.start).
    induction Hl as [|m lines Hm _ IH]; intros st; [done |].
    simpl. rewrite IH. by destruct Hm as [-> | [-> | [msg ->]]].
Qed.

Lemma form_swallows_error_lines_witness :
  Client.read_all ([[Client.ProgressMsg (Double.of_nat 50) (Some [Examples.row_in])]]
                     ++ [[Client.ErrorMsg "Failed to process CSV file"]])
  = Client.read_all [[Client.ProgressMsg (Double.of_nat 50) (Some [Examples.row_in])]].
Proof.
  apply (form_swallows_error_lines
           [[Client.ProgressMsg (Double.of_nat 50) (Some [Examples.row_in])]]).
  constructor; [| constructor]. right. right. by eexists.
Defined.

(** X25: the row that the form builds from the answer of the
    single-address route is the row that the bulk route returns for a
    record holding only that address under [email]: the two ways agree, for
    every network and every truthy value. *)
Theorem single_row_is_bulk_row (w : World) (e : value)
  (r : VerificationResult) :
  truthy e = true ->
  snd (validateEmail w e) = Fulfilled r ->
  snd (validateRoute w {[ "email" := e ]})
  = Fulfilled {| status := 200; body := BodyResult r |} /\
  snd (processChunk w {[ "email" := e ]})
  = Fulfilled (Client.transformedResult r).
Proof.
  intros Ht Hv.
  assert (get {[ "email" := e ]} "email" = e) as Hget
    by (unfold get; by rewrite lookup_singleton_eq).
  assert (email r = e) as He
    by (by apply (outcome_echoes_email w), validateEmail_outcome).
  split.
  - unfold validateRoute. rewrite Hget, Ht. simpl.
    destruct (validateEmail w e) as [ops p]. simpl in Hv. by subst p.
  - unfold processChunk, email_field, js_or. rewrite Hget, Ht. simpl.
    rewrite Ht.
    destruct (validateEmail w e) as [ops p]. simpl in Hv. subst p.
    rewrite ?Ht. simpl.
    unfold Client.transformedResult. by rewrite He, insert_empty.
Qed.

Lemma single_row_is_bulk_row_witness :
  snd (processChunk Examples.w_spf {[ "email" := VStr "user@example.org" ]})
  = Fulfilled
      (Client.transformedResult
         (verdict (VStr "user@example.org") true true true true true true
                  "Email verified successfully")).
Proof.
  refine (proj2 (single_row_is_bulk_row Examples.w_spf
                   (VStr "user@example.org") _ eq_refl _)).
  by vm_compute.
Defined.
